(** * The pong simulation of interactive_marker_tutorials/src/pong.cpp

    A shallow embedding of [PongGame]: the ball/paddle state, [reflect],
    [normalizeVel], [reset], [processPaddleFeedback] and the control loop
    [spinOnce].

    Numbers.  The C++ code computes on [float].  Here every [float] is a
    real number and every operation is the exact one, so rounding is left
    out of the model.  The one place where float arithmetic leaves the
    reals is a division by zero (the quotient is an infinity or a NaN):
    [fdiv] returns [None] there, and the functions that divide live in the
    option monad.  [None] therefore reads "the C++ state now holds a
    non-finite value".

    Inputs.  The one number that enters the game from outside is
    [pose.position.y] of a paddle feedback, a [double]: it may be an
    infinity or a NaN, and the paddle position it is stored in may then
    hold a NaN.  Those two are values of [fval], the reals extended by the
    two infinities and NaN, with the comparisons of IEEE 754.

    Scores are C++ [int]s of 32 bits: a number in [Z].  [score++] at
    [INT_MAX] is a signed overflow, which C++ leaves undefined; the model
    wraps to [INT_MIN], as the two's complement machine does. *)

From Stdlib Require Import Reals Lra Lia ZArith Bool List.
From Stdlib Require String.
Import ListNotations String.StringSyntax.
Delimit Scope string_scope with string.

Open Scope R_scope.

(** ** Arithmetic helpers *)

Module FloatOps.

(** Option monad for the partial operations. *)
Definition bind {A B : Type} (m : option A) (k : A -> option B) : option B :=
  match m with
  | Some a => k a
  | None => None
  end.

(** [a / b] on finite floats: undefined on a zero divisor. *)
Definition fdiv (a b : R) : option R :=
  if Req_dec_T b 0 then None else Some (a / b).

(** The C++ comparisons, as booleans. *)
Definition gt (a b : R) : bool := if Rgt_dec a b then true else false.
Definition lt (a b : R) : bool := if Rlt_dec a b then true else false.
Definition ge (a b : R) : bool := if Rge_dec a b then true else false.

(** [c > 0.0 ? 1.0 : -1.0] *)
Definition sign_or_minus (c : R) : R := if gt c 0 then 1 else -1.

End FloatOps.
Import FloatOps.

Notation "x <- m ;; k" := (bind m (fun x => k))
  (at level 61, m at next level, right associativity).
Notation "' pat <- m ;; k" := (bind m (fun x => match x with pat => k end))
  (at level 61, pat pattern, m at next level, right associativity).

(** ** Numbers that need not be real

    A [float] or [double] that an input can set: a real number, an
    infinity or a NaN. *)
Inductive fval :=
| Finite (r : R)
| PlusInfinity
| MinusInfinity
| NaN.

Coercion Finite : R >-> fval.

(** [a > b] and [a < b] with a real [b]: false on a NaN. *)
Definition fgt (a : fval) (b : R) : bool :=
  match a with
  | Finite r => gt r b
  | PlusInfinity => true
  | MinusInfinity => false
  | NaN => false
  end.

Definition flt (a : fval) (b : R) : bool :=
  match a with
  | Finite r => lt r b
  | PlusInfinity => false
  | MinusInfinity => true
  | NaN => false
  end.

(** [a + b] and [a - b] with a real [b]: an infinity and a NaN stay what
    they are. *)
Definition fplus (a : fval) (b : R) : fval :=
  match a with
  | Finite r => Finite (r + b)
  | _ => a
  end.

Definition fminus (a : fval) (b : R) : fval :=
  match a with
  | Finite r => Finite (r - b)
  | _ => a
  end.

(** [y > a] and [y < a] with a real [y]: false on a NaN. *)
Definition rgt (y : R) (a : fval) : bool :=
  match a with
  | Finite r => gt y r
  | PlusInfinity => false
  | MinusInfinity => true
  | NaN => false
  end.

Definition rlt (y : R) (a : fval) : bool :=
  match a with
  | Finite r => lt y r
  | PlusInfinity => true
  | MinusInfinity => false
  | NaN => false
  end.

(** The value as a real number, for the arithmetic on the ball: [None]
    when it is not one. *)
Definition finite (a : fval) : option R :=
  match a with
  | Finite r => Some r
  | _ => None
  end.

(** ** 32-bit [int] *)

Definition INT_MAX : Z := 2147483647%Z.
Definition INT_MIN : Z := (-2147483648)%Z.

(** The [int] that a number is stored as: two's complement wrap-around. *)
Definition wrap_int (z : Z) : Z :=
  ((z + 2147483648) mod 4294967296 - 2147483648)%Z.

Arguments wrap_int : simpl never.

(** ** Constants (pong.cpp, lines 39-43) *)

Definition FIELD_WIDTH : R := 12.
Definition FIELD_HEIGHT : R := 8.
Definition BORDER_SIZE : R := 1 / 2.
Definition PADDLE_SIZE : R := 2.
Definition UPDATE_RATE : R := 1 / 30.

(** The literals of [spinOnce] and [reset]. *)
Definition SPEED_STEP : R := 2 / 10000.            (* 0.0002 *)
Definition ANGLE_LIMIT : R := 707106781 / 1000000000. (* 0.707106781 *)
Definition BASE_SPEED : R := 5 * UPDATE_RATE.

(** ** State *)

(** [struct PlayerContext] (lines 450-456).  [pos] is the one float an
    input writes: it holds what the clamp of [processPaddleFeedback]
    leaves, a number or a NaN. *)
Record PlayerContext := mkPlayer {
  pos : fval;
  active : bool;
  score : Z
}.

(** [PlayerContext()] *)
Definition new_player : PlayerContext := mkPlayer 0 false 0%Z.

(** The fields of [PongGame] that the simulation reads and writes.
    [player_contexts_] is a vector resized to 2 by the constructor and
    never resized again: it is kept as its two elements. *)
Record PongGame := mkGame {
  player0 : PlayerContext;
  player1 : PlayerContext;
  last_ball_pos_x_ : R;
  last_ball_pos_y_ : R;
  ball_pos_x_ : R;
  ball_pos_y_ : R;
  ball_dir_x_ : R;
  ball_dir_y_ : R;
  speed_ : R
}.

(** [player_contexts_[i]] for i in {0,1}. *)
Definition player_contexts_ (g : PongGame) (i : nat) : PlayerContext :=
  match i with
  | O => player0 g
  | _ => player1 g
  end.

Definition set_player (i : nat) (p : PlayerContext) (g : PongGame) : PongGame :=
  match i with
  | O => mkGame p (player1 g) (last_ball_pos_x_ g) (last_ball_pos_y_ g)
           (ball_pos_x_ g) (ball_pos_y_ g) (ball_dir_x_ g) (ball_dir_y_ g) (speed_ g)
  | _ => mkGame (player0 g) p (last_ball_pos_x_ g) (last_ball_pos_y_ g)
           (ball_pos_x_ g) (ball_pos_y_ g) (ball_dir_x_ g) (ball_dir_y_ g) (speed_ g)
  end.

Definition set_ball_pos (x y : R) (g : PongGame) : PongGame :=
  mkGame (player0 g) (player1 g) (last_ball_pos_x_ g) (last_ball_pos_y_ g)
    x y (ball_dir_x_ g) (ball_dir_y_ g) (speed_ g).

Definition set_last_ball_pos (x y : R) (g : PongGame) : PongGame :=
  mkGame (player0 g) (player1 g) x y
    (ball_pos_x_ g) (ball_pos_y_ g) (ball_dir_x_ g) (ball_dir_y_ g) (speed_ g).

Definition set_ball_dir (x y : R) (g : PongGame) : PongGame :=
  mkGame (player0 g) (player1 g) (last_ball_pos_x_ g) (last_ball_pos_y_ g)
    (ball_pos_x_ g) (ball_pos_y_ g) x y (speed_ g).

Definition set_speed (s : R) (g : PongGame) : PongGame :=
  mkGame (player0 g) (player1 g) (last_ball_pos_x_ g) (last_ball_pos_y_ g)
    (ball_pos_x_ g) (ball_pos_y_ g) (ball_dir_x_ g) (ball_dir_y_ g) s.

(** ** reflect (lines 225-238)

    [pos] is passed by reference but never written; [t] is an in/out
    parameter that keeps its value when no limit is surpassed.  The result
    is the returned flag with the value of [t] after the call. *)
Definition reflect (pos last_pos limit t : R) : option (bool * R) :=
  if gt pos limit then
    t' <- fdiv (pos - limit) (pos - last_pos) ;;
    Some (true, t')
  else if gt (- pos) limit then
    t' <- fdiv (- pos - limit) (last_pos - pos) ;;
    Some (true, t')
  else Some (false, t).

(** ** normalizeVel (lines 214-219) *)
Definition normalizeVel (g : PongGame) : option PongGame :=
  let l := sqrt (ball_dir_x_ g * ball_dir_x_ g + ball_dir_y_ g * ball_dir_y_ g) in
  x <- fdiv (ball_dir_x_ g) l ;;
  y <- fdiv (ball_dir_y_ g) l ;;
  Some (set_ball_dir x y g).

(** ** reset (lines 203-211); [r] is the value returned by [rand()]. *)
Definition reset (r : Z) (g : PongGame) : option PongGame :=
  let g := set_speed (5 * UPDATE_RATE) g in
  let g := set_ball_pos 0 0 g in
  let g := set_ball_dir (sign_or_minus (ball_dir_x_ g)) (ball_dir_y_ g) g in
  let g := set_ball_dir (ball_dir_x_ g)
             (if Z.eqb (Z.rem r 2) 0 then -1 else 1) g in
  normalizeVel g.

(** ** processPaddleFeedback (lines 163-200)

    Of the feedback message the function reads [pose.position.y] and
    [event_type].  The [setPose] calls go to the marker server and leave
    the game state alone. *)
Inductive EventType :=
| KEEP_ALIVE | POSE_UPDATE | MENU_SELECT | BUTTON_CLICK | MOUSE_DOWN | MOUSE_UP.

Record Feedback := mkFeedback {
  pose_position_y : fval;
  event_type : EventType
}.

(** lines 175-185: on a NaN both comparisons are false and the NaN goes
    through. *)
Definition clamp_paddle (y : fval) : fval :=
  let y := if fgt y ((FIELD_HEIGHT - PADDLE_SIZE) * 0.5)
           then Finite ((FIELD_HEIGHT - PADDLE_SIZE) * 0.5) else y in
  let y := if flt y ((FIELD_HEIGHT - PADDLE_SIZE) * -0.5)
           then Finite ((FIELD_HEIGHT - PADDLE_SIZE) * -0.5) else y in
  y.

Definition processPaddleFeedback (player : nat) (feedback : Feedback)
  (g : PongGame) : PongGame :=
  if Nat.ltb 1 player then g
  else
    let y := clamp_paddle (pose_position_y feedback) in
    let p := player_contexts_ g player in
    let p := mkPlayer y (active p) (score p) in
    let p := match event_type feedback with
             | MOUSE_DOWN => mkPlayer (pos p) false (score p)
             | _ => p
             end in
    let p := match event_type feedback with
             | MOUSE_UP => mkPlayer (pos p) true (score p)
             | _ => p
             end in
    set_player player p g.

(** ** spinOnce (lines 71-161)

    The locals of the active branch travel in a [Tick]; the function is
    cut at its own comments into the four blocks below.  [Events] records
    which blocks ran and the pose handed to [updateBall]. *)
Record Tick := mkTick {
  game : PongGame;
  ball_dx : R;
  ball_dy : R;
  t : R
}.

Record Events := mkEvents {
  wall_bounce : bool;
  paddle_bounce : bool;
  point : option nat;
  shown : option (R * R)
}.

(** lines 76-80, 83 *)
Definition move_ball (g : PongGame) : Tick :=
  let dx := speed_ g * ball_dir_x_ g in
  let dy := speed_ g * ball_dir_y_ g in
  mkTick (set_ball_pos (ball_pos_x_ g + dx) (ball_pos_y_ g + dy) g) dx dy 0.

(** lines 84-95: bounce off top / bottom *)
Definition bounce_walls (k : Tick) : option (Tick * bool) :=
  let g := game k in
  '(hit, t) <- reflect (ball_pos_y_ g) (last_ball_pos_y_ g) (FIELD_HEIGHT * 0.5) (t k) ;;
  if (hit : bool) then
    let g := set_ball_pos (ball_pos_x_ g - t * ball_dx k)
                          (ball_pos_y_ g - t * ball_dy k) g in
    let g := set_ball_dir (ball_dir_x_ g) (ball_dir_y_ g * -1) g in
    let dx := speed_ g * ball_dir_x_ g in
    let dy := speed_ g * ball_dir_y_ g in
    let g := set_ball_pos (ball_pos_x_ g + t * dx) (ball_pos_y_ g + t * dy) g in
    Some (mkTick g dx dy t, true)
  else Some (mkTick g (ball_dx k) (ball_dy k) t, false).

(** line 97 *)
Definition player_of (g : PongGame) : nat :=
  if gt (ball_pos_x_ g) 0 then 1%nat else 0%nat.

(** line 100-101 *)
Definition crossed_goal_line (g : PongGame) : bool :=
  lt (Rabs (last_ball_pos_x_ g)) (FIELD_WIDTH * 0.5) &&
  ge (Rabs (ball_pos_x_ g)) (FIELD_WIDTH * 0.5).

(** lines 104-105: false when the paddle position is a NaN. *)
Definition paddle_in_place (player : nat) (g : PongGame) : bool :=
  rgt (ball_pos_y_ g)
      (fminus (fminus (pos (player_contexts_ g player)) (PADDLE_SIZE * 0.5))
              (0.5 * BORDER_SIZE)) &&
  rlt (ball_pos_y_ g)
      (fplus (fplus (pos (player_contexts_ g player)) (PADDLE_SIZE * 0.5))
             (0.5 * BORDER_SIZE)).

(** lines 120-125: limit angle to 45 deg *)
Definition limit_angle (g : PongGame) : option PongGame :=
  if gt (Rabs (ball_dir_y_ g)) ANGLE_LIMIT then
    let g := set_ball_dir (sign_or_minus (ball_dir_x_ g)) (ball_dir_y_ g) g in
    let g := set_ball_dir (ball_dir_x_ g) (sign_or_minus (ball_dir_y_ g)) g in
    normalizeVel g
  else Some g.

(** lines 99-132: reflect on paddles.  The paddle position is a number
    where [offset] is computed, since the test of lines 104-105 has
    passed. *)
Definition bounce_paddles (player : nat) (k : Tick) : option (Tick * bool) :=
  let g := game k in
  if crossed_goal_line g then
    if paddle_in_place player g then
      '(_, t) <- reflect (ball_pos_x_ g) (last_ball_pos_x_ g) (FIELD_WIDTH * 0.5) (t k) ;;
      let g := set_ball_pos (ball_pos_x_ g - t * ball_dx k)
                            (ball_pos_y_ g - t * ball_dy k) g in
      paddle <- finite (pos (player_contexts_ g player)) ;;
      let offset := (ball_pos_y_ g - paddle) / PADDLE_SIZE in
      let g := set_ball_dir (ball_dir_x_ g * -1) (ball_dir_y_ g + offset * 2) g in
      g <- normalizeVel g ;;
      g <- limit_angle g ;;
      let dx := speed_ g * ball_dir_x_ g in
      let dy := speed_ g * ball_dir_y_ g in
      let g := set_ball_pos (ball_pos_x_ g + t * dx) (ball_pos_y_ g + t * dy) g in
      Some (mkTick g dx dy t, true)
    else Some (k, false)
  else Some (k, false).

(** [player_contexts_[i].score++] on an [int]. *)
Definition incr_score (i : nat) (g : PongGame) : PongGame :=
  let p := player_contexts_ g i in
  set_player i (mkPlayer (pos p) (active p) (wrap_int (score p + 1))) g.

(** lines 134-152: ball hits the left/right border of the playing field.
    The result is the game, the player whose score went up if one did, and
    the pose given to [updateBall]. *)
Definition score_or_update (r : Z) (player : nat) (k : Tick)
  : option (PongGame * option nat * (R * R)) :=
  let g := game k in
  if ge (Rabs (ball_pos_x_ g)) (FIELD_WIDTH * 0.5 + 1.5 * BORDER_SIZE) then
    '(_, t) <- reflect (ball_pos_x_ g) (last_ball_pos_x_ g)
                 (FIELD_WIDTH * 0.5 + 1.5 * BORDER_SIZE) (t k) ;;
    let g := set_ball_pos (ball_pos_x_ g - t * ball_dx k)
                          (ball_pos_y_ g - t * ball_dy k) g in
    let pose := (ball_pos_x_ g, ball_pos_y_ g) in
    let g := incr_score (1 - player) g in
    g <- reset r g ;;
    Some (g, Some (1 - player)%nat, pose)
  else Some (g, None, (ball_pos_x_ g, ball_pos_y_ g)).

(** The whole tick; [r] is what [rand()] returns if [reset] runs. *)
Definition spinOnce (r : Z) (g : PongGame) : option (PongGame * Events) :=
  if active (player_contexts_ g 0) && active (player_contexts_ g 1) then
    let k := move_ball g in
    '(k, wall) <- bounce_walls k ;;
    let player := player_of (game k) in
    '(k, paddle) <- bounce_paddles player k ;;
    '(g, pt, pose) <- score_or_update r player k ;;
    let g := set_last_ball_pos (ball_pos_x_ g) (ball_pos_y_ g) g in
    let g := set_speed (speed_ g + SPEED_STEP) g in
    Some (g, mkEvents wall paddle pt (Some pose))
  else Some (g, mkEvents false false None None).

(** The constructor (lines 50-62): [ball_dir_x_] is read by [reset] before
    anything was stored in it, so its initial content [junk] is an input;
    the other fields left uninitialised are written by [reset] before they
    are read. *)
Definition PongGame_new (junk : R) (r : Z) : option PongGame :=
  reset r (mkGame new_player new_player 0 0 0 0 junk 0 0).

(** A sequence of calls on one game: timer ticks and paddle callbacks. *)
Inductive Op :=
| Spin (r : Z)
| PaddleFeedback (player : nat) (feedback : Feedback).

Fixpoint run (ops : list Op) (g : PongGame) : option PongGame :=
  match ops with
  | [] => Some g
  | Spin r :: ops => '(g, _) <- spinOnce r g ;; run ops g
  | PaddleFeedback player fb :: ops => run ops (processPaddleFeedback player fb g)
  end.

(** ** Predicates used by the statements *)

(** The direction is a unit vector. *)
Definition unit_dir (g : PongGame) : Prop :=
  ball_dir_x_ g * ball_dir_x_ g + ball_dir_y_ g * ball_dir_y_ g = 1.

(** [last_ball_pos_*] holds the ball position, as it does between two
    ticks (lines 154-155). *)
Definition synced (g : PongGame) : Prop :=
  last_ball_pos_x_ g = ball_pos_x_ g /\ last_ball_pos_y_ g = ball_pos_y_ g.

Definition both_active (g : PongGame) : bool :=
  active (player_contexts_ g 0) && active (player_contexts_ g 1).

Definition scores (g : PongGame) : Z * Z :=
  (score (player0 g), score (player1 g)).

(** The ball as a tuple: positions, direction, speed. *)
Definition ball (g : PongGame) : R * R * R * R * R * R * R :=
  (last_ball_pos_x_ g, last_ball_pos_y_ g, ball_pos_x_ g, ball_pos_y_ g,
   ball_dir_x_ g, ball_dir_y_ g, speed_ g).

(** ** Concrete games used below *)

(** The ball has passed the right paddle and is about to leave the field. *)
Definition game_before_point : PongGame :=
  mkGame (mkPlayer 0 true 0) (mkPlayer 0 true 0) 6.6 3 6.6 3 1 0 0.2.

(** The ball rises straight up, one tick below the top wall. *)
Definition game_below_top_wall : PongGame :=
  mkGame (mkPlayer 0 true 0) (mkPlayer 0 true 0) 0 3.9 0 3.9 0 1 0.4.

(** The ball flies up and to the right and passes the goal line just
    beside the upper end of the right paddle. *)
Definition game_beside_paddle : PongGame :=
  mkGame (mkPlayer 0 true 0) (mkPlayer 0 true 0) 5.9 1.1 5.9 1.1 0.6 0.8 0.5.

(** The ball flies into the upper right corner; the right paddle is at
    the top of its range. *)
Definition game_in_corner : PongGame :=
  mkGame (mkPlayer 0 true 0) (mkPlayer 3 true 0)
    5.8125 3.7 5.8125 3.7 0.6 0.8 0.5.

(** The ball flies level into the middle of the right paddle. *)
Definition game_facing_paddle : PongGame :=
  mkGame (mkPlayer 0 true 0) (mkPlayer 0 true 0) 5.9 0 5.9 0 1 0 0.2.

(** The ball flies level into the right paddle, one unit above its
    middle. *)
Definition game_at_paddle_edge : PongGame :=
  mkGame (mkPlayer 0 true 0) (mkPlayer 0 true 0) 5.9 1 5.9 1 1 0 0.2.

(** The ball rises at 36.9 deg and meets the right paddle 0.9 above its
    middle. *)
Definition game_above_paddle_middle : PongGame :=
  mkGame (mkPlayer 0 true 0) (mkPlayer 0 true 0) 5.8 0.75 5.8 0.75 0.8 0.6 0.5.

(** The ball flies level into the middle of the right paddle, at a speed
    of 32 per tick: more than the width of the field. *)
Definition game_fast_ball : PongGame :=
  mkGame (mkPlayer 0 true 0) (mkPlayer 0 true 0) 5.9 0 5.9 0 1 0 32.

(** [game_before_point] with the left score at [INT_MAX]. *)
Definition game_before_point_at_max : PongGame :=
  mkGame (mkPlayer 0 true INT_MAX) (mkPlayer 0 true 0) 6.6 3 6.6 3 1 0 0.2.

(** ** Counting over a sequence of calls *)

(** The number of timer ticks in a sequence of calls. *)
Fixpoint count_spins (ops : list Op) : nat :=
  match ops with
  | [] => 0%nat
  | Spin _ :: ops => S (count_spins ops)
  | PaddleFeedback _ _ :: ops => count_spins ops
  end.

(** Whether a call is a [MOUSE_UP] callback of the given player. *)
Definition is_release (player : nat) (op : Op) : bool :=
  match op with
  | Spin _ => false
  | PaddleFeedback p fb =>
      Nat.eqb p player &&
      match event_type fb with MOUSE_UP => true | _ => false end
  end.

Definition total_score (g : PongGame) : Z :=
  (score (player0 g) + score (player1 g))%Z.

(** A paddle position that is a number within the range of the paddle. *)
Definition paddle_in_range (p : fval) : Prop :=
  exists y, p = Finite y /\ Rabs y <= (FIELD_HEIGHT - PADDLE_SIZE) * 0.5.

(** A paddle position left by the callback: a number within the range of
    the paddle, or the NaN of a feedback pose. *)
Definition paddle_pos_ok (p : fval) : Prop :=
  p = NaN \/ paddle_in_range p.

(** A score is an [int]. *)
Definition is_int (z : Z) : Prop := (INT_MIN <= z <= INT_MAX)%Z.

(** Whether a call is a paddle callback with a NaN in [pose.position.y]. *)
Definition is_nan_feedback (op : Op) : bool :=
  match op with
  | Spin _ => false
  | PaddleFeedback _ fb =>
      match pose_position_y fb with NaN => true | _ => false end
  end.

(** What holds of a game between two calls. *)
Definition between_calls (g : PongGame) : Prop :=
  synced g /\
  Rabs (ball_pos_x_ g) < FIELD_WIDTH * 0.5 + 1.5 * BORDER_SIZE /\
  5 * UPDATE_RATE <= speed_ g /\
  paddle_pos_ok (pos (player0 g)) /\
  paddle_pos_ok (pos (player1 g)) /\
  is_int (score (player0 g)) /\
  is_int (score (player1 g)).

(** The active flag after an event (lines 189-196). *)
Definition next_active (e : EventType) (a : bool) : bool :=
  match e with
  | MOUSE_DOWN => false
  | MOUSE_UP => true
  | _ => a
  end.

(** Player 0 has released the paddle, player 1 has not yet. *)
Definition game_waiting : PongGame :=
  mkGame (mkPlayer 0 true 0) (mkPlayer 0 false 0) 0 0 0 0 1 0 (5 * UPDATE_RATE).

(** ** Calls on the marker server made by the paddle callback

    [processPaddleFeedback] (lines 163-200) once more, this time for the
    [setPose] calls it makes; the game state it leaves is
    [processPaddleFeedback] above.  The feedback pose is copied, only its
    [position.y] is written; its numbers are doubles. *)
Record Pose := mkPose {
  position_x : fval;
  position_y : fval;
  position_z : fval;
  orientation_x : fval;
  orientation_y : fval;
  orientation_z : fval;
  orientation_w : fval
}.

Definition set_position_y (y : fval) (p : Pose) : Pose :=
  mkPose (position_x p) y (position_z p)
    (orientation_x p) (orientation_y p) (orientation_z p) (orientation_w p).

Inductive ServerCall :=
| SetPose (name : String.string) (pose : Pose).

Definition processPaddleFeedback_calls (player : nat)
  (marker_name : String.string) (feedback_pose : Pose) : list ServerCall :=
  if Nat.ltb 1 player then []
  else
    let control_marker_name := marker_name in
    let pose := feedback_pose in
    let '(pose, calls) :=
      if fgt (position_y pose) ((FIELD_HEIGHT - PADDLE_SIZE) * 0.5)
      then
        let pose := set_position_y (Finite ((FIELD_HEIGHT - PADDLE_SIZE) * 0.5)) pose in
        (pose, [SetPose control_marker_name pose])
      else (pose, []) in
    let '(pose, calls) :=
      if flt (position_y pose) ((FIELD_HEIGHT - PADDLE_SIZE) * -0.5)
      then
        let pose := set_position_y (Finite ((FIELD_HEIGHT - PADDLE_SIZE) * -0.5)) pose in
        (pose, calls ++ [SetPose control_marker_name pose])
      else (pose, calls) in
    calls ++ [SetPose (String.append marker_name "_display"%string) pose].

(** ** The markers the constructor inserts (lines 287-441)

    Of a marker the type, scale, position and colour are kept, of a
    control its flags, orientation and markers, of an interactive marker
    its name, the x of its pose and its controls.  A fresh message has
    every number at 0, and the first enumerator as its type and mode. *)
Inductive MarkerType := ARROW | CUBE | CYLINDER | TEXT_VIEW_FACING.

Inductive InteractionMode := NONE | MOVE_AXIS.

Record Marker := mkMarker {
  marker_type : MarkerType;
  scale_x : R;
  scale_y : R;
  scale_z : R;
  marker_x : R;
  marker_y : R;
  marker_z : R;
  color_r : R;
  color_g : R;
  color_b : R;
  color_a : R
}.

Record Control := mkControl {
  always_visible : bool;
  interaction_mode : InteractionMode;
  control_w : R;
  control_y : R;
  control_z : R;
  markers : list Marker
}.

Record InteractiveMarker := mkInteractiveMarker {
  marker_name : String.string;
  pose_x : R;
  controls : list Control
}.

Definition new_marker : Marker := mkMarker ARROW 0 0 0 0 0 0 0 0 0 0.

Definition set_type (ty : MarkerType) (m : Marker) : Marker :=
  mkMarker ty (scale_x m) (scale_y m) (scale_z m)
    (marker_x m) (marker_y m) (marker_z m)
    (color_r m) (color_g m) (color_b m) (color_a m).

Definition set_scale (x y z : R) (m : Marker) : Marker :=
  mkMarker (marker_type m) x y z (marker_x m) (marker_y m) (marker_z m)
    (color_r m) (color_g m) (color_b m) (color_a m).

Definition set_marker_x (x : R) (m : Marker) : Marker :=
  mkMarker (marker_type m) (scale_x m) (scale_y m) (scale_z m)
    x (marker_y m) (marker_z m)
    (color_r m) (color_g m) (color_b m) (color_a m).

Definition set_marker_y (y : R) (m : Marker) : Marker :=
  mkMarker (marker_type m) (scale_x m) (scale_y m) (scale_z m)
    (marker_x m) y (marker_z m)
    (color_r m) (color_g m) (color_b m) (color_a m).

Definition set_marker_z (z : R) (m : Marker) : Marker :=
  mkMarker (marker_type m) (scale_x m) (scale_y m) (scale_z m)
    (marker_x m) (marker_y m) z
    (color_r m) (color_g m) (color_b m) (color_a m).

Definition set_color (r g b a : R) (m : Marker) : Marker :=
  mkMarker (marker_type m) (scale_x m) (scale_y m) (scale_z m)
    (marker_x m) (marker_y m) (marker_z m) r g b a.

(** makeFieldMarker (lines 287-330) *)
Definition makeFieldMarker : list InteractiveMarker :=
  let marker := new_marker in
  let marker := set_type CUBE marker in
  let marker := set_color 1.0 1.0 1.0 1.0 marker in
  (* Top Border *)
  let marker := set_scale (FIELD_WIDTH + 6.0 * BORDER_SIZE) BORDER_SIZE BORDER_SIZE
                  marker in
  let marker := set_marker_x 0 marker in
  let marker := set_marker_y (FIELD_HEIGHT * 0.5 + BORDER_SIZE) marker in
  let control_markers := [marker] in
  (* Bottom Border *)
  let marker := set_marker_y (marker_y marker * -1) marker in
  let control_markers := control_markers ++ [marker] in
  (* Left Border *)
  let marker := set_scale BORDER_SIZE (FIELD_HEIGHT + 3.0 * BORDER_SIZE) BORDER_SIZE
                  marker in
  let marker := set_marker_x (FIELD_WIDTH * 0.5 + 2.5 * BORDER_SIZE) marker in
  let marker := set_marker_y 0 marker in
  let control_markers := control_markers ++ [marker] in
  (* Right Border *)
  let marker := set_marker_x (marker_x marker * -1) marker in
  let control_markers := control_markers ++ [marker] in
  [mkInteractiveMarker "field"%string 0
     [mkControl true NONE 0 0 0 control_markers]].

(** makePaddleMarkers (lines 332-410): the four interactive markers, in
    the order of the [insert] calls. *)
Definition makePaddleMarkers : list InteractiveMarker :=
  let marker := new_marker in
  let marker := set_type CUBE marker in
  let marker := set_color 1.0 1.0 1.0 0.0 marker in
  let marker := set_scale (BORDER_SIZE + 0.1) (PADDLE_SIZE + 0.1) (BORDER_SIZE + 0.1)
                  marker in
  let marker := set_marker_z 0 marker in
  let marker := set_marker_y 0 marker in
  let control := mkControl false MOVE_AXIS 1 0 1 [marker] in
  let player_x := FIELD_WIDTH * 0.5 + BORDER_SIZE in
  let paddle0 := mkInteractiveMarker "paddle0"%string (- player_x) [control] in
  let paddle1 := mkInteractiveMarker "paddle1"%string player_x [control] in
  (* Make display markers *)
  let marker := set_scale BORDER_SIZE PADDLE_SIZE BORDER_SIZE marker in
  let marker := set_color 0.5 (color_g marker) (color_b marker) 1.0 marker in
  let marker := set_color (color_r marker) 1.0 0.5 (color_a marker) marker in
  let paddle0_display :=
    mkInteractiveMarker "paddle0_display"%string (- player_x)
      [mkControl true NONE 1 0 1 [marker]] in
  let marker := set_color (color_r marker) 0.5 1.0 (color_a marker) marker in
  let paddle1_display :=
    mkInteractiveMarker "paddle1_display"%string player_x
      [mkControl true NONE 1 0 1 [marker]] in
  [paddle0; paddle1; paddle0_display; paddle1_display].

(** makeBallMarker (lines 412-441) *)
Definition makeBallMarker : list InteractiveMarker :=
  let marker := new_marker in
  let marker := set_color 1.0 1.0 1.0 1.0 marker in
  let marker := set_type CYLINDER marker in
  let marker := set_scale BORDER_SIZE BORDER_SIZE BORDER_SIZE marker in
  [mkInteractiveMarker "ball"%string 0 [mkControl true NONE 1 1 0 [marker]]].

(** The markers of the named interactive marker, among those inserted. *)
Fixpoint find_marker (name : String.string) (ms : list InteractiveMarker)
  : option InteractiveMarker :=
  match ms with
  | [] => None
  | m :: ms => if String.eqb (marker_name m) name then Some m
               else find_marker name ms
  end.

Definition drawn (name : String.string) (ms : list InteractiveMarker)
  : list (R * Marker) :=
  match find_marker name ms with
  | Some m => map (fun k => (pose_x m, k)) (concat (map markers (controls m)))
  | None => []
  end.

(** The limits of the paddle position (lines 176-185). *)
Definition PADDLE_LIMIT : R := (FIELD_HEIGHT - PADDLE_SIZE) * 0.5.

(** The outer border of line 135. *)
Definition OUTER_LIMIT : R := FIELD_WIDTH * 0.5 + 1.5 * BORDER_SIZE.

(** ** Basic facts on the helpers *)

Lemma gt_true a b : a > b -> gt a b = true.
Proof. unfold gt. destruct (Rgt_dec a b); intuition. Qed.

Lemma gt_false a b : a <= b -> gt a b = false.
Proof. unfold gt. destruct (Rgt_dec a b); [lra | reflexivity]. Qed.

Lemma lt_true a b : a < b -> lt a b = true.
Proof. unfold lt. destruct (Rlt_dec a b); intuition. Qed.

Lemma lt_false a b : b <= a -> lt a b = false.
Proof. unfold lt. destruct (Rlt_dec a b); [lra | reflexivity]. Qed.

Lemma ge_true a b : a >= b -> ge a b = true.
Proof. unfold ge. destruct (Rge_dec a b); intuition. Qed.

Lemma ge_false a b : a < b -> ge a b = false.
Proof. unfold ge. destruct (Rge_dec a b); [lra | reflexivity]. Qed.

Lemma gt_iff a b : gt a b = true <-> a > b.
Proof. unfold gt. destruct (Rgt_dec a b); split; intros; try discriminate; tauto. Qed.

Lemma lt_iff a b : lt a b = true <-> a < b.
Proof. unfold lt. destruct (Rlt_dec a b); split; intros; try discriminate; tauto. Qed.

Lemma ge_iff a b : ge a b = true <-> a >= b.
Proof. unfold ge. destruct (Rge_dec a b); split; intros; try discriminate; tauto. Qed.

Lemma fdiv_some a b : b <> 0 -> fdiv a b = Some (a / b).
Proof. unfold fdiv. destruct (Req_dec_T b 0); [contradiction | reflexivity]. Qed.

Lemma fdiv_none a b : b = 0 -> fdiv a b = None.
Proof. unfold fdiv. destruct (Req_dec_T b 0); [reflexivity | contradiction]. Qed.

Lemma fdiv_inv a b q : fdiv a b = Some q -> b <> 0 /\ q = a / b.
Proof.
  unfold fdiv. destruct (Req_dec_T b 0); [discriminate |].
  intros H. injection H as <-. auto.
Qed.

Lemma div_eq a b c : b <> 0 -> a = c * b -> a / b = c.
Proof. intros Hb ->. field. exact Hb. Qed.

Lemma div_mul_cancel a b : b <> 0 -> a / b * b = a.
Proof. intros Hb. field. exact Hb. Qed.

Lemma bind_inv {A B} (m : option A) (k : A -> option B) (b : B) :
  bind m k = Some b -> exists a, m = Some a /\ k a = Some b.
Proof. destruct m as [a|]; simpl; [eauto | discriminate]. Qed.

(** Peel one [bind] off a hypothesis [H : bind m k = Some _]. *)
Ltac unbind H x Hx :=
  apply bind_inv in H; destruct H as (x & Hx & H).

(** *** reflect *)

Lemma reflect_inv pos last_pos limit t0 hit t1 :
  reflect pos last_pos limit t0 = Some (hit, t1) ->
  (pos > limit /\ hit = true /\ pos - last_pos <> 0 /\
   t1 = (pos - limit) / (pos - last_pos)) \/
  (pos <= limit /\ - pos > limit /\ hit = true /\ last_pos - pos <> 0 /\
   t1 = (- pos - limit) / (last_pos - pos)) \/
  (pos <= limit /\ - pos <= limit /\ hit = false /\ t1 = t0).
Proof.
  unfold reflect, gt.
  destruct (Rgt_dec pos limit) as [Hp|Hp].
  - intros H. unbind H q Hq. injection H as <- <-.
    apply fdiv_inv in Hq. left. tauto.
  - destruct (Rgt_dec (- pos) limit) as [Hn|Hn].
    + intros H. unbind H q Hq. injection H as <- <-.
      apply fdiv_inv in Hq. right; left. repeat split; try tauto; lra.
    + intros H. injection H as <- <-. right; right. repeat split; lra.
Qed.

(** *** normalizeVel *)

Lemma normalizeVel_inv g g' :
  normalizeVel g = Some g' ->
  let l := sqrt (ball_dir_x_ g * ball_dir_x_ g + ball_dir_y_ g * ball_dir_y_ g) in
  0 < l /\ g' = set_ball_dir (ball_dir_x_ g / l) (ball_dir_y_ g / l) g.
Proof.
  intros H l. unfold normalizeVel in H. fold l in H.
  unbind H x Hx. unbind H y Hy. injection H as <-.
  apply fdiv_inv in Hx as [Hl ->]. apply fdiv_inv in Hy as [_ ->].
  split; [| reflexivity].
  pose proof (sqrt_pos (ball_dir_x_ g * ball_dir_x_ g + ball_dir_y_ g * ball_dir_y_ g)).
  fold l in H. lra.
Qed.

Lemma normalizeVel_unit g g' : normalizeVel g = Some g' -> unit_dir g'.
Proof.
  intros H. apply normalizeVel_inv in H. cbv zeta in H. destruct H as [Hl ->].
  unfold unit_dir. cbn [set_ball_dir ball_dir_x_ ball_dir_y_].
  set (x := ball_dir_x_ g) in *. set (y := ball_dir_y_ g) in *.
  assert (Hs : sqrt (x * x + y * y) * sqrt (x * x + y * y) = x * x + y * y).
  { apply sqrt_sqrt. nra. }
  set (l := sqrt (x * x + y * y)) in *.
  field_simplify_eq; [nra | lra].
Qed.

Lemma normalizeVel_defined g :
  ball_dir_x_ g <> 0 \/ ball_dir_y_ g <> 0 ->
  exists g', normalizeVel g = Some g'.
Proof.
  intros H. unfold normalizeVel.
  set (x := ball_dir_x_ g) in *. set (y := ball_dir_y_ g) in *.
  assert (Hl : sqrt (x * x + y * y) <> 0).
  { assert (0 < sqrt (x * x + y * y)); [| lra].
    apply sqrt_lt_R0. destruct H; nra. }
  rewrite !fdiv_some by exact Hl. simpl. eauto.
Qed.

(** *** The 45 degree direction *)

Lemma sqrt2_pos : 0 < sqrt 2.
Proof. apply sqrt_lt_R0. lra. Qed.

Lemma sqrt2_sqr : sqrt 2 * sqrt 2 = 2.
Proof. apply sqrt_sqrt. lra. Qed.

Lemma inv_sqrt2 : 1 / sqrt 2 = sqrt 2 / 2.
Proof.
  pose proof sqrt2_pos. pose proof sqrt2_sqr.
  field_simplify_eq; lra.
Qed.

Lemma sin45 : sin (PI / 4) = sqrt 2 / 2.
Proof. rewrite sin_PI4. apply inv_sqrt2. Qed.

(** The literal 0.707106781 lies below sin 45 deg. *)
Lemma angle_limit_below : ANGLE_LIMIT < sqrt 2 / 2.
Proof.
  unfold ANGLE_LIMIT. pose proof sqrt2_pos. pose proof sqrt2_sqr. nra.
Qed.

Lemma sign_or_minus_cases c :
  (c > 0 /\ sign_or_minus c = 1) \/ (c <= 0 /\ sign_or_minus c = -1).
Proof.
  unfold sign_or_minus, gt. destruct (Rgt_dec c 0); [left | right]; split; lra.
Qed.

Lemma sqrt_signs a b :
  a = 1 \/ a = -1 -> b = 1 \/ b = -1 -> sqrt (a * a + b * b) = sqrt 2.
Proof. intros [-> | ->] [-> | ->]; f_equal; lra. Qed.

Lemma Rabs_sign_sqrt2 a : a = 1 \/ a = -1 -> Rabs (a / sqrt 2) = sqrt 2 / 2.
Proof.
  pose proof sqrt2_pos. pose proof inv_sqrt2 as E.
  intros [-> | ->].
  - rewrite Rabs_pos_eq; [exact E |]. rewrite E. lra.
  - rewrite Rabs_left.
    + replace (- (-1 / sqrt 2)) with (1 / sqrt 2) by (field; lra). exact E.
    + replace (-1 / sqrt 2) with (- (1 / sqrt 2)) by (field; lra). rewrite E. lra.
Qed.

(** Normalising a vector of two signs gives the signs over [sqrt 2]. *)
Lemma normalizeVel_signs g :
  ball_dir_x_ g = 1 \/ ball_dir_x_ g = -1 ->
  ball_dir_y_ g = 1 \/ ball_dir_y_ g = -1 ->
  normalizeVel g =
  Some (set_ball_dir (ball_dir_x_ g / sqrt 2) (ball_dir_y_ g / sqrt 2) g).
Proof.
  intros Hx Hy. unfold normalizeVel.
  rewrite (sqrt_signs _ _ Hx Hy).
  rewrite !fdiv_some by apply sqrt2_neq_0. reflexivity.
Qed.

(** *** reset *)

Lemma reset_eq r g :
  reset r g =
  Some (mkGame (player0 g) (player1 g) (last_ball_pos_x_ g) (last_ball_pos_y_ g)
          0 0
          (sign_or_minus (ball_dir_x_ g) / sqrt 2)
          ((if Z.eqb (Z.rem r 2) 0 then -1 else 1) / sqrt 2)
          (5 * UPDATE_RATE)).
Proof.
  unfold reset. cbv zeta. rewrite normalizeVel_signs.
  - reflexivity.
  - cbn. destruct (sign_or_minus_cases (ball_dir_x_ g)) as [[_ ->] | [_ ->]]; auto.
  - cbn. destruct (Z.rem r 2 =? 0)%Z; auto.
Qed.

Lemma reset_unit r g g' : reset r g = Some g' -> unit_dir g'.
Proof.
  unfold reset. cbv zeta. apply normalizeVel_unit.
Qed.

(** * The claims *)

(** ** C4: reflect on a zero displacement *)

(** C4, as the spec has it, fails: with the ball at 5, the previous
    position at 5 too and the limit at 4, [reflect] takes the branch
    [pos > limit] and divides by [pos - last_pos = 0]; it does not answer
    "no boundary crossed". *)
Lemma reflect_zero_displacement_divides :
  reflect 5 5 4 0 = None /\ reflect 5 5 4 0 <> Some (false, 0).
Proof.
  assert (E : reflect 5 5 4 0 = None).
  { unfold reflect. rewrite gt_true by lra. rewrite fdiv_none by lra. reflexivity. }
  split; [exact E | rewrite E; discriminate].
Qed.

(** C4 (amended): when the position equals the previous position,
    [reflect] reports "no boundary crossed" and leaves [t] alone exactly
    when the position is within the limits ([pos <= limit] and
    [-pos <= limit]), and no division happens then; when the position is
    beyond a limit the code has no guard and divides by the zero
    displacement. *)
Theorem reflect_zero_displacement (pos limit t0 : R) :
  (reflect pos pos limit t0 = Some (false, t0) <-> pos <= limit /\ - pos <= limit) /\
  (reflect pos pos limit t0 = None <-> pos > limit \/ - pos > limit).
Proof.
  unfold reflect, gt.
  destruct (Rgt_dec pos limit) as [Hp|Hp].
  - rewrite fdiv_none by lra. simpl. split; split; intros; try discriminate; try lra; auto.
  - destruct (Rgt_dec (- pos) limit) as [Hn|Hn].
    + rewrite fdiv_none by lra. simpl.
      split; split; intros; try discriminate; try lra; auto.
    + split; split; intros; try discriminate; try lra; auto.
Qed.

(** ** C9: the paddle stays within its range *)

Lemma clamp_paddle_cases y :
  (y = NaN /\ clamp_paddle y = NaN) \/
  (fgt y PADDLE_LIMIT = true /\ clamp_paddle y = Finite PADDLE_LIMIT) \/
  (flt y (- PADDLE_LIMIT) = true /\ clamp_paddle y = Finite (- PADDLE_LIMIT)) \/
  (exists r, y = Finite r /\ - PADDLE_LIMIT <= r <= PADDLE_LIMIT /\
             clamp_paddle y = Finite r).
Proof.
  unfold clamp_paddle, PADDLE_LIMIT, FIELD_HEIGHT, PADDLE_SIZE. cbv zeta.
  destruct y as [r | | |]; cbn [fgt flt].
  - unfold gt, lt. destruct (Rgt_dec r ((8 - 2) * 0.5)) as [H|H].
    + right; left. cbn [flt]. unfold lt.
      destruct (Rlt_dec ((8 - 2) * 0.5) ((8 - 2) * -0.5)); [lra | auto].
    + cbn [flt]. unfold lt. destruct (Rlt_dec r ((8 - 2) * -0.5)) as [K|K].
      * right; right; left. split; [| f_equal; lra].
        destruct (Rlt_dec r (- ((8 - 2) * 0.5))); [reflexivity | lra].
      * right; right; right. exists r. repeat split; lra.
  - right; left. unfold lt.
    destruct (Rlt_dec ((8 - 2) * 0.5) ((8 - 2) * -0.5)); [lra | auto].
  - right; right; left. split; [reflexivity | f_equal; lra].
  - left. auto.
Qed.

Lemma clamp_paddle_fixed r :
  - PADDLE_LIMIT <= r <= PADDLE_LIMIT -> clamp_paddle (Finite r) = Finite r.
Proof.
  unfold clamp_paddle, PADDLE_LIMIT, FIELD_HEIGHT, PADDLE_SIZE. cbv zeta.
  intros H. cbn [fgt]. rewrite gt_false by lra.
  cbn [flt]. rewrite lt_false by lra. reflexivity.
Qed.

Lemma clamp_paddle_range y :
  y <> NaN ->
  exists p, clamp_paddle y = Finite p /\
    - ((FIELD_HEIGHT - PADDLE_SIZE) / 2) <= p <= (FIELD_HEIGHT - PADDLE_SIZE) / 2.
Proof.
  intros Hy.
  destruct (clamp_paddle_cases y) as [(E & _) | [(_ & E) | [(_ & E) | (r & _ & Hr & E)]]];
    [contradiction | | |]; rewrite E; eexists; (split; [reflexivity |]);
    unfold PADDLE_LIMIT, FIELD_HEIGHT, PADDLE_SIZE in *; lra.
Qed.

Lemma clamp_paddle_nan y : clamp_paddle y = NaN <-> y = NaN.
Proof.
  split; [| intros ->; reflexivity].
  destruct (clamp_paddle_cases y) as [(E & _) | [(_ & E) | [(_ & E) | (r & _ & _ & E)]]];
    [auto | | |]; rewrite E; discriminate.
Qed.

(** The paddle position a callback of a side in {0,1} leaves. *)
Lemma processPaddleFeedback_pos side fb g :
  (side <= 1)%nat ->
  pos (player_contexts_ (processPaddleFeedback side fb g) side)
    = clamp_paddle (pose_position_y fb).
Proof.
  intros Hs. assert (Hside : side = 0%nat \/ side = 1%nat) by lia.
  unfold processPaddleFeedback.
  destruct Hside as [-> | ->]; cbn [Nat.ltb Nat.leb];
    destruct (event_type fb); reflexivity.
Qed.

(** C9, as the spec has it, fails: [pose.position.y] is a double, and on a
    NaN both comparisons of the clamp are false, so the NaN is stored as
    the paddle position, which is then no number of the range. *)
Lemma processPaddleFeedback_stores_nan :
  let g := mkGame new_player new_player 0 0 0 0 1 0 BASE_SPEED in
  let g' := processPaddleFeedback 1 (mkFeedback NaN POSE_UPDATE) g in
  pos (player_contexts_ g' 1) = NaN /\
  ~ (exists p, pos (player_contexts_ g' 1) = Finite p /\
       - ((FIELD_HEIGHT - PADDLE_SIZE) / 2) <= p <= (FIELD_HEIGHT - PADDLE_SIZE) / 2).
Proof.
  cbv zeta. split; [reflexivity |]. intros (p & E & _). discriminate E.
Qed.

(** C9 (amended): for a side in {0,1} and any y that is not a NaN (a
    number however far outside the field, or an infinity), after
    [processPaddleFeedback] the paddle position of that side is a number
    in [-(H-PADDLE)/2, (H-PADDLE)/2]; a NaN is stored as it is; and for
    every y neither the ball nor the scores have changed. *)
Theorem processPaddleFeedback_clamps (side : nat) (y : fval) (e : EventType) (g : PongGame) :
  (side <= 1)%nat ->
  let g' := processPaddleFeedback side (mkFeedback y e) g in
  (y <> NaN ->
   exists p, pos (player_contexts_ g' side) = Finite p /\
     - ((FIELD_HEIGHT - PADDLE_SIZE) / 2) <= p <= (FIELD_HEIGHT - PADDLE_SIZE) / 2) /\
  (y = NaN -> pos (player_contexts_ g' side) = NaN) /\
  ball g' = ball g /\
  scores g' = scores g.
Proof.
  intros Hs g'. subst g'. rewrite (processPaddleFeedback_pos _ _ _ Hs).
  cbn [pose_position_y].
  split; [exact (clamp_paddle_range y) |].
  split; [intros ->; reflexivity |].
  assert (Hside : side = 0%nat \/ side = 1%nat) by lia.
  unfold processPaddleFeedback.
  destruct Hside as [-> | ->]; cbn [Nat.ltb Nat.leb pose_position_y event_type];
    destruct e; cbn; auto.
Qed.

(** C9 (amended), on a number far outside the field and on an infinity. *)
Lemma processPaddleFeedback_clamps_far :
  let g := mkGame new_player new_player 0 0 0 0 1 0 BASE_SPEED in
  (exists p,
     pos (player_contexts_
            (processPaddleFeedback 1 (mkFeedback (Finite 1000000) POSE_UPDATE) g) 1)
       = Finite p /\
     - ((FIELD_HEIGHT - PADDLE_SIZE) / 2) <= p <= (FIELD_HEIGHT - PADDLE_SIZE) / 2) /\
  (exists p,
     pos (player_contexts_
            (processPaddleFeedback 0 (mkFeedback MinusInfinity MOUSE_UP) g) 0)
       = Finite p /\
     - ((FIELD_HEIGHT - PADDLE_SIZE) / 2) <= p <= (FIELD_HEIGHT - PADDLE_SIZE) / 2).
Proof.
  cbv zeta. split.
  - apply (processPaddleFeedback_clamps 1 (Finite 1000000) POSE_UPDATE); [lia |].
    discriminate.
  - apply (processPaddleFeedback_clamps 0 MinusInfinity MOUSE_UP); [lia |].
    discriminate.
Defined.

(** ** C10: the serve *)

(** C10: [reset] always returns; afterwards both direction components
    have magnitude [sqrt 2 / 2], and [direction.x] is positive exactly
    when it was positive before (negative otherwise). *)
Theorem reset_serves_at_45_degrees (r : Z) (g : PongGame) :
  exists g', reset r g = Some g' /\
    Rabs (ball_dir_x_ g') = sqrt 2 / 2 /\
    Rabs (ball_dir_y_ g') = sqrt 2 / 2 /\
    (0 < ball_dir_x_ g' <-> 0 < ball_dir_x_ g) /\
    (ball_dir_x_ g' < 0 <-> ball_dir_x_ g <= 0).
Proof.
  eexists. split; [apply reset_eq |]. cbn [ball_dir_x_ ball_dir_y_].
  pose proof sqrt2_pos as Hp. pose proof inv_sqrt2 as E.
  split; [| split].
  - apply Rabs_sign_sqrt2.
    destruct (sign_or_minus_cases (ball_dir_x_ g)) as [[_ ->] | [_ ->]]; auto.
  - apply Rabs_sign_sqrt2. destruct (Z.rem r 2 =? 0)%Z; auto.
  - destruct (sign_or_minus_cases (ball_dir_x_ g)) as [[Hc ->] | [Hc ->]].
    + rewrite E. split; split; intros; lra.
    + replace (-1 / sqrt 2) with (- (1 / sqrt 2)) by (field; lra). rewrite E.
      split; split; intros; lra.
Qed.

(** ** Evaluating the model on concrete games *)

(** Unfold the embedding down to comparisons and divisions. *)
Ltac expose :=
  cbv beta iota zeta delta
    [spinOnce move_ball bounce_walls bounce_paddles score_or_update
     crossed_goal_line paddle_in_place player_of incr_score both_active
     reflect bind player_contexts_ set_player set_ball_pos set_last_ball_pos
     set_ball_dir set_speed player0 player1 last_ball_pos_x_ last_ball_pos_y_
     ball_pos_x_ ball_pos_y_ ball_dir_x_ ball_dir_y_ speed_ pos active score
     game ball_dx ball_dy t andb Nat.sub
     fgt flt fplus fminus rgt rlt finite
     FIELD_WIDTH FIELD_HEIGHT BORDER_SIZE PADDLE_SIZE].

(** Settle the comparisons and divisions that linear arithmetic decides. *)
Ltac settle :=
  match goal with
  | |- context [Rabs ?a] =>
      first [ rewrite (Rabs_pos_eq a) by lra | rewrite (Rabs_left a) by lra ]
  | |- context [gt ?a ?b] =>
      first [ rewrite (gt_true a b) by lra | rewrite (gt_false a b) by lra ]
  | |- context [lt ?a ?b] =>
      first [ rewrite (lt_true a b) by lra | rewrite (lt_false a b) by lra ]
  | |- context [ge ?a ?b] =>
      first [ rewrite (ge_true a b) by lra | rewrite (ge_false a b) by lra ]
  | |- context [fdiv ?a ?b] => rewrite (fdiv_some a b) by lra
  end.

Ltac evaluate := expose; repeat (settle; expose).

(** ** The blocks of spinOnce, inverted *)

Lemma spinOnce_inactive r g :
  both_active g = false ->
  spinOnce r g = Some (g, mkEvents false false None None).
Proof. unfold spinOnce, both_active. intros ->. reflexivity. Qed.

Lemma spinOnce_inv r g g' ev :
  spinOnce r g = Some (g', ev) ->
  both_active g = true ->
  exists k1 w k2 p g2 pt pose,
    bounce_walls (move_ball g) = Some (k1, w) /\
    bounce_paddles (player_of (game k1)) k1 = Some (k2, p) /\
    score_or_update r (player_of (game k1)) k2 = Some (g2, pt, pose) /\
    g' = set_speed (speed_ g2 + SPEED_STEP)
           (set_last_ball_pos (ball_pos_x_ g2) (ball_pos_y_ g2) g2) /\
    ev = mkEvents w p pt (Some pose).
Proof.
  unfold spinOnce, both_active. intros H Ha. rewrite Ha in H.
  unbind H a1 H1. destruct a1 as [k1 w].
  unbind H a2 H2. destruct a2 as [k2 p].
  unbind H a3 H3. destruct a3 as [[g2 pt] pose].
  injection H as <- <-.
  exists k1, w, k2, p, g2, pt, pose. auto.
Qed.

(** The wall block: either no wall was passed and nothing but [t] is
    touched, or the ball is moved back by [t1] displacements, turned, and
    moved forward by [t1] displacements. *)
Lemma bounce_walls_inv k k' w :
  bounce_walls k = Some (k', w) ->
  let g := game k in
  exists t1,
    reflect (ball_pos_y_ g) (last_ball_pos_y_ g) (FIELD_HEIGHT * 0.5) (t k)
      = Some (w, t1) /\
    k' = if w
         then mkTick
                (mkGame (player0 g) (player1 g)
                   (last_ball_pos_x_ g) (last_ball_pos_y_ g)
                   (ball_pos_x_ g - t1 * ball_dx k + t1 * (speed_ g * ball_dir_x_ g))
                   (ball_pos_y_ g - t1 * ball_dy k
                      + t1 * (speed_ g * (ball_dir_y_ g * -1)))
                   (ball_dir_x_ g) (ball_dir_y_ g * -1) (speed_ g))
                (speed_ g * ball_dir_x_ g) (speed_ g * (ball_dir_y_ g * -1)) t1
         else mkTick g (ball_dx k) (ball_dy k) t1.
Proof.
  unfold bounce_walls. cbv zeta. intros H.
  unbind H a Ha. destruct a as [hit t1]. exists t1.
  destruct hit; injection H as <- <-; split; auto.
Qed.

(** The test of lines 104-105. *)
Lemma paddle_in_place_iff player g :
  paddle_in_place player g = true <->
  exists paddle, pos (player_contexts_ g player) = Finite paddle /\
    paddle - PADDLE_SIZE * 0.5 - 0.5 * BORDER_SIZE < ball_pos_y_ g
      < paddle + PADDLE_SIZE * 0.5 + 0.5 * BORDER_SIZE.
Proof.
  unfold paddle_in_place.
  destruct (pos (player_contexts_ g player)) as [q | | |]; cbn [fminus fplus rgt rlt].
  - rewrite andb_true_iff, gt_iff, lt_iff. split.
    + intros [H1 H2]. exists q. split; [reflexivity | lra].
    + intros (paddle & E & H). injection E as ->. lra.
  - split; [discriminate | intros (paddle & E & _); discriminate].
  - split; [rewrite andb_false_r; discriminate | intros (paddle & E & _); discriminate].
  - split; [discriminate | intros (paddle & E & _); discriminate].
Qed.

(** The paddle block. *)
Lemma bounce_paddles_inv player k k' p :
  bounce_paddles player k = Some (k', p) ->
  let g := game k in
  (p = false /\ k' = k /\
   (crossed_goal_line g = false \/ paddle_in_place player g = false)) \/
  (p = true /\ crossed_goal_line g = true /\ paddle_in_place player g = true /\
   exists paddle, pos (player_contexts_ g player) = Finite paddle /\
   exists hit t1 g1 g2,
     reflect (ball_pos_x_ g) (last_ball_pos_x_ g) (FIELD_WIDTH * 0.5) (t k)
       = Some (hit, t1) /\
     normalizeVel
       (set_ball_dir (ball_dir_x_ g * -1)
          (ball_dir_y_ g
           + (ball_pos_y_ g - t1 * ball_dy k - paddle)
             / PADDLE_SIZE * 2)
          (set_ball_pos (ball_pos_x_ g - t1 * ball_dx k)
             (ball_pos_y_ g - t1 * ball_dy k) g)) = Some g1 /\
     limit_angle g1 = Some g2 /\
     k' = mkTick
            (set_ball_pos (ball_pos_x_ g2 + t1 * (speed_ g2 * ball_dir_x_ g2))
               (ball_pos_y_ g2 + t1 * (speed_ g2 * ball_dir_y_ g2)) g2)
            (speed_ g2 * ball_dir_x_ g2) (speed_ g2 * ball_dir_y_ g2) t1).
Proof.
  unfold bounce_paddles. cbv zeta. intros H.
  destruct (crossed_goal_line (game k)) eqn:Hc.
  - destruct (paddle_in_place player (game k)) eqn:Hp.
    + right. unbind H a Ha. destruct a as [hit t1].
      unbind H paddle Hpd. unbind H g1 Hg1. unbind H g2 Hg2. injection H as <- <-.
      repeat split; auto. exists paddle.
      split.
      { destruct player; cbn in Hpd |- *;
          match type of Hpd with finite ?a = _ => destruct a end;
          try discriminate; injection Hpd as ->; reflexivity. }
      exists hit, t1, g1, g2.
      repeat split; auto.
    + left. injection H as <- <-. auto.
  - left. injection H as <- <-. auto.
Qed.

(** The scoring block. *)
Lemma score_or_update_inv r player k g2 pt pose :
  score_or_update r player k = Some (g2, pt, pose) ->
  let g := game k in
  let limit := FIELD_WIDTH * 0.5 + 1.5 * BORDER_SIZE in
  (Rabs (ball_pos_x_ g) < limit /\ pt = None /\ g2 = g /\
   pose = (ball_pos_x_ g, ball_pos_y_ g)) \/
  (Rabs (ball_pos_x_ g) >= limit /\ pt = Some (1 - player)%nat /\
   exists hit t1,
     reflect (ball_pos_x_ g) (last_ball_pos_x_ g) limit (t k) = Some (hit, t1) /\
     pose = (ball_pos_x_ g - t1 * ball_dx k, ball_pos_y_ g - t1 * ball_dy k) /\
     reset r (incr_score (1 - player)
                (set_ball_pos (ball_pos_x_ g - t1 * ball_dx k)
                   (ball_pos_y_ g - t1 * ball_dy k) g)) = Some g2).
Proof.
  unfold score_or_update. cbv zeta. intros H.
  unfold ge in H. destruct (Rge_dec _ _) as [Hx|Hx].
  - right. unbind H a Ha. destruct a as [hit t1].
    unbind H g3 Hg3. injection H as <- <- <-.
    repeat split; auto. exists hit, t1. auto.
  - left. injection H as <- <- <-. repeat split; auto. lra.
Qed.

Lemma limit_angle_inv g g' :
  limit_angle g = Some g' ->
  (Rabs (ball_dir_y_ g) <= ANGLE_LIMIT /\ g' = g) \/
  (Rabs (ball_dir_y_ g) > ANGLE_LIMIT /\
   g' = set_ball_dir (sign_or_minus (ball_dir_x_ g) / sqrt 2)
          (sign_or_minus (ball_dir_y_ g) / sqrt 2) g).
Proof.
  unfold limit_angle, gt. destruct (Rgt_dec _ _) as [Hy|Hy]; cbv zeta.
  - rewrite normalizeVel_signs.
    + intros H. injection H as <-. right. auto.
    + cbn. destruct (sign_or_minus_cases (ball_dir_x_ g)) as [[_ ->] | [_ ->]]; auto.
    + cbn. destruct (sign_or_minus_cases (ball_dir_y_ g)) as [[_ ->] | [_ ->]]; auto.
  - intros H. injection H as <-. left. split; [lra | reflexivity].
Qed.

(** ** C3: the state after a point *)

Lemma spinOnce_point_inv r g g' ev p :
  spinOnce r g = Some (g', ev) ->
  point ev = Some p ->
  exists k1 w k2 b h,
    both_active g = true /\
    bounce_walls (move_ball g) = Some (k1, w) /\
    bounce_paddles (player_of (game k1)) k1 = Some (k2, b) /\
    Rabs (ball_pos_x_ (game k2)) >= FIELD_WIDTH * 0.5 + 1.5 * BORDER_SIZE /\
    p = (1 - player_of (game k1))%nat /\
    player0 h = player0 (incr_score p (game k2)) /\
    player1 h = player1 (incr_score p (game k2)) /\
    reset r h = Some
      (mkGame (player0 h) (player1 h) (last_ball_pos_x_ h) (last_ball_pos_y_ h)
         0 0 (sign_or_minus (ball_dir_x_ h) / sqrt 2)
         ((if Z.eqb (Z.rem r 2) 0 then -1 else 1) / sqrt 2) (5 * UPDATE_RATE)) /\
    g' = mkGame (player0 h) (player1 h) 0 0 0 0
           (sign_or_minus (ball_dir_x_ h) / sqrt 2)
           ((if Z.eqb (Z.rem r 2) 0 then -1 else 1) / sqrt 2)
           (5 * UPDATE_RATE + SPEED_STEP).
Proof.
  intros H Hp.
  destruct (both_active g) eqn:Ha.
  2:{ rewrite (spinOnce_inactive _ _ Ha) in H. injection H as <- <-. discriminate. }
  apply spinOnce_inv in H; [| exact Ha].
  destruct H as (k1 & w & k2 & b & g2 & pt & pose & Hw & Hb & Hs & -> & ->).
  cbn in Hp. subst pt.
  apply score_or_update_inv in Hs. cbv zeta in Hs.
  destruct Hs as [(_ & Hn & _) | (Hx & Hpt & hit & t1 & Hr & -> & Hreset)];
    [discriminate |].
  remember (1 - player_of (game k1))%nat as q eqn:Hq.
  injection Hpt as ->.
  set (h := incr_score _ _) in Hreset.
  rewrite reset_eq in Hreset. injection Hreset as <-.
  exists k1, w, k2, b, h. repeat split; auto;
    try apply reset_eq;
    unfold h, incr_score; destruct q; reflexivity.
Qed.

Lemma spinOnce_game_before_point :
  exists g' ev,
    spinOnce 1 game_before_point = Some (g', ev) /\
    point ev = Some 0%nat /\
    ball_pos_x_ g' = 0 /\ ball_pos_y_ g' = 0 /\
    speed_ g' = BASE_SPEED + SPEED_STEP.
Proof.
  unfold game_before_point. evaluate. rewrite reset_eq. expose.
  eexists. eexists. split; [reflexivity |].
  cbn. unfold BASE_SPEED. repeat split; lra.
Qed.

(** C3, as the spec has it, fails on the speed: after the tick in which
    the right player misses, the ball is at the center, but the speed is
    the serve value plus the increment that ends every active tick
    (line 157), not the serve value. *)
Lemma speed_after_point_is_not_base :
  exists g' ev,
    spinOnce 1 game_before_point = Some (g', ev) /\
    point ev = Some 0%nat /\
    speed_ g' = BASE_SPEED + SPEED_STEP /\
    speed_ g' <> BASE_SPEED.
Proof.
  destruct spinOnce_game_before_point as (g' & ev & H & Hp & _ & _ & Hs).
  exists g', ev. repeat split; auto.
  rewrite Hs. unfold SPEED_STEP. lra.
Qed.

(** C3 (amended): after a tick in which a point is scored, the ball
    position is (0,0), the direction is a unit vector, and the speed is
    the serve value 5 * dt plus the per-tick increment 0.0002; [reset]
    itself always returns and leaves the ball at (0,0) with a unit
    direction and exactly the serve speed. *)
Theorem point_resets_ball (r : Z) (g g' : PongGame) (ev : Events) (p : nat) :
  spinOnce r g = Some (g', ev) ->
  point ev = Some p ->
  (ball_pos_x_ g' = 0 /\ ball_pos_y_ g' = 0 /\ unit_dir g' /\
   speed_ g' = BASE_SPEED + SPEED_STEP) /\
  (forall h, exists h',
     reset r h = Some h' /\
     ball_pos_x_ h' = 0 /\ ball_pos_y_ h' = 0 /\ unit_dir h' /\
     speed_ h' = BASE_SPEED).
Proof.
  intros H Hp. split.
  - destruct (spinOnce_point_inv _ _ _ _ _ H Hp)
      as (k1 & w & k2 & b & h & _ & _ & _ & _ & _ & _ & _ & Hr & ->).
    apply reset_unit in Hr. unfold unit_dir in *. cbn in *.
    unfold BASE_SPEED. auto.
  - intros h. eexists. split; [apply reset_eq |].
    pose proof (reset_unit r h _ (reset_eq r h)) as Hu.
    unfold unit_dir in *. cbn in *. unfold BASE_SPEED. auto.
Qed.

(** C3 (amended), on the tick in which the right player misses. *)
Lemma point_resets_ball_example :
  exists g' ev,
    spinOnce 1 game_before_point = Some (g', ev) /\
    point ev = Some 0%nat /\
    (ball_pos_x_ g' = 0 /\ ball_pos_y_ g' = 0 /\ unit_dir g' /\
     speed_ g' = BASE_SPEED + SPEED_STEP) /\
    (forall h, exists h',
       reset 1 h = Some h' /\
       ball_pos_x_ h' = 0 /\ ball_pos_y_ h' = 0 /\ unit_dir h' /\
       speed_ h' = BASE_SPEED).
Proof.
  destruct spinOnce_game_before_point as (g' & ev & H & Hp & _).
  exists g', ev. split; [exact H |]. split; [exact Hp |].
  exact (point_resets_ball 1 game_before_point g' ev 0 H Hp).
Defined.

(** ** C1: the bounce off the top and bottom walls *)

Lemma spinOnce_game_below_top_wall :
  exists g' ev,
    spinOnce 0 game_below_top_wall = Some (g', ev) /\
    wall_bounce ev = true /\ paddle_bounce ev = false /\ point ev = None /\
    ball_pos_x_ g' = 0 /\ ball_pos_y_ g' = 3.7.
Proof.
  unfold game_below_top_wall. evaluate.
  eexists. eexists. split; [reflexivity |].
  cbn. repeat split; try lra; field.
Qed.

(** C1, as the spec has it, fails: the ball starts at y = 3.9 and moves
    up by 0.4, so [t] = (4.3 - 4) / (4.3 - 3.9) = 3/4.  The code puts the
    ball at 3.7, that is the wall minus [t] displacements; the wall minus
    the remaining [1 - t] displacements is 3.9. *)
Lemma wall_bounce_does_not_apply_rest :
  let g := game_below_top_wall in
  let y := ball_pos_y_ g + speed_ g * ball_dir_y_ g in
  let dy := speed_ g * ball_dir_y_ g in
  let t1 := (y - FIELD_HEIGHT * 0.5) / (y - last_ball_pos_y_ g) in
  exists g' ev,
    spinOnce 0 g = Some (g', ev) /\
    wall_bounce ev = true /\
    t1 = 3 / 4 /\
    y - t1 * dy = FIELD_HEIGHT * 0.5 /\
    ball_pos_y_ g' = 3.7 /\
    (y - t1 * dy) + (1 - t1) * (- dy) = 3.9 /\
    ball_pos_y_ g' <> (y - t1 * dy) + (1 - t1) * (- dy).
Proof.
  destruct spinOnce_game_below_top_wall as (g' & ev & H & Hw & _ & _ & _ & Hy).
  exists g', ev. rewrite Hy. unfold game_below_top_wall, FIELD_HEIGHT. cbn.
  repeat split; auto; try (field; lra); try lra.
Qed.

(** C1 (amended): in a tick that starts with [last_ball_pos] equal to the
    ball position and in which the ball passes the top or bottom wall,
    with [t] = (pos - limit) / (pos - last_pos) for the exceeded side, the
    point reached by going back [t] displacements lies on the wall, and
    the position after the wall block is that point plus [t] (not
    [1 - t]) displacements along the direction with its y-component
    inverted; it is the position the tick ends with unless a paddle
    bounce or a point follows in the same tick. *)
Theorem wall_bounce_reapplies_overshoot (r : Z) (g g' : PongGame) (ev : Events) :
  synced g ->
  spinOnce r g = Some (g', ev) ->
  wall_bounce ev = true ->
  let dx := speed_ g * ball_dir_x_ g in
  let dy := speed_ g * ball_dir_y_ g in
  let x := ball_pos_x_ g + dx in
  let y := ball_pos_y_ g + dy in
  exists k' limit,
    bounce_walls (move_ball g) = Some (k', true) /\
    ((y > FIELD_HEIGHT * 0.5 /\ limit = FIELD_HEIGHT * 0.5 /\
      t k' = (y - FIELD_HEIGHT * 0.5) / (y - last_ball_pos_y_ g)) \/
     (- y > FIELD_HEIGHT * 0.5 /\ limit = - (FIELD_HEIGHT * 0.5) /\
      t k' = (- y - FIELD_HEIGHT * 0.5) / (last_ball_pos_y_ g - y))) /\
    y - t k' * dy = limit /\
    ball_pos_x_ (game k') = (x - t k' * dx) + t k' * dx /\
    ball_pos_y_ (game k') = (y - t k' * dy) + t k' * (- dy) /\
    (paddle_bounce ev = false -> point ev = None ->
     ball_pos_x_ g' = ball_pos_x_ (game k') /\
     ball_pos_y_ g' = ball_pos_y_ (game k')).
Proof.
  intros [Sx Sy] H Hw dx dy x y.
  destruct (both_active g) eqn:Ha.
  2:{ rewrite (spinOnce_inactive _ _ Ha) in H. injection H as <- <-. discriminate. }
  apply spinOnce_inv in H; [| exact Ha].
  destruct H as (k1 & w & k2 & b & g2 & pt & pose & H1 & H2 & H3 & -> & ->).
  cbn in Hw. subst w.
  pose proof (bounce_walls_inv _ _ _ H1) as (t1 & Hr & Hk). cbv zeta in Hr, Hk.
  cbn in Hr, Hk. fold dx dy x y in Hr, Hk.
  assert (Ht : t k1 = t1) by (rewrite Hk; reflexivity).
  assert (Hposx : ball_pos_x_ (game k1) = x - t1 * dx + t1 * dx)
    by (rewrite Hk; reflexivity).
  assert (Hposy : ball_pos_y_ (game k1) = y - t1 * dy + t1 * - dy)
    by (rewrite Hk; cbn; unfold y, dy; ring).
  clear Hk.
  apply reflect_inv in Hr.
  assert (Hd : y - last_ball_pos_y_ g = dy) by (unfold y; lra).
  destruct Hr as [(Hy & _ & Hne & Et) | [(Hy' & Hy & _ & Hne & Et) | (_ & _ & F & _)]];
    [ exists k1, (FIELD_HEIGHT * 0.5) | exists k1, (- (FIELD_HEIGHT * 0.5)) | discriminate ].
  - rewrite Ht. split; [exact H1 |]. split; [left; auto |].
    split; [| split; [exact Hposx | split; [exact Hposy |]]].
    + rewrite Et. rewrite Hd in *. field. exact Hne.
    + intros Hb Hp. cbn in Hb, Hp. subst b pt.
      apply bounce_paddles_inv in H2. cbv zeta in H2.
      destruct H2 as [(_ & -> & _) | (F & _)]; [| discriminate].
      apply score_or_update_inv in H3. cbv zeta in H3.
      destruct H3 as [(_ & _ & -> & _) | (_ & F & _)]; [| discriminate].
      cbn. auto.
  - rewrite Ht. split; [exact H1 |]. split; [right; auto |].
    split; [| split; [exact Hposx | split; [exact Hposy |]]].
    + rewrite Et. replace (last_ball_pos_y_ g - y) with (- dy) in * by lra.
      field. lra.
    + intros Hb Hp. cbn in Hb, Hp. subst b pt.
      apply bounce_paddles_inv in H2. cbv zeta in H2.
      destruct H2 as [(_ & -> & _) | (F & _)]; [| discriminate].
      apply score_or_update_inv in H3. cbv zeta in H3.
      destruct H3 as [(_ & _ & -> & _) | (_ & F & _)]; [| discriminate].
      cbn. auto.
Qed.

(** C1 (amended), on the ball one tick below the top wall. *)
Lemma wall_bounce_reapplies_overshoot_example :
  exists g' ev k',
    synced game_below_top_wall /\
    spinOnce 0 game_below_top_wall = Some (g', ev) /\
    wall_bounce ev = true /\
    bounce_walls (move_ball game_below_top_wall) = Some (k', true) /\
    ball_pos_y_ (game k') = 3.7 /\ ball_pos_y_ g' = 3.7.
Proof.
  destruct spinOnce_game_below_top_wall as (g' & ev & H & Hw & Hb & Hp & Hx & Hy).
  assert (S : synced game_below_top_wall) by (split; reflexivity).
  destruct (wall_bounce_reapplies_overshoot 0 _ g' ev S H Hw)
    as (k' & limit & H1 & _ & _ & _ & _ & Hf).
  destruct (Hf Hb Hp) as [_ Ey].
  exists g', ev, k'. rewrite <- Ey. auto 10.
Defined.

(** ** What the wall block keeps *)

Lemma bounce_walls_move g k1 w :
  bounce_walls (move_ball g) = Some (k1, w) ->
  let h := game k1 in
  player0 h = player0 g /\ player1 h = player1 g /\
  last_ball_pos_x_ h = last_ball_pos_x_ g /\
  last_ball_pos_y_ h = last_ball_pos_y_ g /\
  ball_pos_x_ h = ball_pos_x_ g + speed_ g * ball_dir_x_ g /\
  ball_dir_x_ h = ball_dir_x_ g /\
  (ball_dir_y_ h = ball_dir_y_ g \/ ball_dir_y_ h = - ball_dir_y_ g) /\
  speed_ h = speed_ g /\
  ball_dx k1 = speed_ h * ball_dir_x_ h /\
  ball_dy k1 = speed_ h * ball_dir_y_ h /\
  (w = false -> k1 = move_ball g).
Proof.
  intros H. apply bounce_walls_inv in H. cbv zeta in H.
  destruct H as (t1 & Hr & ->).
  destruct w; cbn.
  - repeat split; auto; try ring; try discriminate. right. ring.
  - apply reflect_inv in Hr.
    destruct Hr as [(_ & F & _) | [(_ & _ & F & _) | (_ & _ & _ & ->)]];
      try discriminate.
    repeat split; auto.
Qed.


(** ** C2: when the paddle block runs *)

Lemma normalizeVel_eq g l :
  0 < l ->
  l * l = ball_dir_x_ g * ball_dir_x_ g + ball_dir_y_ g * ball_dir_y_ g ->
  normalizeVel g = Some (set_ball_dir (ball_dir_x_ g / l) (ball_dir_y_ g / l) g).
Proof.
  intros Hl E. unfold normalizeVel.
  rewrite (sqrt_lem_1 _ l) by (try rewrite <- E; nra).
  rewrite !fdiv_some by lra. reflexivity.
Qed.

Lemma spinOnce_game_beside_paddle :
  exists g' ev,
    spinOnce 0 game_beside_paddle = Some (g', ev) /\
    wall_bounce ev = false /\ paddle_bounce ev = false /\ point ev = None.
Proof.
  unfold game_beside_paddle. evaluate.
  eexists. eexists. split; [reflexivity |]. cbn. auto.
Qed.

Lemma spinOnce_game_facing_paddle :
  exists g' ev,
    spinOnce 0 game_facing_paddle = Some (g', ev) /\
    wall_bounce ev = false /\ paddle_bounce ev = true /\ point ev = None /\
    ball_dir_x_ g' = -1 /\ ball_dir_y_ g' = 0 /\
    ball_pos_x_ g' = 5.9 /\ ball_pos_y_ g' = 0.
Proof.
  unfold game_facing_paddle. evaluate.
  rewrite (normalizeVel_eq _ 1) by (cbn; lra).
  expose. unfold limit_angle, ANGLE_LIMIT. evaluate.
  eexists. eexists. split; [reflexivity |].
  cbn. repeat split; try field; lra.
Qed.

(** The direction after [normalizeVel] is a positive multiple of the one
    before. *)
Lemma normalizeVel_scales g g' :
  normalizeVel g = Some g' ->
  exists c, 0 < c /\
    ball_dir_x_ g' = c * ball_dir_x_ g /\
    ball_dir_y_ g' = c * ball_dir_y_ g /\
    g' = set_ball_dir (ball_dir_x_ g') (ball_dir_y_ g') g.
Proof.
  intros H. apply normalizeVel_inv in H. cbv zeta in H. destruct H as [Hl ->].
  set (l := sqrt _) in *. exists (/ l).
  split; [apply Rinv_0_lt_compat; exact Hl |].
  cbn. repeat split; unfold Rdiv; ring.
Qed.

(** [limit_angle] keeps the sign of a non-zero [ball_dir_x_]. *)
Lemma limit_angle_sign_x g g' :
  limit_angle g = Some g' ->
  ball_dir_x_ g <> 0 ->
  0 < ball_dir_x_ g' * ball_dir_x_ g.
Proof.
  intros H Hx. apply limit_angle_inv in H.
  destruct H as [(_ & ->) | (_ & ->)]; [nra |]. cbn.
  pose proof sqrt2_pos as Hs.
  assert (Hi : 0 < / sqrt 2) by (apply Rinv_0_lt_compat; exact Hs).
  unfold Rdiv.
  destruct (sign_or_minus_cases (ball_dir_x_ g)) as [[Hc ->] | [Hc ->]]; nra.
Qed.

Lemma sign_or_minus_sign c : c <> 0 -> 0 < sign_or_minus c / sqrt 2 * c.
Proof.
  intros Hc. pose proof sqrt2_pos as Hs.
  assert (Hi : 0 < / sqrt 2) by (apply Rinv_0_lt_compat; exact Hs).
  unfold Rdiv.
  destruct (sign_or_minus_cases c) as [[H ->] | [H ->]]; nra.
Qed.

(** A paddle bounce turns a non-zero [ball_dir_x_] around. *)
Lemma bounce_paddles_turns_x player k k' :
  bounce_paddles player k = Some (k', true) ->
  ball_dir_x_ (game k) <> 0 ->
  ball_dir_x_ (game k') * ball_dir_x_ (game k) < 0.
Proof.
  intros H Hx. apply bounce_paddles_inv in H. cbv zeta in H.
  destruct H as [(F & _) | (_ & _ & _ & pd0 & Epd0 & hit & t1 & g1 & g2 & _ & Hn & Hl & ->)];
    [discriminate |].
  apply normalizeVel_scales in Hn. destruct Hn as (c & Hc & Ex & _ & _).
  cbn in Ex.
  assert (H1 : ball_dir_x_ g1 <> 0) by (rewrite Ex; nra).
  pose proof (limit_angle_sign_x _ _ Hl H1) as H2.
  cbn. rewrite Ex in H2. nra.
Qed.

(** The scoring block keeps the sign of a non-zero [ball_dir_x_]. *)
Lemma score_or_update_sign_x r player k g2 pt pose :
  score_or_update r player k = Some (g2, pt, pose) ->
  ball_dir_x_ (game k) <> 0 ->
  0 < ball_dir_x_ g2 * ball_dir_x_ (game k).
Proof.
  intros H Hx. apply score_or_update_inv in H. cbv zeta in H.
  destruct H as [(_ & _ & -> & _) | (_ & _ & hit & t1 & _ & _ & Hr)]; [nra |].
  rewrite reset_eq in Hr. injection Hr as <-. cbn.
  replace (ball_dir_x_ (incr_score (1 - player) _)) with (ball_dir_x_ (game k))
    by (unfold incr_score; destruct (1 - player)%nat; reflexivity).
  apply sign_or_minus_sign. exact Hx.
Qed.


(** C2, as the spec has it, fails: the ball goes from (5.9, 1.1) to
    (6.2, 1.5) and passes the goal line x = 6 at y = 1.2333, inside the
    paddle extent (-1.25, 1.25); the code tests the y reached at the end
    of the displacement, 1.5, and does not bounce. *)
Lemma paddle_test_is_not_at_crossing_point :
  let g := game_beside_paddle in
  let dx := speed_ g * ball_dir_x_ g in
  let dy := speed_ g * ball_dir_y_ g in
  let x := ball_pos_x_ g + dx in
  let y := ball_pos_y_ g + dy in
  let t1 := (x - FIELD_WIDTH * 0.5) / (x - last_ball_pos_x_ g) in
  let paddle := 0 in
  exists g' ev,
    spinOnce 0 g = Some (g', ev) /\
    paddle_bounce ev = false /\
    pos (player_contexts_ g 1) = Finite paddle /\
    (Rabs (last_ball_pos_x_ g) < FIELD_WIDTH * 0.5 /\
     Rabs x >= FIELD_WIDTH * 0.5) /\
    x > 0 /\
    x - t1 * dx = FIELD_WIDTH * 0.5 /\
    paddle - (PADDLE_SIZE / 2 + BORDER_SIZE / 2) < y - t1 * dy
      < paddle + (PADDLE_SIZE / 2 + BORDER_SIZE / 2).
Proof.
  destruct spinOnce_game_beside_paddle as (g' & ev & H & _ & Hb & _).
  exists g', ev. split; [exact H |]. split; [exact Hb |].
  split; [reflexivity |].
  unfold game_beside_paddle. expose.
  rewrite !Rabs_pos_eq by lra.
  assert (E : (5.9 + 0.5 * 0.6 - 12 * 0.5) / (5.9 + 0.5 * 0.6 - 5.9) = 2 / 3)
    by (apply div_eq; lra).
  rewrite E. repeat split; lra.
Qed.

(** C2 (amended): in a tick with both players active, the paddle block
    runs if and only if the ball's x-coordinate crossed the goal line in
    this tick (|last.x| < W/2 and |pos.x| >= W/2) and the ball's
    y-coordinate at the end of the tick's displacement (after the wall
    block, not at the crossing point) lies strictly within
    paddle_position ± (PADDLE/2 + BORDER/2) of the side the ball is on
    (so the paddle position is a number, not the NaN of a feedback pose);
    when it runs in a tick that began with [last_ball_pos] at the ball,
    the sign of direction.x is inverted. *)
Theorem paddle_bounce_iff (r : Z) (g g' : PongGame) (ev : Events) :
  both_active g = true ->
  spinOnce r g = Some (g', ev) ->
  let x := ball_pos_x_ g + speed_ g * ball_dir_x_ g in
  let player := if gt x 0 then 1%nat else 0%nat in
  exists k1 w,
    bounce_walls (move_ball g) = Some (k1, w) /\
    (paddle_bounce ev = true <->
     (Rabs (last_ball_pos_x_ g) < FIELD_WIDTH * 0.5 /\
      Rabs x >= FIELD_WIDTH * 0.5) /\
     exists paddle,
       pos (player_contexts_ g player) = Finite paddle /\
       paddle - PADDLE_SIZE * 0.5 - 0.5 * BORDER_SIZE < ball_pos_y_ (game k1)
         < paddle + PADDLE_SIZE * 0.5 + 0.5 * BORDER_SIZE) /\
    (paddle_bounce ev = true -> synced g -> ball_dir_x_ g' * ball_dir_x_ g < 0).
Proof.
  intros Ha H x player.
  apply spinOnce_inv in H; [| exact Ha].
  destruct H as (k1 & w & k2 & b & g2 & pt & pose & H1 & H2 & H3 & -> & ->).
  exists k1, w. split; [exact H1 |].
  pose proof (bounce_walls_move _ _ _ H1) as Hm. cbv zeta in Hm.
  destruct Hm as (P0 & P1 & Lx & _ & Ex & Dx & _ & _ & _ & _ & _).
  assert (Epl : player_of (game k1) = player)
    by (unfold player_of, player, x; rewrite Ex; reflexivity).
  assert (Epd : pos (player_contexts_ (game k1) (player_of (game k1)))
                = pos (player_contexts_ g player)).
  { rewrite Epl. unfold player_contexts_.
    destruct player; [rewrite P0 | rewrite P1]; reflexivity. }
  pose proof (bounce_paddles_inv _ _ _ _ H2) as Hb. cbv zeta in Hb.
  pose proof (paddle_in_place_iff (player_of (game k1)) (game k1)) as Hin.
  rewrite Epd in Hin.
  unfold crossed_goal_line in Hb.
  rewrite Lx, Ex in Hb. fold x in Hb.
  cbn [paddle_bounce]. split.
  - destruct Hb as [(-> & _ & Hno) | (-> & Hc & Hp & _)].
    + split; [discriminate |]. intros [[Hl Hg] Hy].
      rewrite (lt_true _ _ Hl), (ge_true _ _ Hg) in Hno.
      apply Hin in Hy. rewrite Hy in Hno.
      destruct Hno; discriminate.
    + split; [| reflexivity]. intros _.
      apply andb_prop in Hc as [Hl Hg].
      apply lt_iff in Hl. apply ge_iff in Hg. apply Hin in Hp. auto.
  - intros -> [Sx _].
    destruct Hb as [(F & _) | (_ & Hc & _)]; [discriminate |].
    apply andb_prop in Hc as [Hl Hg]. apply lt_iff in Hl. apply ge_iff in Hg.
    assert (Hd : ball_dir_x_ g <> 0).
    { intros E. unfold x in Hg. rewrite E, Rmult_0_r, Rplus_0_r, <- Sx in Hg. lra. }
    pose proof (bounce_paddles_turns_x _ _ _ H2) as T. rewrite Dx in T.
    specialize (T Hd).
    assert (Hd2 : ball_dir_x_ (game k2) <> 0) by nra.
    pose proof (score_or_update_sign_x _ _ _ _ _ _ H3 Hd2) as S3.
    cbn. nra.
Qed.

(** C2 (amended), on the ball that flies level into the right paddle. *)
Lemma paddle_bounce_iff_example :
  exists g' ev k1 w,
    both_active game_facing_paddle = true /\
    spinOnce 0 game_facing_paddle = Some (g', ev) /\
    bounce_walls (move_ball game_facing_paddle) = Some (k1, w) /\
    paddle_bounce ev = true /\
    ball_dir_x_ g' * ball_dir_x_ game_facing_paddle < 0.
Proof.
  destruct spinOnce_game_facing_paddle as (g' & ev & H & _ & Hb & _).
  assert (Ha : both_active game_facing_paddle = true) by reflexivity.
  destruct (paddle_bounce_iff 0 _ g' ev Ha H) as (k1 & w & H1 & _ & Hx).
  exists g', ev, k1, w. repeat split; auto.
  apply Hx; [exact Hb | split; reflexivity].
Defined.

(** ** C5: the side of the boundary the ball ends on *)

Lemma spinOnce_game_in_corner :
  exists g' ev,
    spinOnce 0 game_in_corner = Some (g', ev) /\
    wall_bounce ev = true /\ paddle_bounce ev = true /\ point ev = None /\
    shown ev = Some (ball_pos_x_ g', ball_pos_y_ g') /\
    ball_pos_y_ g' > 4.1.
Proof.
  unfold game_in_corner. evaluate.
  rewrite (normalizeVel_eq _ 0.65) by (cbn; lra).
  expose. unfold limit_angle, ANGLE_LIMIT. evaluate.
  eexists. eexists. split; [reflexivity |].
  cbn. repeat split; lra.
Qed.

(** C5, as the spec has it, fails when the wall block and the paddle
    block both run in one tick: the ball bounces off the top wall
    (y = 4), then the paddle block moves it back along the new
    direction to y = 4.05 and sends it upwards; the tick ends, without a
    point, with the ball above the wall it bounced off. *)
Lemma double_bounce_leaves_field :
  exists g' ev,
    spinOnce 0 game_in_corner = Some (g', ev) /\
    ball_pos_y_ game_in_corner + speed_ game_in_corner * ball_dir_y_ game_in_corner
      > FIELD_HEIGHT * 0.5 /\
    wall_bounce ev = true /\
    point ev = None /\
    shown ev = Some (ball_pos_x_ g', ball_pos_y_ g') /\
    ball_pos_y_ g' > FIELD_HEIGHT * 0.5.
Proof.
  destruct spinOnce_game_in_corner as (g' & ev & H & Hw & _ & Hp & Hs & Hy).
  exists g', ev. unfold FIELD_HEIGHT. repeat split; auto; try lra.
  unfold game_in_corner. cbn. lra.
Qed.

(** After a wall bounce alone the ball is on the field side of the wall
    it passed. *)
Lemma bounce_walls_inside g k1 :
  synced g ->
  bounce_walls (move_ball g) = Some (k1, true) ->
  let y := ball_pos_y_ g + speed_ g * ball_dir_y_ g in
  (y > FIELD_HEIGHT * 0.5 -> ball_pos_y_ (game k1) < FIELD_HEIGHT * 0.5) /\
  (- y > FIELD_HEIGHT * 0.5 -> ball_pos_y_ (game k1) > - (FIELD_HEIGHT * 0.5)).
Proof.
  intros [_ Sy] H y.
  apply bounce_walls_inv in H. cbv zeta in H. destruct H as (t1 & Hr & ->).
  cbn in *. fold y in Hr |- *.
  set (dy := speed_ g * ball_dir_y_ g) in *.
  replace (speed_ g * (ball_dir_y_ g * -1)) with (- dy) by (unfold dy; ring).
  assert (Hd : y - last_ball_pos_y_ g = dy) by (unfold y; lra).
  apply reflect_inv in Hr.
  destruct Hr as [(Hy & _ & Hne & Et) | [(Hy' & Hy & _ & Hne & Et) | (_ & _ & F & _)]];
    [ | | discriminate ].
  - assert (E : t1 * dy = y - FIELD_HEIGHT * 0.5).
    { rewrite Et, Hd in *. field. exact Hne. }
    unfold FIELD_HEIGHT in *. split; intros; nra.
  - assert (E : t1 * dy = y + FIELD_HEIGHT * 0.5).
    { assert (E0 : t1 * (last_ball_pos_y_ g - y) = - y - FIELD_HEIGHT * 0.5)
        by (rewrite Et; apply div_mul_cancel; exact Hne).
      rewrite <- Hd. nra. }
    unfold FIELD_HEIGHT in *. split; intros; nra.
Qed.

(** After a paddle bounce alone the ball is on the field side of the
    goal line it passed. *)
Lemma bounce_paddles_inside player g k2 :
  synced g ->
  bounce_paddles player (move_ball g) = Some (k2, true) ->
  let x := ball_pos_x_ g + speed_ g * ball_dir_x_ g in
  (x > 0 -> ball_pos_x_ (game k2) <= FIELD_WIDTH * 0.5) /\
  (x <= 0 -> ball_pos_x_ (game k2) >= - (FIELD_WIDTH * 0.5)).
Proof.
  intros [Sx _] H x.
  apply bounce_paddles_inv in H. cbv zeta in H.
  destruct H as [(F & _) | (_ & Hc & _ & pd0 & Epd0 & hit & t1 & g1 & g2 & Hr & Hn & Hl & ->)];
    [discriminate |].
  unfold crossed_goal_line in Hc. cbn in Hc, Hr, Hn |- *. fold x in Hc, Hr, Hn.
  apply andb_prop in Hc as [Hlast Hx]. apply lt_iff in Hlast. apply ge_iff in Hx.
  set (d := ball_dir_x_ g) in *. set (s := speed_ g) in *.
  assert (Hlx : - (FIELD_WIDTH * 0.5) < last_ball_pos_x_ g < FIELD_WIDTH * 0.5).
  { unfold Rabs in Hlast. destruct (Rcase_abs _); lra. }
  assert (Hxx : x >= FIELD_WIDTH * 0.5 \/ x <= - (FIELD_WIDTH * 0.5)).
  { unfold Rabs in Hx. destruct (Rcase_abs _); lra. }
  assert (Hdx : x - last_ball_pos_x_ g = s * d) by (unfold x; lra).
  (* the new direction points away from the goal line *)
  apply normalizeVel_scales in Hn. destruct Hn as (c & Hc & Ex & _ & Eg1).
  cbn in Ex.
  assert (Hd0 : d <> 0) by (intros E; rewrite E in Hdx; lra).
  assert (H1 : ball_dir_x_ g1 <> 0) by (rewrite Ex; nra).
  pose proof (limit_angle_sign_x _ _ Hl H1) as H2. rewrite Ex in H2.
  assert (Hs2 : speed_ g2 = s /\ ball_pos_x_ g2 = x - t1 * (s * d)).
  { apply limit_angle_inv in Hl. rewrite Eg1 in Hl.
    destruct Hl as [(_ & ->) | (_ & ->)]; cbn; auto. }
  destruct Hs2 as [-> ->].
  set (a := ball_dir_x_ g2) in *.
  assert (Had : a * d < 0) by nra.
  assert (Hsa : (s * a) * (d * d) = (s * d) * (a * d)) by ring.
  assert (Hdd : 0 < d * d) by nra.
  apply reflect_inv in Hr.
  destruct Hr as [(Hy & _ & Hne & Et) | [(Hy' & Hy & _ & Hne & Et) | (Hy' & Hy & _ & Et)]].
  - assert (E : t1 * (s * d) = x - FIELD_WIDTH * 0.5).
    { rewrite <- Hdx, Et. apply div_mul_cancel. exact Hne. }
    assert (Hsd : 0 < s * d) by lra.
    assert (Ht : 0 < t1) by nra.
    assert (Hneg : s * a < 0) by nra.
    split; intros; nra.
  - assert (E : t1 * (s * d) = x + FIELD_WIDTH * 0.5).
    { assert (E0 : t1 * (last_ball_pos_x_ g - x) = - x - FIELD_WIDTH * 0.5)
        by (rewrite Et; apply div_mul_cancel; exact Hne).
      rewrite <- Hdx. nra. }
    assert (Hsd : s * d < 0) by lra.
    assert (Ht : 0 < t1) by nra.
    assert (Hpos : 0 < s * a) by nra.
    unfold FIELD_WIDTH in *. split; intros; nra.
  - subst t1. unfold FIELD_WIDTH in *. split; intros; lra.
Qed.

(** C5 (amended): in a tick that starts with [last_ball_pos] at the
    ball, scores no point and runs exactly one of the two bounce blocks,
    the position the tick ends with (the one given to [updateBall]) lies
    on the field side of the boundary the ball bounced off: below the
    top wall or above the bottom wall after a wall bounce, and not beyond
    the goal line of its side after a paddle bounce.  This holds for
    every speed. *)
Theorem single_bounce_stays_inside (r : Z) (g g' : PongGame) (ev : Events) :
  synced g ->
  spinOnce r g = Some (g', ev) ->
  point ev = None ->
  let x := ball_pos_x_ g + speed_ g * ball_dir_x_ g in
  let y := ball_pos_y_ g + speed_ g * ball_dir_y_ g in
  (wall_bounce ev = true -> paddle_bounce ev = false ->
   shown ev = Some (ball_pos_x_ g', ball_pos_y_ g') /\
   (y > FIELD_HEIGHT * 0.5 \/ - y > FIELD_HEIGHT * 0.5) /\
   (y > FIELD_HEIGHT * 0.5 -> ball_pos_y_ g' < FIELD_HEIGHT * 0.5) /\
   (- y > FIELD_HEIGHT * 0.5 -> ball_pos_y_ g' > - (FIELD_HEIGHT * 0.5))) /\
  (paddle_bounce ev = true -> wall_bounce ev = false ->
   shown ev = Some (ball_pos_x_ g', ball_pos_y_ g') /\
   (x > 0 -> ball_pos_x_ g' <= FIELD_WIDTH * 0.5) /\
   (x <= 0 -> ball_pos_x_ g' >= - (FIELD_WIDTH * 0.5))).
Proof.
  intros S H Hp x y.
  destruct (both_active g) eqn:Ha.
  2:{ rewrite (spinOnce_inactive _ _ Ha) in H. injection H as <- <-.
      split; intros; discriminate. }
  apply spinOnce_inv in H; [| exact Ha].
  destruct H as (k1 & w & k2 & b & g2 & pt & pose & H1 & H2 & H3 & -> & ->).
  cbn in Hp. subst pt.
  apply score_or_update_inv in H3. cbv zeta in H3.
  destruct H3 as [(_ & _ & -> & ->) | (_ & F & _)]; [| discriminate].
  cbn. split; intros -> ->.
  - pose proof (bounce_walls_inside _ _ S H1) as Hin. cbv zeta in Hin.
    fold y in Hin.
    apply bounce_paddles_inv in H2. cbv zeta in H2.
    destruct H2 as [(_ & -> & _) | (F & _)]; [| discriminate].
    split; [reflexivity |]. split; [| exact Hin].
    apply bounce_walls_inv in H1. cbv zeta in H1. destruct H1 as (t1 & Hr & _).
    cbn in Hr. fold y in Hr. apply reflect_inv in Hr.
    destruct Hr as [(Hy & _) | [(_ & Hy & _) | (_ & _ & F & _)]];
      [left; exact Hy | right; exact Hy | discriminate].
  - pose proof (bounce_walls_move _ _ _ H1) as Hm. cbv zeta in Hm.
    destruct Hm as (_ & _ & _ & _ & Ex & _ & _ & _ & _ & _ & Hk).
    rewrite (Hk eq_refl) in *.
    pose proof (bounce_paddles_inside _ _ _ S H2) as Hin. cbv zeta in Hin.
    fold x in Hin. split; [reflexivity | exact Hin].
Qed.

(** C5 (amended), on the ball that bounces off the top wall alone. *)
Lemma single_bounce_stays_inside_example :
  exists g' ev,
    synced game_below_top_wall /\
    spinOnce 0 game_below_top_wall = Some (g', ev) /\
    point ev = None /\
    wall_bounce ev = true /\ paddle_bounce ev = false /\
    shown ev = Some (ball_pos_x_ g', ball_pos_y_ g') /\
    ball_pos_y_ g' < FIELD_HEIGHT * 0.5.
Proof.
  destruct spinOnce_game_below_top_wall as (g' & ev & H & Hw & Hb & Hp & _ & _).
  assert (S : synced game_below_top_wall) by (split; reflexivity).
  destruct (single_bounce_stays_inside 0 _ g' ev S H Hp) as [Hwall _].
  destruct (Hwall Hw Hb) as (Hs & _ & Htop & _).
  exists g', ev. repeat split; auto.
  apply Htop. unfold game_below_top_wall, FIELD_HEIGHT. cbn. lra.
Defined.

(** ** What the blocks do to the direction *)

Lemma limit_angle_unit g g' : unit_dir g -> limit_angle g = Some g' -> unit_dir g'.
Proof.
  intros U H. unfold limit_angle in H. destruct (gt _ _).
  - cbv zeta in H. apply normalizeVel_unit in H. exact H.
  - injection H as <-. exact U.
Qed.

(** After [limit_angle] on a unit direction, |direction.y| is at most
    sin 45 deg. *)
Lemma limit_angle_bound g g' :
  limit_angle g = Some g' -> Rabs (ball_dir_y_ g') <= sqrt 2 / 2.
Proof.
  intros H. apply limit_angle_inv in H.
  destruct H as [(Hy & ->) | (_ & ->)].
  - pose proof angle_limit_below. lra.
  - cbn. rewrite Rabs_sign_sqrt2; [lra |].
    destruct (sign_or_minus_cases (ball_dir_y_ g)) as [[_ ->] | [_ ->]]; auto.
Qed.


Lemma bounce_paddles_bound player k k' :
  bounce_paddles player k = Some (k', true) ->
  Rabs (ball_dir_y_ (game k')) <= sqrt 2 / 2.
Proof.
  intros H. apply bounce_paddles_inv in H. cbv zeta in H.
  destruct H as [(F & _) | (_ & _ & _ & pd0 & Epd0 & hit & t1 & g1 & g2 & _ & _ & Hl & ->)];
    [discriminate |].
  apply limit_angle_bound in Hl. exact Hl.
Qed.


Lemma score_or_update_bound r player k g2 pt pose :
  score_or_update r player k = Some (g2, pt, pose) ->
  Rabs (ball_dir_y_ (game k)) <= sqrt 2 / 2 ->
  Rabs (ball_dir_y_ g2) <= sqrt 2 / 2.
Proof.
  intros H U. apply score_or_update_inv in H. cbv zeta in H.
  destruct H as [(_ & _ & -> & _) | (_ & _ & hit & t1 & _ & _ & Hr)]; [exact U |].
  rewrite reset_eq in Hr. injection Hr as <-. cbn.
  rewrite Rabs_sign_sqrt2; [lra |]. destruct (Z.rem r 2 =? 0)%Z; auto.
Qed.

(** ** C7: the rebound angle *)

(** C7: in a tick in which the paddle block runs, the block turns
    direction.x, adds the spin to direction.y and normalises, which gives
    (ux / l, uy / l); when |uy / l| is above the literal 0.707106781
    (which is below sin 45 deg, so whenever it exceeds sin 45 deg) the
    block stores the signs of the two components over [sqrt 2] as the
    direction, each of magnitude exactly sin 45 deg; otherwise it stores
    (ux / l, uy / l).  Without a point in that tick this is the direction
    after the tick, and in any case |direction.y| is at most sin 45 deg
    after the tick. *)
Theorem paddle_bounce_angle_capped (r : Z) (g g' : PongGame) (ev : Events) :
  spinOnce r g = Some (g', ev) ->
  paddle_bounce ev = true ->
  Rabs (ball_dir_y_ g') <= sin (PI / 4) /\
  ANGLE_LIMIT < sin (PI / 4) /\
  exists k1 w k2 paddle hit t1,
    bounce_walls (move_ball g) = Some (k1, w) /\
    bounce_paddles (player_of (game k1)) k1 = Some (k2, true) /\
    pos (player_contexts_ g (player_of (game k1))) = Finite paddle /\
    reflect (ball_pos_x_ (game k1)) (last_ball_pos_x_ (game k1))
      (FIELD_WIDTH * 0.5) (t k1) = Some (hit, t1) /\
    let ux := ball_dir_x_ (game k1) * -1 in
    let uy := ball_dir_y_ (game k1)
              + (ball_pos_y_ (game k1) - t1 * ball_dy k1 - paddle)
                / PADDLE_SIZE * 2 in
    let l := sqrt (ux * ux + uy * uy) in
    0 < l /\
    (Rabs (uy / l) > ANGLE_LIMIT ->
     ball_dir_x_ (game k2) = sign_or_minus (ux / l) / sqrt 2 /\
     ball_dir_y_ (game k2) = sign_or_minus (uy / l) / sqrt 2 /\
     Rabs (ball_dir_x_ (game k2)) = sin (PI / 4) /\
     Rabs (ball_dir_y_ (game k2)) = sin (PI / 4)) /\
    (Rabs (uy / l) <= ANGLE_LIMIT ->
     ball_dir_x_ (game k2) = ux / l /\
     ball_dir_y_ (game k2) = uy / l) /\
    (point ev = None ->
     ball_dir_x_ g' = ball_dir_x_ (game k2) /\
     ball_dir_y_ g' = ball_dir_y_ (game k2)).
Proof.
  intros H Hb. rewrite sin45.
  destruct (both_active g) eqn:Ha.
  2:{ rewrite (spinOnce_inactive _ _ Ha) in H. injection H as <- <-. discriminate. }
  apply spinOnce_inv in H; [| exact Ha].
  destruct H as (k1 & w & k2 & b & g2 & pt & pose & H1 & H2 & H3 & -> & ->).
  cbn in Hb. subst b. cbn [point].
  split.
  { cbn. pose proof (bounce_paddles_bound _ _ _ H2) as Hbd.
    exact (score_or_update_bound _ _ _ _ _ _ H3 Hbd). }
  split; [exact angle_limit_below |].
  pose proof (bounce_walls_move _ _ _ H1) as Hm. cbv zeta in Hm.
  destruct Hm as (P0 & P1 & _).
  pose proof (bounce_paddles_inv _ _ _ _ H2) as Hinv. cbv zeta in Hinv.
  destruct Hinv as [(F & _) | (_ & _ & _ & paddle & Epd & hit & t1 & g1 & g3 & Hr & Hn & Hl & Ek2)];
    [discriminate |].
  exists k1, w, k2, paddle, hit, t1.
  split; [exact H1 |]. split; [exact H2 |].
  split.
  { rewrite <- Epd. unfold player_contexts_.
    destruct (player_of (game k1)); [rewrite P0 | rewrite P1]; reflexivity. }
  split; [exact Hr |].
  apply normalizeVel_inv in Hn. cbv zeta in Hn. cbn in Hn.
  destruct Hn as [Hlpos Eg1].
  cbv zeta.
  set (ux := ball_dir_x_ (game k1) * -1) in *.
  set (uy := ball_dir_y_ (game k1)
             + (ball_pos_y_ (game k1) - t1 * ball_dy k1 - paddle)
               / PADDLE_SIZE * 2) in *.
  set (l := sqrt (ux * ux + uy * uy)) in *.
  split; [exact Hlpos |].
  apply limit_angle_inv in Hl.
  assert (Dx1 : ball_dir_x_ g1 = ux / l) by (rewrite Eg1; reflexivity).
  assert (Dy1 : ball_dir_y_ g1 = uy / l) by (rewrite Eg1; reflexivity).
  rewrite Dx1, Dy1 in Hl.
  assert (Dk2 : ball_dir_x_ (game k2) = ball_dir_x_ g3 /\
                ball_dir_y_ (game k2) = ball_dir_y_ g3)
    by (rewrite Ek2; split; reflexivity).
  destruct Dk2 as [Dx2 Dy2]. rewrite Dx2, Dy2.
  split; [| split].
  - intros Hgt. destruct Hl as [(Hle & _) | (_ & ->)]; [lra |].
    cbn. split; [reflexivity |]. split; [reflexivity |].
    split; apply Rabs_sign_sqrt2.
    + destruct (sign_or_minus_cases (ux / l)) as [[_ ->] | [_ ->]]; auto.
    + destruct (sign_or_minus_cases (uy / l)) as [[_ ->] | [_ ->]]; auto.
  - intros Hle. destruct Hl as [(_ & ->) | (Hgt & _)]; [| lra].
    split; assumption.
  - intros Hpt.
    apply score_or_update_inv in H3. cbv zeta in H3.
    destruct H3 as [(_ & _ & -> & _) | (_ & F & _)];
      [| rewrite Hpt in F; discriminate].
    cbn. rewrite Dx2, Dy2. split; reflexivity.
Qed.

Lemma spinOnce_game_at_paddle_edge :
  exists g' ev,
    spinOnce 0 game_at_paddle_edge = Some (g', ev) /\
    paddle_bounce ev = true /\ point ev = None /\
    ball_dir_x_ g' = -1 / sqrt 2 /\ ball_dir_y_ g' = 1 / sqrt 2.
Proof.
  pose proof sqrt2_pos as Hs. pose proof sqrt2_sqr as Hq.
  assert (Hi : ANGLE_LIMIT < / sqrt 2 < 1).
  { pose proof angle_limit_below as Hl. pose proof inv_sqrt2 as E.
    unfold Rdiv in E at 1. rewrite Rmult_1_l in E. rewrite E.
    split; [exact Hl | nra]. }
  unfold ANGLE_LIMIT in Hi.
  unfold game_at_paddle_edge. evaluate.
  rewrite (normalizeVel_eq _ (sqrt 2)) by (cbn; lra).
  expose. unfold limit_angle, ANGLE_LIMIT, sign_or_minus. evaluate.
  rewrite (normalizeVel_eq _ (sqrt 2)) by (cbn; lra).
  evaluate.
  eexists. eexists. split; [reflexivity |].
  cbn. repeat split; reflexivity.
Qed.

Lemma spinOnce_game_above_paddle_middle :
  exists g' ev,
    spinOnce 0 game_above_paddle_middle = Some (g', ev) /\
    paddle_bounce ev = true /\ point ev = None /\
    ball_dir_x_ g' = -1 / sqrt 2 /\ ball_dir_y_ g' = 1 / sqrt 2.
Proof.
  pose proof sqrt2_pos as Hs. pose proof sqrt2_sqr as Hq.
  assert (Hi : ANGLE_LIMIT < / sqrt 2 < 1).
  { pose proof angle_limit_below as Hl. pose proof inv_sqrt2 as E.
    unfold Rdiv in E at 1. rewrite Rmult_1_l in E. rewrite E.
    split; [exact Hl | nra]. }
  unfold ANGLE_LIMIT in Hi.
  assert (E : (5.8 + 0.5 * 0.8 - 12 * 0.5) / (5.8 + 0.5 * 0.8 - 5.8) = 1 / 2)
    by (apply div_eq; lra).
  unfold game_above_paddle_middle. evaluate. rewrite !E.
  rewrite (normalizeVel_eq _ 1.7) by (cbn; lra).
  expose. unfold limit_angle, ANGLE_LIMIT, sign_or_minus. evaluate.
  rewrite (normalizeVel_eq _ (sqrt 2)) by (cbn; lra).
  evaluate.
  eexists. eexists. split; [reflexivity |].
  cbn. repeat split; reflexivity.
Qed.

(** C7, on the ball that rises at 36.9 deg and meets the paddle 0.9
    above its middle: turned and with the spin added, the direction is
    (-0.8, 1.5), normalised (-8/17, 15/17), at 61.9 deg; the block stores
    (-1 / sqrt 2, 1 / sqrt 2) instead, at 45 deg. *)
Lemma paddle_bounce_angle_capped_example :
  exists g' ev,
    spinOnce 0 game_above_paddle_middle = Some (g', ev) /\
    paddle_bounce ev = true /\
    Rabs (ball_dir_y_ g') <= sin (PI / 4) /\
    ball_dir_x_ g' = -1 / sqrt 2 /\
    ball_dir_y_ g' = 1 / sqrt 2.
Proof.
  destruct spinOnce_game_above_paddle_middle as (g' & ev & H & Hb & Hp & _).
  exists g', ev. split; [exact H |]. split; [exact Hb |].
  destruct (paddle_bounce_angle_capped 0 _ g' ev H Hb)
    as (Hbound & _ & k1 & w & k2 & paddle & hit & t1 & H1 & H2 & Epd & Hr
        & Hl & Hcap & _ & Hsame).
  split; [exact Hbound |].
  destruct (Hsame Hp) as [-> ->].
  revert H1. unfold game_above_paddle_middle. evaluate.
  intros H1. injection H1 as <- <-.
  clear Hl Hsame H2 Hbound H Hb Hp.
  revert Epd Hr Hcap. evaluate.
  intros Epd Hr. injection Epd as <-. injection Hr as <- <-.
  assert (E : (5.8 + 0.5 * 0.8 - 12 * 0.5) / (5.8 + 0.5 * 0.8 - 5.8) = 1 / 2)
    by (apply div_eq; lra).
  rewrite !E.
  match goal with
  | |- context [sqrt ?a] => rewrite (sqrt_lem_1 a 1.7) by lra
  end.
  intros Hcap. destruct Hcap as (Ex & Ey & _).
  { unfold ANGLE_LIMIT. rewrite Rabs_pos_eq by lra. lra. }
  revert Ex Ey. unfold sign_or_minus.
  rewrite gt_false by lra. rewrite gt_true by lra. auto.
Defined.

(** ** C8: the direction is a unit vector *)


Lemma processPaddleFeedback_ball player fb g :
  ball (processPaddleFeedback player fb g) = ball g.
Proof.
  unfold processPaddleFeedback. destruct (Nat.ltb 1 player); [reflexivity |].
  destruct player; reflexivity.
Qed.




Lemma run_from_new_game :
  exists g0 g,
    PongGame_new 1 1 = Some g0 /\
    run [PaddleFeedback 0 (mkFeedback 0 MOUSE_UP);
         PaddleFeedback 1 (mkFeedback 5 MOUSE_UP);
         Spin 0] g0 = Some g /\
    both_active g = true.
Proof.
  unfold PongGame_new. rewrite reset_eq. eexists. eexists.
  split; [reflexivity |].
  cbn [run processPaddleFeedback Nat.ltb Nat.leb event_type pose_position_y].
  unfold clamp_paddle, new_player, UPDATE_RATE, sign_or_minus.
  pose proof sqrt2_pos as Hs.
  assert (Hi : 0 < / sqrt 2 < 1).
  { split; [apply Rinv_0_lt_compat; exact Hs |].
    rewrite <- Rinv_1. apply Rinv_lt_contravar; [lra |].
    pose proof sqrt2_sqr. nra. }
  change (Z.rem 1 2 =? 0)%Z with false. cbv iota.
  evaluate. split; reflexivity.
Qed.


(** ** C6: when and where a point is counted *)

Lemma bounce_paddles_players player k k' b :
  bounce_paddles player k = Some (k', b) ->
  player0 (game k') = player0 (game k) /\
  player1 (game k') = player1 (game k) /\
  (b = false -> k' = k).
Proof.
  intros H. apply bounce_paddles_inv in H. cbv zeta in H.
  destruct H as [(-> & -> & _) | (-> & _ & _ & pd0 & Epd0 & hit & t1 & g1 & g2 & _ & Hn & Hl & ->)];
    [auto |].
  apply normalizeVel_scales in Hn. destruct Hn as (c & _ & _ & _ & Eg1).
  apply limit_angle_inv in Hl.
  destruct Hl as [(_ & ->) | (_ & ->)]; cbn; rewrite Eg1; cbn;
    repeat split; auto; discriminate.
Qed.

(** The [int] arithmetic of [score++]. *)
Lemma wrap_int_range z : is_int (wrap_int z).
Proof.
  unfold is_int, wrap_int, INT_MIN, INT_MAX.
  pose proof (Z.mod_pos_bound (z + 2147483648) 4294967296). lia.
Qed.

Lemma wrap_int_small z : is_int z -> wrap_int z = z.
Proof.
  unfold is_int, wrap_int, INT_MIN, INT_MAX. intros H.
  rewrite Z.mod_small by lia. lia.
Qed.

Lemma wrap_int_succ_neq z : wrap_int (z + 1) <> z.
Proof.
  unfold wrap_int. intros E.
  pose proof (Z.div_mod (z + 1 + 2147483648) 4294967296) as D.
  pose proof (Z.mod_pos_bound (z + 1 + 2147483648) 4294967296) as B.
  lia.
Qed.

Lemma wrap_int_succ z :
  is_int z -> (z < INT_MAX)%Z -> wrap_int (z + 1) = (z + 1)%Z.
Proof.
  intros H L. apply wrap_int_small. unfold is_int, INT_MIN, INT_MAX in *. lia.
Qed.

Lemma wrap_int_max : wrap_int (INT_MAX + 1) = INT_MIN.
Proof. reflexivity. Qed.

Lemma incr_score_scores p g :
  score (player_contexts_ (incr_score p g) p)
    = wrap_int (score (player_contexts_ g p) + 1) /\
  score (player_contexts_ (incr_score p g) (1 - p))
    = score (player_contexts_ g (1 - p)).
Proof.
  destruct p as [| [| p]]; cbn; auto.
Qed.

Lemma processPaddleFeedback_scores side fb g :
  scores (processPaddleFeedback side fb g) = scores g.
Proof.
  unfold processPaddleFeedback. destruct (Nat.ltb 1 side); [reflexivity |].
  destruct side; destruct (event_type fb); reflexivity.
Qed.

Lemma reset_scores r g h : reset r g = Some h -> scores h = scores g.
Proof. rewrite reset_eq. intros H. injection H as <-. reflexivity. Qed.

Lemma spinOnce_game_fast_ball :
  exists g' ev k1 k2,
    spinOnce 0 game_fast_ball = Some (g', ev) /\
    bounce_walls (move_ball game_fast_ball) = Some (k1, false) /\
    ball_pos_x_ (game k1) = 37.9 /\
    bounce_paddles 1 k1 = Some (k2, true) /\
    ball_pos_x_ (game k2) = -25.9 /\
    paddle_bounce ev = true /\
    point ev = Some 0%nat /\
    scores g' = (1%Z, 0%Z) /\
    ball_dir_x_ g' = -1 / sqrt 2.
Proof.
  assert (E : (5.9 + 32 * 1 - 12 * 0.5) / (5.9 + 32 * 1 - 5.9) = 31.9 / 32)
    by (apply div_eq; lra).
  assert (W : exists k1,
             bounce_walls (move_ball game_fast_ball) = Some (k1, false) /\
             k1 = mkTick (mkGame (mkPlayer 0 true 0) (mkPlayer 0 true 0)
                            5.9 0 (5.9 + 32 * 1) (0 + 32 * 0) 1 0 32)
                    (32 * 1) (32 * 0) 0).
  { unfold game_fast_ball. evaluate. eexists. split; reflexivity. }
  destruct W as (k1 & H1 & Ek1).
  assert (P : exists k2,
             bounce_paddles 1 k1 = Some (k2, true) /\
             ball_pos_x_ (game k2) = -25.9).
  { subst k1. evaluate.
    rewrite (normalizeVel_eq _ 1) by (cbn; lra).
    expose. unfold limit_angle, ANGLE_LIMIT. evaluate.
    eexists. split; [reflexivity |]. cbn. rewrite E. lra. }
  destruct P as (k2 & H2 & Ex2).
  assert (S : exists g' ev,
             spinOnce 0 game_fast_ball = Some (g', ev) /\
             paddle_bounce ev = true /\
             point ev = Some 0%nat /\
             scores g' = (1%Z, 0%Z) /\
             ball_dir_x_ g' = -1 / sqrt 2).
  { unfold game_fast_ball. evaluate.
    rewrite (normalizeVel_eq _ 1) by (cbn; lra).
    expose. unfold limit_angle, ANGLE_LIMIT. evaluate.
    rewrite reset_eq. unfold sign_or_minus. evaluate.
    eexists. eexists. split; [reflexivity |].
    cbn. repeat split; reflexivity. }
  destruct S as (g' & ev & H & Hb & Hp & Hs & Hd).
  exists g', ev, k1, k2.
  repeat split; auto.
  subst k1. cbn. lra.
Qed.

(** C6, as the spec has it, fails on the side: the ball flies at 32 per
    tick into the right paddle, so [player] is 1; the paddle block sends
    it back by its overshoot of 31.9, to x = -25.9, past the left border;
    the point is counted for side [1 - player] = 0, the side whose border
    the ball has passed, and not for the side opposite to it. *)
Lemma point_for_the_side_the_ball_left_on :
  let g := game_fast_ball in
  let x0 := ball_pos_x_ g + speed_ g * ball_dir_x_ g in
  let limit := FIELD_WIDTH * 0.5 + 1.5 * BORDER_SIZE in
  exists g' ev k1 k2,
    spinOnce 0 g = Some (g', ev) /\
    bounce_walls (move_ball g) = Some (k1, false) /\
    bounce_paddles (if gt x0 0 then 1%nat else 0%nat) k1 = Some (k2, true) /\
    x0 > 0 /\
    ball_pos_x_ (game k2) <= - limit /\
    (if gt (ball_pos_x_ (game k2)) 0 then 1%nat else 0%nat) = 0%nat /\
    point ev = Some 0%nat /\
    scores g = (0%Z, 0%Z) /\
    scores g' = (1%Z, 0%Z).
Proof.
  destruct spinOnce_game_fast_ball
    as (g' & ev & k1 & k2 & H & H1 & E1 & H2 & E2 & _ & Hp & Hs & _).
  exists g', ev, k1, k2. cbv zeta.
  assert (Hx0 : ball_pos_x_ game_fast_ball
                + speed_ game_fast_ball * ball_dir_x_ game_fast_ball > 0)
    by (cbn; lra).
  rewrite (gt_true _ _ Hx0), E2.
  rewrite gt_false by lra.
  unfold FIELD_WIDTH, BORDER_SIZE.
  repeat split; auto; lra.
Qed.

(** C6 (amended): a tick changes the scores if and only if both players
    are active and the magnitude of the ball's x-coordinate, after the
    wall and paddle blocks of that tick, is at least W/2 + 1.5 * BORDER;
    the score of side [1 - player] is then incremented as an [int] (by
    exactly one below [INT_MAX], from [INT_MAX] to [INT_MIN]) and the
    other score stays, where [player] is 1 if the x-coordinate right
    after the move, before the paddle block, is positive and 0 otherwise;
    in a tick without a paddle reflection that is the side opposite the
    one whose border the ball has passed.  [processPaddleFeedback] and
    [reset] change no score. *)
Theorem point_iff_past_border (r : Z) (g g' : PongGame) (ev : Events) :
  spinOnce r g = Some (g', ev) ->
  let x0 := ball_pos_x_ g + speed_ g * ball_dir_x_ g in
  let player := if gt x0 0 then 1%nat else 0%nat in
  let limit := FIELD_WIDTH * 0.5 + 1.5 * BORDER_SIZE in
  (both_active g = false -> scores g' = scores g /\ point ev = None) /\
  (both_active g = true ->
   exists k1 w k2,
     bounce_walls (move_ball g) = Some (k1, w) /\
     bounce_paddles player k1 = Some (k2, paddle_bounce ev) /\
     (scores g' <> scores g <-> Rabs (ball_pos_x_ (game k2)) >= limit) /\
     (Rabs (ball_pos_x_ (game k2)) >= limit ->
      point ev = Some (1 - player)%nat /\
      score (player_contexts_ g' (1 - player))
        = wrap_int (score (player_contexts_ g (1 - player)) + 1) /\
      (is_int (score (player_contexts_ g (1 - player))) ->
       (score (player_contexts_ g (1 - player)) < INT_MAX)%Z ->
       score (player_contexts_ g' (1 - player))
         = (score (player_contexts_ g (1 - player)) + 1)%Z) /\
      (score (player_contexts_ g (1 - player)) = INT_MAX ->
       score (player_contexts_ g' (1 - player)) = INT_MIN) /\
      score (player_contexts_ g' player) = score (player_contexts_ g player) /\
      (paddle_bounce ev = false ->
       (player = 1%nat /\ ball_pos_x_ (game k2) >= limit) \/
       (player = 0%nat /\ ball_pos_x_ (game k2) <= - limit))) /\
     (Rabs (ball_pos_x_ (game k2)) < limit ->
      point ev = None /\ scores g' = scores g)) /\
  (forall side fb, scores (processPaddleFeedback side fb g) = scores g) /\
  (forall r' h, reset r' g = Some h -> scores h = scores g).
Proof.
  intros H x0 player limit.
  split; [| split; [| split]].
  - intros Ha. rewrite (spinOnce_inactive _ _ Ha) in H.
    injection H as <- <-. auto.
  - intros Ha. apply spinOnce_inv in H; [| exact Ha].
    destruct H as (k1 & w & k2 & b & g2 & pt & pose & H1 & H2 & H3 & -> & ->).
    pose proof (bounce_walls_move _ _ _ H1) as Hm. cbv zeta in Hm.
    destruct Hm as (P0 & P1 & _ & _ & Ex & _).
    assert (Epl : player_of (game k1) = player)
      by (unfold player_of, player, x0; rewrite Ex; reflexivity).
    rewrite Epl in H2, H3.
    pose proof (bounce_paddles_players _ _ _ _ H2) as (Q0 & Q1 & Hk).
    exists k1, w, k2. split; [exact H1 |]. split; [exact H2 |].
    cbn [paddle_bounce].
    apply score_or_update_inv in H3. cbv zeta in H3. fold limit in H3.
    destruct H3 as [(Hx & -> & -> & _) | (Hx & -> & hit & t1 & _ & _ & Hr)].
    + assert (Es : scores (set_speed (speed_ (game k2) + SPEED_STEP)
                     (set_last_ball_pos (ball_pos_x_ (game k2))
                        (ball_pos_y_ (game k2)) (game k2))) = scores g).
      { unfold scores. cbn. rewrite Q0, Q1, P0, P1. reflexivity. }
      split; [| split].
      * split; [intros Hne; contradiction | intros Hge; lra].
      * intros Hge. lra.
      * intros _. cbn. auto.
    + rewrite reset_eq in Hr. injection Hr as <-.
      assert (Hsc :
        score (player_contexts_
                 (incr_score (1 - player)
                    (set_ball_pos (ball_pos_x_ (game k2) - t1 * ball_dx k2)
                       (ball_pos_y_ (game k2) - t1 * ball_dy k2) (game k2)))
                 (1 - player))
          = wrap_int (score (player_contexts_ g (1 - player)) + 1) /\
        score (player_contexts_
                 (incr_score (1 - player)
                    (set_ball_pos (ball_pos_x_ (game k2) - t1 * ball_dx k2)
                       (ball_pos_y_ (game k2) - t1 * ball_dy k2) (game k2)))
                 player)
          = score (player_contexts_ g player)).
      { unfold player. destruct (gt x0 0); cbn; rewrite ?Q0, ?Q1, ?P0, ?P1; auto. }
      destruct Hsc as [Hs1 Hs2].
      cbn [point].
      set (gf := set_speed _ _).
      assert (Ef1 : score (player_contexts_ gf (1 - player)) =
                    wrap_int (score (player_contexts_ g (1 - player)) + 1)).
      { rewrite <- Hs1. unfold gf, player. destruct (gt x0 0); reflexivity. }
      assert (Ef2 : score (player_contexts_ gf player) =
                    score (player_contexts_ g player)).
      { rewrite <- Hs2. unfold gf, player. destruct (gt x0 0); reflexivity. }
      clearbody gf.
      split; [| split].
      * split; [intros _; exact Hx |]. intros _ E.
        assert (E' : score (player_contexts_ gf (1 - player))
                     = score (player_contexts_ g (1 - player))).
        { unfold scores in E. injection E as E0 E1.
          unfold player. destruct (gt x0 0); cbn; auto. }
        rewrite E' in Ef1. symmetry in Ef1. exact (wrap_int_succ_neq _ Ef1).
      * intros _. split; [reflexivity |]. split; [exact Ef1 |].
        split; [intros Hi Hlt; rewrite Ef1; apply wrap_int_succ; assumption |].
        split; [intros Em; rewrite Ef1, Em; apply wrap_int_max |].
        split; [exact Ef2 |].
        intros Hb. rewrite (Hk Hb), Ex in Hx |- *. fold x0 in Hx |- *.
        unfold player, gt. destruct (Rgt_dec x0 0) as [Hp | Hp].
        -- left. split; [reflexivity |].
           rewrite Rabs_pos_eq in Hx by lra. exact Hx.
        -- right. split; [reflexivity |].
           rewrite Rabs_left1 in Hx by lra. lra.
      * intros Hlt. lra.
  - intros side fb. apply processPaddleFeedback_scores.
  - intros r' h. apply reset_scores.
Qed.

Lemma spinOnce_game_before_point_at_max :
  exists g' ev,
    spinOnce 1 game_before_point_at_max = Some (g', ev) /\
    point ev = Some 0%nat.
Proof.
  unfold game_before_point_at_max. evaluate. rewrite reset_eq. expose.
  eexists. eexists. split; reflexivity.
Qed.

(** C6 (amended), on the tick in which the right player misses: from 0:0
    the scores go to 1:0, and with the left score at [INT_MAX] it goes to
    [INT_MIN]. *)
Lemma point_iff_past_border_example :
  (exists g' ev,
     spinOnce 1 game_before_point = Some (g', ev) /\
     point ev = Some 0%nat /\
     scores game_before_point = (0%Z, 0%Z) /\
     scores g' = (1%Z, 0%Z)) /\
  (exists g' ev,
     spinOnce 1 game_before_point_at_max = Some (g', ev) /\
     point ev = Some 0%nat /\
     scores game_before_point_at_max = (INT_MAX, 0%Z) /\
     scores g' = (INT_MIN, 0%Z)).
Proof.
  split.
  - destruct spinOnce_game_before_point as (g' & ev & H & Hp & _).
    exists g', ev. split; [exact H |]. split; [exact Hp |].
    split; [reflexivity |].
    destruct (point_iff_past_border 1 _ g' ev H) as (_ & Hact & _).
    destruct (Hact eq_refl) as (k1 & w & k2 & _ & _ & _ & Hge & Hlt).
    destruct (Rge_dec (Rabs (ball_pos_x_ (game k2)))
                (FIELD_WIDTH * 0.5 + 1.5 * BORDER_SIZE)) as [Hx | Hx].
    + destruct (Hge Hx) as (_ & _ & Hs1 & _ & Hs2 & _). revert Hs1 Hs2.
      unfold game_before_point. rewrite gt_true by (cbn; lra). cbn.
      unfold scores. destruct g' as [[? ? s0] [? ? s1] ? ? ? ? ? ? ?]. cbn.
      intros Hs1 ->. rewrite Hs1; [reflexivity | |];
        unfold is_int, INT_MIN, INT_MAX; lia.
    + destruct Hlt as [Hn _]; [lra |]. rewrite Hn in Hp. discriminate.
  - destruct spinOnce_game_before_point_at_max as (g' & ev & H & Hp).
    exists g', ev. split; [exact H |]. split; [exact Hp |].
    split; [reflexivity |].
    destruct (point_iff_past_border 1 _ g' ev H) as (_ & Hact & _).
    destruct (Hact eq_refl) as (k1 & w & k2 & _ & _ & _ & Hge & Hlt).
    destruct (Rge_dec (Rabs (ball_pos_x_ (game k2)))
                (FIELD_WIDTH * 0.5 + 1.5 * BORDER_SIZE)) as [Hx | Hx].
    + destruct (Hge Hx) as (_ & _ & _ & Hs1 & Hs2 & _). revert Hs1 Hs2.
      unfold game_before_point_at_max. rewrite gt_true by (cbn; lra). cbn.
      unfold scores. destruct g' as [[? ? s0] [? ? s1] ? ? ? ? ? ? ?]. cbn.
      intros Hs1 ->. rewrite Hs1; reflexivity.
    + destruct Hlt as [Hn _]; [lra |]. rewrite Hn in Hp. discriminate.
Defined.

(** ** When a tick is defined

    A tick leaves the reals only through a division by zero.  Between two
    ticks [last_ball_pos] holds the ball position and the ball is short of
    the outer border; from such a game the tick is defined unless the ball
    sits beyond a wall without moving vertically. *)

Lemma reflect_defined pos last_pos limit t0 :
  (pos > limit \/ - pos > limit -> pos <> last_pos) ->
  exists hit t1, reflect pos last_pos limit t0 = Some (hit, t1).
Proof.
  intros H. unfold reflect, gt.
  destruct (Rgt_dec pos limit) as [Hp | Hp].
  - rewrite fdiv_some by (specialize (H (or_introl Hp)); lra). cbn. eauto.
  - destruct (Rgt_dec (- pos) limit) as [Hn | Hn].
    + rewrite fdiv_some by (specialize (H (or_intror Hn)); lra). cbn. eauto.
    + eauto.
Qed.

Lemma limit_angle_defined g : exists g', limit_angle g = Some g'.
Proof.
  unfold limit_angle. destruct (gt _ _); [| eauto]. cbv zeta.
  rewrite normalizeVel_signs; [eauto | |]; cbn.
  - destruct (sign_or_minus_cases (ball_dir_x_ g)) as [[_ ->] | [_ ->]]; auto.
  - destruct (sign_or_minus_cases (ball_dir_y_ g)) as [[_ ->] | [_ ->]]; auto.
Qed.

Lemma Rabs_lt_inv a b : Rabs a < b -> - b < a < b.
Proof. unfold Rabs. destruct (Rcase_abs a); lra. Qed.

Lemma Rabs_ge_inv a b : Rabs a >= b -> a >= b \/ a <= - b.
Proof. unfold Rabs. destruct (Rcase_abs a); lra. Qed.

Lemma bounce_walls_defined g :
  synced g ->
  Rabs (ball_pos_y_ g) <= FIELD_HEIGHT * 0.5 \/ speed_ g * ball_dir_y_ g <> 0 ->
  exists k1 w, bounce_walls (move_ball g) = Some (k1, w).
Proof.
  intros [_ Sy] Hy. unfold bounce_walls. cbv zeta.
  destruct (reflect_defined
              (ball_pos_y_ (game (move_ball g)))
              (last_ball_pos_y_ (game (move_ball g)))
              (FIELD_HEIGHT * 0.5) (t (move_ball g))) as (hit & t1 & ->).
  - cbn. rewrite Sy. intros Hout E.
    assert (E0 : speed_ g * ball_dir_y_ g = 0) by lra.
    destruct Hy as [Hy | Hy]; [| contradiction].
    rewrite E0, Rplus_0_r in Hout.
    unfold Rabs in Hy. destruct (Rcase_abs _); lra.
  - cbn [bind]. destruct hit; eauto.
Qed.

Lemma bounce_paddles_defined player g k1 w :
  synced g ->
  bounce_walls (move_ball g) = Some (k1, w) ->
  exists k2 b, bounce_paddles player k1 = Some (k2, b).
Proof.
  intros [Sx _] H1.
  pose proof (bounce_walls_move _ _ _ H1) as Hm. cbv zeta in Hm.
  destruct Hm as (_ & _ & Lx & _ & Ex & Dx & _).
  unfold bounce_paddles. cbv zeta.
  destruct (crossed_goal_line (game k1)) eqn:Hc; [| eauto].
  destruct (paddle_in_place player (game k1)) eqn:Hin; [| eauto].
  apply paddle_in_place_iff in Hin. destruct Hin as (paddle & Epd & _).
  unfold crossed_goal_line in Hc. apply andb_prop in Hc as [Hl Hg].
  apply lt_iff, Rabs_lt_inv in Hl. apply ge_iff, Rabs_ge_inv in Hg.
  destruct (reflect_defined (ball_pos_x_ (game k1)) (last_ball_pos_x_ (game k1))
              (FIELD_WIDTH * 0.5) (t k1)) as (hit & t1 & ->).
  { intros _ E. rewrite E in Hg. lra. }
  cbn [bind].
  replace (pos (player_contexts_
                  (set_ball_pos (ball_pos_x_ (game k1) - t1 * ball_dx k1)
                     (ball_pos_y_ (game k1) - t1 * ball_dy k1) (game k1)) player))
    with (Finite paddle) by (rewrite <- Epd; destruct player; reflexivity).
  cbn [finite bind].
  match goal with
  | |- context [normalizeVel ?G] =>
      destruct (normalizeVel_defined G) as (g1 & ->)
  end.
  { left. cbn. rewrite Dx. intros E.
    assert (E0 : ball_dir_x_ g = 0) by lra.
    assert (E1 : ball_pos_x_ (game k1) = last_ball_pos_x_ (game k1))
      by (rewrite Ex, Lx, E0, Sx; ring).
    rewrite E1 in Hg. lra. }
  cbn [bind]. destruct (limit_angle_defined g1) as (g2 & ->).
  cbn [bind]. eauto.
Qed.

Lemma score_or_update_defined r player k2 :
  Rabs (last_ball_pos_x_ (game k2)) < FIELD_WIDTH * 0.5 + 1.5 * BORDER_SIZE ->
  exists g2 pt pose, score_or_update r player k2 = Some (g2, pt, pose).
Proof.
  intros Hl. apply Rabs_lt_inv in Hl. unfold score_or_update. cbv zeta.
  destruct (ge _ _); [| eauto].
  destruct (reflect_defined (ball_pos_x_ (game k2)) (last_ball_pos_x_ (game k2))
              (FIELD_WIDTH * 0.5 + 1.5 * BORDER_SIZE) (t k2)) as (hit & t1 & ->).
  { intros Hout E. rewrite E in Hout. lra. }
  cbn [bind]. rewrite reset_eq. cbn [bind]. eauto.
Qed.

Lemma spinOnce_defined r g :
  synced g ->
  Rabs (ball_pos_x_ g) < FIELD_WIDTH * 0.5 + 1.5 * BORDER_SIZE ->
  Rabs (ball_pos_y_ g) <= FIELD_HEIGHT * 0.5 \/ speed_ g * ball_dir_y_ g <> 0 ->
  exists g' ev, spinOnce r g = Some (g', ev).
Proof.
  intros S Hx Hy. unfold spinOnce.
  destruct (active (player_contexts_ g 0) && active (player_contexts_ g 1));
    [| eauto].
  cbv zeta.
  destruct (bounce_walls_defined g S Hy) as (k1 & w & H1). rewrite H1. cbn [bind].
  destruct (bounce_paddles_defined (player_of (game k1)) g k1 w S H1)
    as (k2 & b & H2).
  rewrite H2. cbn [bind].
  destruct (score_or_update_defined r (player_of (game k1)) k2) as (g2 & pt & pose & H3).
  { pose proof (bounce_walls_move _ _ _ H1) as Hm. cbv zeta in Hm.
    destruct Hm as (_ & _ & Lx & _).
    assert (E : last_ball_pos_x_ (game k2) = last_ball_pos_x_ (game k1)).
    { apply bounce_paddles_inv in H2. cbv zeta in H2.
      destruct H2 as [(_ & -> & _) | (_ & _ & _ & pd0 & Epd0 & hit & t1 & g1 & g3 & _ & Hn & Hl & ->)];
        [reflexivity |].
      apply normalizeVel_scales in Hn. destruct Hn as (c & _ & _ & _ & Eg1).
      apply limit_angle_inv in Hl.
      destruct Hl as [(_ & ->) | (_ & ->)]; cbn; rewrite Eg1; reflexivity. }
    rewrite E, Lx. destruct S as [-> _]. exact Hx. }
  rewrite H3. cbn [bind]. eauto.
Qed.

(** The conditions on the ball between two ticks are kept by a tick. *)
Lemma spinOnce_between_ticks r g g' ev :
  spinOnce r g = Some (g', ev) ->
  synced g /\ Rabs (ball_pos_x_ g) < FIELD_WIDTH * 0.5 + 1.5 * BORDER_SIZE ->
  synced g' /\ Rabs (ball_pos_x_ g') < FIELD_WIDTH * 0.5 + 1.5 * BORDER_SIZE.
Proof.
  intros H [S Hx].
  destruct (both_active g) eqn:Ha.
  2:{ rewrite (spinOnce_inactive _ _ Ha) in H. injection H as <- <-. auto. }
  apply spinOnce_inv in H; [| exact Ha].
  destruct H as (k1 & w & k2 & b & g2 & pt & pose & H1 & H2 & H3 & -> & ->).
  split; [split; reflexivity |]. cbn.
  apply score_or_update_inv in H3. cbv zeta in H3.
  destruct H3 as [(Hlt & _ & -> & _) | (_ & _ & hit & t1 & _ & _ & Hr)];
    [exact Hlt |].
  rewrite reset_eq in Hr. injection Hr as <-. cbn.
  rewrite Rabs_R0. unfold FIELD_WIDTH, BORDER_SIZE. lra.
Qed.

(** * Further properties of the simulation *)

(** ** reflect *)

(** X1: when the previous position is within the limits, [reflect]
    reports a crossing exactly when the position is beyond a limit; the
    fraction [t] it then computes lies in (0, 1], and going back [t]
    times the displacement from the position lands on the limit that was
    passed. *)
Theorem reflect_fraction (pos last_pos limit t0 t1 : R) (hit : bool) :
  - limit <= last_pos <= limit ->
  reflect pos last_pos limit t0 = Some (hit, t1) ->
  (hit = true <-> Rabs pos > limit) /\
  (hit = false -> t1 = t0) /\
  (hit = true ->
   0 < t1 <= 1 /\
   (pos > limit -> pos - t1 * (pos - last_pos) = limit) /\
   (pos < - limit -> pos - t1 * (pos - last_pos) = - limit)).
Proof.
  intros Hl H. apply reflect_inv in H.
  destruct H as [(Hp & -> & Hne & Et) | [(Hp' & Hp & -> & Hne & Et) | (Hp' & Hp & -> & ->)]].
  - split; [| split].
    + split; [intros _ | reflexivity]. unfold Rabs. destruct (Rcase_abs pos); lra.
    + discriminate.
    + intros _.
      assert (E : t1 * (pos - last_pos) = pos - limit)
        by (rewrite Et; apply div_mul_cancel; exact Hne).
      assert (Hd : 0 < pos - last_pos) by lra.
      split; [split; nra |]. split; intros; lra.
  - split; [| split].
    + split; [intros _ | reflexivity]. unfold Rabs. destruct (Rcase_abs pos); lra.
    + discriminate.
    + intros _.
      assert (E : t1 * (last_pos - pos) = - pos - limit)
        by (rewrite Et; apply div_mul_cancel; exact Hne).
      assert (Hd : 0 < last_pos - pos) by lra.
      split; [split; nra |]. split; intros; lra.
  - split; [| split].
    + split; [discriminate |]. unfold Rabs. destruct (Rcase_abs pos); lra.
    + reflexivity.
    + discriminate.
Qed.

(** X1, on the ball that passes the top wall from 3.9 to 4.3. *)
Lemma reflect_fraction_example :
  reflect 4.3 3.9 4 0 = Some (true, 3 / 4) /\
  0 < 3 / 4 <= 1 /\
  4.3 - 3 / 4 * (4.3 - 3.9) = 4.
Proof.
  assert (H : reflect 4.3 3.9 4 0 = Some (true, 3 / 4)).
  { unfold reflect. rewrite gt_true by lra. rewrite fdiv_some by lra.
    cbn. f_equal. f_equal. apply div_eq; lra. }
  assert (Hl : - 4 <= 3.9 <= 4) by lra.
  destruct (reflect_fraction 4.3 3.9 4 0 (3 / 4) true Hl H) as (_ & _ & Ht).
  destruct (Ht eq_refl) as (Hr & Htop & _).
  split; [exact H |]. split; [exact Hr |]. apply Htop. lra.
Defined.

(** ** Ticks in which only the wall block can run *)

Lemma spinOnce_plain_inv r g g' ev :
  spinOnce r g = Some (g', ev) ->
  both_active g = true ->
  paddle_bounce ev = false ->
  point ev = None ->
  exists k1,
    bounce_walls (move_ball g) = Some (k1, wall_bounce ev) /\
    g' = set_speed (speed_ (game k1) + SPEED_STEP)
           (set_last_ball_pos (ball_pos_x_ (game k1)) (ball_pos_y_ (game k1))
              (game k1)).
Proof.
  intros H Ha Hb Hp. apply spinOnce_inv in H; [| exact Ha].
  destruct H as (k1 & w & k2 & b & g2 & pt & pose & H1 & H2 & H3 & -> & ->).
  cbn in Hb, Hp. subst b pt. cbn [wall_bounce].
  apply bounce_paddles_inv in H2. cbv zeta in H2.
  destruct H2 as [(_ & -> & _) | (F & _)]; [| discriminate].
  apply score_or_update_inv in H3. cbv zeta in H3.
  destruct H3 as [(_ & _ & -> & _) | (_ & F & _)]; [| discriminate].
  exists k1. auto.
Qed.

Lemma bounce_walls_mirror g k1 :
  synced g ->
  bounce_walls (move_ball g) = Some (k1, true) ->
  let y := ball_pos_y_ g + speed_ g * ball_dir_y_ g in
  ball_dir_y_ (game k1) = - ball_dir_y_ g /\
  (y > FIELD_HEIGHT * 0.5 /\ ball_pos_y_ (game k1) = FIELD_HEIGHT - y \/
   y < - (FIELD_HEIGHT * 0.5) /\ ball_pos_y_ (game k1) = - FIELD_HEIGHT - y).
Proof.
  intros [_ Sy] H y.
  apply bounce_walls_inv in H. cbv zeta in H. destruct H as (t1 & Hr & ->).
  cbn in *. fold y in Hr |- *.
  set (dy := speed_ g * ball_dir_y_ g) in *.
  replace (speed_ g * (ball_dir_y_ g * -1)) with (- dy) by (unfold dy; ring).
  split; [ring |].
  assert (Hd : y - last_ball_pos_y_ g = dy) by (unfold y; lra).
  apply reflect_inv in Hr.
  destruct Hr as [(Hy & _ & Hne & Et) | [(Hy' & Hy & _ & Hne & Et) | (_ & _ & F & _)]];
    [ | | discriminate ].
  - assert (E : t1 * dy = y - FIELD_HEIGHT * 0.5).
    { rewrite <- Hd, Et. apply div_mul_cancel. exact Hne. }
    left. unfold FIELD_HEIGHT in *. split; lra.
  - assert (E0 : t1 * (last_ball_pos_y_ g - y) = - y - FIELD_HEIGHT * 0.5)
      by (rewrite Et; apply div_mul_cancel; exact Hne).
    assert (E : t1 * dy = y + FIELD_HEIGHT * 0.5) by (rewrite <- Hd; nra).
    right. unfold FIELD_HEIGHT in *. split; lra.
Qed.

(** X2: in a tick that starts with [last_ball_pos] at the ball and in
    which the wall block runs but neither the paddle block nor the
    scoring block, the ball ends at the mirror image, in the wall, of
    the point it would have reached: x is the moved x, y is H - y beyond
    the top wall and -H - y beyond the bottom wall; direction.y changes
    sign, direction.x stays and the speed grows by 0.0002. *)
Theorem wall_bounce_mirrors (r : Z) (g g' : PongGame) (ev : Events) :
  synced g ->
  spinOnce r g = Some (g', ev) ->
  wall_bounce ev = true ->
  paddle_bounce ev = false ->
  point ev = None ->
  let x := ball_pos_x_ g + speed_ g * ball_dir_x_ g in
  let y := ball_pos_y_ g + speed_ g * ball_dir_y_ g in
  ball_pos_x_ g' = x /\
  (y > FIELD_HEIGHT * 0.5 /\ ball_pos_y_ g' = FIELD_HEIGHT - y \/
   y < - (FIELD_HEIGHT * 0.5) /\ ball_pos_y_ g' = - FIELD_HEIGHT - y) /\
  ball_dir_x_ g' = ball_dir_x_ g /\
  ball_dir_y_ g' = - ball_dir_y_ g /\
  speed_ g' = speed_ g + SPEED_STEP.
Proof.
  intros S H Hw Hb Hp x y.
  destruct (both_active g) eqn:Ha.
  2:{ rewrite (spinOnce_inactive _ _ Ha) in H. injection H as <- <-. discriminate. }
  destruct (spinOnce_plain_inv _ _ _ _ H Ha Hb Hp) as (k1 & H1 & ->).
  rewrite Hw in H1.
  pose proof (bounce_walls_move _ _ _ H1) as Hm. cbv zeta in Hm.
  destruct Hm as (_ & _ & _ & _ & Ex & Dx & _ & Es & _).
  pose proof (bounce_walls_mirror _ _ S H1) as Hmir. cbv zeta in Hmir.
  destruct Hmir as [Dy Hy]. cbn. rewrite Es. auto.
Qed.

(** X2, on the ball one tick below the top wall: from 3.9 it would
    reach 4.3 and ends at 8 - 4.3, going down. *)
Lemma wall_bounce_mirrors_example :
  exists g' ev,
    spinOnce 0 game_below_top_wall = Some (g', ev) /\
    ball_pos_x_ g' = 0 + 0.4 * 0 /\
    ball_pos_y_ g' = 8 - (3.9 + 0.4 * 1) /\
    ball_dir_y_ g' = - 1.
Proof.
  destruct spinOnce_game_below_top_wall as (g' & ev & H & Hw & Hb & Hp & _ & _).
  assert (S : synced game_below_top_wall) by (split; reflexivity).
  destruct (wall_bounce_mirrors 0 _ g' ev S H Hw Hb Hp)
    as (Ex & Ey & _ & Dy & _).
  exists g', ev. split; [exact H |]. split; [exact Ex |]. split; [| exact Dy].
  destruct Ey as [[_ Ey] | [Hlow _]]; [exact Ey |].
  exfalso. revert Hlow. unfold game_below_top_wall, FIELD_HEIGHT. cbn. lra.
Defined.

(** X3: in a tick that starts with [last_ball_pos] at the ball, with the
    ball between the walls and a vertical displacement of at most the
    field height, and in which neither the paddle block nor the scoring
    block runs, the ball ends between the walls. *)
Theorem ball_stays_between_walls (r : Z) (g g' : PongGame) (ev : Events) :
  synced g ->
  spinOnce r g = Some (g', ev) ->
  paddle_bounce ev = false ->
  point ev = None ->
  Rabs (ball_pos_y_ g) <= FIELD_HEIGHT * 0.5 ->
  Rabs (speed_ g * ball_dir_y_ g) <= FIELD_HEIGHT ->
  Rabs (ball_pos_y_ g') <= FIELD_HEIGHT * 0.5.
Proof.
  intros S H Hb Hp Hy Hd.
  destruct (both_active g) eqn:Ha.
  2:{ rewrite (spinOnce_inactive _ _ Ha) in H. injection H as <- <-. exact Hy. }
  destruct (spinOnce_plain_inv _ _ _ _ H Ha Hb Hp) as (k1 & H1 & ->).
  cbn. unfold FIELD_HEIGHT in *.
  assert (Hy' : - (8 * 0.5) <= ball_pos_y_ g <= 8 * 0.5)
    by (revert Hy; unfold Rabs; destruct (Rcase_abs _); lra).
  assert (Hd' : - 8 <= speed_ g * ball_dir_y_ g <= 8)
    by (revert Hd; unfold Rabs; destruct (Rcase_abs _); lra).
  destruct (wall_bounce ev).
  - pose proof (bounce_walls_mirror _ _ S H1) as Hmir. cbv zeta in Hmir.
    unfold FIELD_HEIGHT in Hmir.
    destruct Hmir as [_ [[Hgt ->] | [Hlt ->]]];
      unfold Rabs; destruct (Rcase_abs _); lra.
  - pose proof (bounce_walls_move _ _ _ H1) as Hm. cbv zeta in Hm.
    destruct Hm as (_ & _ & _ & _ & _ & _ & _ & _ & _ & _ & Hk).
    rewrite (Hk eq_refl). cbn.
    apply bounce_walls_inv in H1. cbv zeta in H1. destruct H1 as (t1 & Hr & _).
    cbn in Hr. apply reflect_inv in Hr.
    destruct Hr as [(_ & F & _) | [(_ & _ & F & _) | (Hle & Hge & _)]];
      try discriminate.
    unfold FIELD_HEIGHT in *. unfold Rabs. destruct (Rcase_abs _); lra.
Qed.

(** X3, on the ball one tick below the top wall. *)
Lemma ball_stays_between_walls_example :
  exists g' ev,
    spinOnce 0 game_below_top_wall = Some (g', ev) /\
    Rabs (ball_pos_y_ game_below_top_wall) <= FIELD_HEIGHT * 0.5 /\
    Rabs (ball_pos_y_ g') <= FIELD_HEIGHT * 0.5.
Proof.
  destruct spinOnce_game_below_top_wall as (g' & ev & H & Hw & Hb & Hp & _ & _).
  assert (S : synced game_below_top_wall) by (split; reflexivity).
  assert (Hy : Rabs (ball_pos_y_ game_below_top_wall) <= FIELD_HEIGHT * 0.5).
  { unfold game_below_top_wall, FIELD_HEIGHT. cbn. rewrite Rabs_pos_eq; lra. }
  assert (Hd : Rabs (speed_ game_below_top_wall * ball_dir_y_ game_below_top_wall)
               <= FIELD_HEIGHT).
  { unfold game_below_top_wall, FIELD_HEIGHT. cbn. rewrite Rabs_pos_eq; lra. }
  exists g', ev. split; [exact H |]. split; [exact Hy |].
  exact (ball_stays_between_walls 0 _ g' ev S H Hb Hp Hy Hd).
Defined.

(** ** Ticks in which the paddle block runs *)

(** After a paddle bounce alone the ball is within one speed of the goal
    line it passed, on the field side. *)
Lemma bounce_paddles_range player g k2 B :
  synced g ->
  unit_dir g ->
  Rabs (speed_ g) <= B ->
  bounce_paddles player (move_ball g) = Some (k2, true) ->
  let x := ball_pos_x_ g + speed_ g * ball_dir_x_ g in
  (x > 0 -> FIELD_WIDTH * 0.5 - B <= ball_pos_x_ (game k2) <= FIELD_WIDTH * 0.5) /\
  (x <= 0 ->
   - (FIELD_WIDTH * 0.5) <= ball_pos_x_ (game k2) <= - (FIELD_WIDTH * 0.5) + B).
Proof.
  intros [Sx _] U HB H x.
  assert (HB0 : 0 <= B) by (pose proof (Rabs_pos (speed_ g)); lra).
  apply bounce_paddles_inv in H. cbv zeta in H.
  destruct H as [(F & _) | (_ & Hc & _ & pd0 & Epd0 & hit & t1 & g1 & g2 & Hr & Hn & Hl & ->)];
    [discriminate |].
  unfold crossed_goal_line in Hc. cbn in Hc, Hr, Hn |- *. fold x in Hc, Hr, Hn.
  apply andb_prop in Hc as [Hlast Hx]. apply lt_iff in Hlast. apply ge_iff in Hx.
  set (d := ball_dir_x_ g) in *. set (s := speed_ g) in *.
  apply Rabs_lt_inv in Hlast. apply Rabs_ge_inv in Hx.
  assert (Hdx : x - last_ball_pos_x_ g = s * d) by (unfold x; lra).
  pose proof (normalizeVel_unit _ _ Hn) as U1.
  pose proof (limit_angle_unit _ _ U1 Hl) as U2.
  apply normalizeVel_scales in Hn. destruct Hn as (c & Hc & Ex & _ & Eg1).
  cbn in Ex.
  assert (Hd0 : d <> 0) by (intros E; rewrite E in Hdx; lra).
  assert (H1 : ball_dir_x_ g1 <> 0) by (rewrite Ex; nra).
  pose proof (limit_angle_sign_x _ _ Hl H1) as H2. rewrite Ex in H2.
  assert (Hs2 : speed_ g2 = s /\ ball_pos_x_ g2 = x - t1 * (s * d)).
  { apply limit_angle_inv in Hl. rewrite Eg1 in Hl.
    destruct Hl as [(_ & ->) | (_ & ->)]; cbn; auto. }
  destruct Hs2 as [-> ->].
  unfold unit_dir in U2. set (a := ball_dir_x_ g2) in *.
  set (b := ball_dir_y_ g2) in *.
  assert (Ha1 : a * a <= 1) by nra.
  assert (Had : a * d < 0) by nra.
  assert (Hsa : (s * a) * (d * d) = (s * d) * (a * d)) by ring.
  assert (Hdd : 0 < d * d) by nra.
  assert (HsB : - B <= s <= B) by (revert HB; unfold Rabs; destruct (Rcase_abs s); lra).
  assert (Hq : - B <= s * a <= B).
  { assert ((s * a) * (s * a) <= B * B) by nra. split; nra. }
  unfold FIELD_WIDTH in *.
  apply reflect_inv in Hr.
  destruct Hr as [(Hy & _ & Hne & Et) | [(Hy' & Hy & _ & Hne & Et) | (Hy' & Hy & _ & Et)]].
  - assert (E : t1 * (s * d) = x - 12 * 0.5).
    { rewrite <- Hdx, Et. apply div_mul_cancel. exact Hne. }
    assert (Hsd : 0 < s * d) by lra.
    assert (Ht : 0 < t1 <= 1) by (split; nra).
    assert (Hneg : s * a < 0) by nra.
    split; intros; split; nra.
  - assert (E0 : t1 * (last_ball_pos_x_ g - x) = - x - 12 * 0.5)
      by (rewrite Et; apply div_mul_cancel; exact Hne).
    assert (E : t1 * (s * d) = x + 12 * 0.5) by (rewrite <- Hdx; nra).
    assert (Hsd : s * d < 0) by lra.
    assert (Ht : 0 < t1 <= 1) by (split; nra).
    assert (Hpos : 0 < s * a) by nra.
    split; intros; split; nra.
  - subst t1. split; intros; split; lra.
Qed.

(** X4: in a tick that starts with [last_ball_pos] at the ball and a unit
    direction, with a speed below W + 1.5 * BORDER, and in which the
    paddle block runs but not the wall block, no point is scored: a ball
    the paddle returns never counts against that paddle. *)
Theorem returned_ball_scores_no_point (r : Z) (g g' : PongGame) (ev : Events) :
  synced g ->
  unit_dir g ->
  Rabs (speed_ g) < FIELD_WIDTH + 1.5 * BORDER_SIZE ->
  spinOnce r g = Some (g', ev) ->
  paddle_bounce ev = true ->
  wall_bounce ev = false ->
  point ev = None /\ scores g' = scores g /\
  Rabs (ball_pos_x_ g') < OUTER_LIMIT.
Proof.
  intros S U Hs H Hb Hw.
  destruct (both_active g) eqn:Ha.
  2:{ rewrite (spinOnce_inactive _ _ Ha) in H. injection H as <- <-. discriminate. }
  apply spinOnce_inv in H; [| exact Ha].
  destruct H as (k1 & w & k2 & b & g2 & pt & pose & H1 & H2 & H3 & -> & ->).
  cbn in Hb, Hw. subst b w.
  pose proof (bounce_walls_move _ _ _ H1) as Hm. cbv zeta in Hm.
  destruct Hm as (P0 & P1 & _ & _ & _ & _ & _ & _ & _ & _ & Hk).
  rewrite (Hk eq_refl) in *.
  pose proof (bounce_paddles_players _ _ _ _ H2) as (Q0 & Q1 & _).
  pose proof (bounce_paddles_range _ _ _ (Rabs (speed_ g)) S U (Rle_refl _) H2) as Hx.
  cbv zeta in Hx.
  assert (Hlt : Rabs (ball_pos_x_ (game k2)) < OUTER_LIMIT).
  { unfold OUTER_LIMIT, FIELD_WIDTH, BORDER_SIZE in *.
    pose proof (Rabs_pos (speed_ g)) as Hp.
    destruct (Rgt_dec (ball_pos_x_ g + speed_ g * ball_dir_x_ g) 0) as [Hpos | Hneg].
    - destruct Hx as [Hx _]. specialize (Hx Hpos).
      unfold Rabs at 1. destruct (Rcase_abs _); lra.
    - destruct Hx as [_ Hx]. assert (Hle : ball_pos_x_ g + speed_ g * ball_dir_x_ g <= 0) by lra.
      specialize (Hx Hle). unfold Rabs at 1. destruct (Rcase_abs _); lra. }
  apply score_or_update_inv in H3. cbv zeta in H3.
  destruct H3 as [(_ & -> & -> & _) | (Hge & _)].
  - cbn [point]. split; [reflexivity |]. split; [| exact Hlt].
    unfold scores. cbn. rewrite Q0, Q1. reflexivity.
  - unfold OUTER_LIMIT in Hlt. lra.
Qed.

(** X4, on the ball that flies level into the right paddle. *)
Lemma returned_ball_scores_no_point_example :
  exists g' ev,
    spinOnce 0 game_facing_paddle = Some (g', ev) /\
    paddle_bounce ev = true /\
    point ev = None /\ scores g' = scores game_facing_paddle.
Proof.
  destruct spinOnce_game_facing_paddle as (g' & ev & H & Hw & Hb & _).
  assert (S : synced game_facing_paddle) by (split; reflexivity).
  assert (U : unit_dir game_facing_paddle)
    by (unfold unit_dir, game_facing_paddle; cbn; lra).
  assert (Hs : Rabs (speed_ game_facing_paddle) < FIELD_WIDTH + 1.5 * BORDER_SIZE).
  { unfold game_facing_paddle, FIELD_WIDTH, BORDER_SIZE. cbn.
    rewrite Rabs_pos_eq; lra. }
  destruct (returned_ball_scores_no_point 0 _ g' ev S U Hs H Hb Hw) as (Hp & Hsc & _).
  exists g', ev. auto.
Defined.

(** ** Points *)

(** X5: in a tick that starts between two ticks (with [last_ball_pos] at
    the ball and the ball short of the outer border), with a positive
    speed, and in which a point is scored without a paddle bounce: the
    ball left on the right and the left player (0) scores, or it left on
    the left and the right player (1) scores; the ball is served toward
    the side it left on, that is toward the player who missed. *)
Theorem point_goes_to_other_side (r : Z) (g g' : PongGame) (ev : Events) (p : nat) :
  synced g ->
  Rabs (ball_pos_x_ g) < OUTER_LIMIT ->
  0 < speed_ g ->
  spinOnce r g = Some (g', ev) ->
  paddle_bounce ev = false ->
  point ev = Some p ->
  let x := ball_pos_x_ g + speed_ g * ball_dir_x_ g in
  (x >= OUTER_LIMIT /\ p = 0%nat /\ 0 < ball_dir_x_ g') \/
  (x <= - OUTER_LIMIT /\ p = 1%nat /\ ball_dir_x_ g' < 0).
Proof.
  intros [Sx _] Hx0 Hs H Hb Hp x.
  destruct (both_active g) eqn:Ha.
  2:{ rewrite (spinOnce_inactive _ _ Ha) in H. injection H as <- <-. discriminate. }
  apply spinOnce_inv in H; [| exact Ha].
  destruct H as (k1 & w & k2 & b & g2 & pt & pose & H1 & H2 & H3 & -> & ->).
  cbn in Hb, Hp. subst b pt.
  pose proof (bounce_walls_move _ _ _ H1) as Hm. cbv zeta in Hm.
  destruct Hm as (_ & _ & _ & _ & Ex & Dx & _).
  pose proof (bounce_paddles_players _ _ _ _ H2) as (_ & _ & Hk).
  rewrite (Hk eq_refl) in *.
  apply score_or_update_inv in H3. cbv zeta in H3.
  destruct H3 as [(_ & F & _) | (Hge & Hpt & hit & t1 & _ & _ & Hr)];
    [discriminate |].
  injection Hpt as ->.
  rewrite reset_eq in Hr. injection Hr as <-.
  cbn [ball_dir_x_ set_speed set_last_ball_pos].
  match goal with
  | |- context [ball_dir_x_ (incr_score ?q ?h)] =>
      replace (ball_dir_x_ (incr_score q h)) with (ball_dir_x_ g)
        by (rewrite <- Dx; unfold incr_score; destruct q; reflexivity)
  end.
  rewrite Ex in Hge. fold x in Hge.
  unfold player_of. rewrite Ex. fold x.
  apply Rabs_lt_inv in Hx0. apply Rabs_ge_inv in Hge.
  fold OUTER_LIMIT in Hge.
  assert (HO : 0 < OUTER_LIMIT)
    by (unfold OUTER_LIMIT, FIELD_WIDTH, BORDER_SIZE; lra).
  pose proof sqrt2_pos as Hq.
  assert (Hi : 0 < / sqrt 2) by (apply Rinv_0_lt_compat; exact Hq).
  destruct Hge as [Hge | Hle]; [left | right].
  - assert (Hd : 0 < ball_dir_x_ g) by (unfold x in Hge; nra).
    rewrite gt_true by lra. split; [exact Hge |]. split; [reflexivity |].
    unfold sign_or_minus. rewrite gt_true by lra. unfold Rdiv. lra.
  - assert (Hd : ball_dir_x_ g < 0) by (unfold x in Hle; nra).
    rewrite gt_false by lra. split; [exact Hle |]. split; [reflexivity |].
    unfold sign_or_minus. rewrite gt_false by lra. unfold Rdiv. lra.
Qed.

(** X5, on the tick in which the right player misses. *)
Lemma point_goes_to_other_side_example :
  exists g' ev,
    spinOnce 1 game_before_point = Some (g', ev) /\
    point ev = Some 0%nat /\
    0 < ball_dir_x_ g'.
Proof.
  destruct spinOnce_game_before_point as (g' & ev & H & Hp & _).
  assert (S : synced game_before_point) by (split; reflexivity).
  assert (Hx : Rabs (ball_pos_x_ game_before_point) < OUTER_LIMIT).
  { unfold game_before_point, OUTER_LIMIT, FIELD_WIDTH, BORDER_SIZE. cbn.
    rewrite Rabs_pos_eq; lra. }
  assert (Hs : 0 < speed_ game_before_point)
    by (unfold game_before_point; cbn; lra).
  assert (Hb : paddle_bounce ev = false).
  { destruct (paddle_bounce ev) eqn:E; [| reflexivity]. exfalso.
    apply spinOnce_inv in H; [| reflexivity].
    destruct H as (k1 & w & k2 & b & g2 & pt & pose & H1 & H2 & _ & _ & ->).
    cbn in E. subst b.
    pose proof (bounce_walls_move _ _ _ H1) as Hm. cbv zeta in Hm.
    destruct Hm as (_ & _ & Lx & _).
    apply bounce_paddles_inv in H2. cbv zeta in H2.
    destruct H2 as [(F & _) | (_ & Hc & _)]; [discriminate |].
    unfold crossed_goal_line in Hc. apply andb_prop in Hc as [Hl _].
    apply lt_iff in Hl. rewrite Lx in Hl. revert Hl.
    unfold game_before_point, FIELD_WIDTH. cbn. rewrite Rabs_pos_eq; lra. }
  destruct (point_goes_to_other_side 1 _ g' ev 0 S Hx Hs H Hb Hp)
    as [(_ & _ & Hd) | (_ & F & _)]; [| discriminate].
  exists g', ev. auto.
Defined.

(** ** What a tick does to the players and the speed *)

Lemma bounce_paddles_keeps player k k' b :
  bounce_paddles player k = Some (k', b) ->
  last_ball_pos_x_ (game k') = last_ball_pos_x_ (game k) /\
  last_ball_pos_y_ (game k') = last_ball_pos_y_ (game k) /\
  speed_ (game k') = speed_ (game k).
Proof.
  intros H. apply bounce_paddles_inv in H. cbv zeta in H.
  destruct H as [(_ & -> & _) | (_ & _ & _ & pd0 & Epd0 & hit & t1 & g1 & g2 & _ & Hn & Hl & ->)];
    [auto |].
  apply normalizeVel_scales in Hn. destruct Hn as (c & _ & _ & _ & Eg1).
  apply limit_angle_inv in Hl.
  destruct Hl as [(_ & ->) | (_ & ->)]; cbn; rewrite Eg1; cbn; auto.
Qed.

Lemma spinOnce_players r g g' ev :
  spinOnce r g = Some (g', ev) ->
  pos (player0 g') = pos (player0 g) /\
  active (player0 g') = active (player0 g) /\
  pos (player1 g') = pos (player1 g) /\
  active (player1 g') = active (player1 g) /\
  ((point ev = None /\ scores g' = scores g) \/
   (point ev = Some 0%nat /\
    scores g' = (wrap_int (score (player0 g) + 1), score (player1 g))) \/
   (point ev = Some 1%nat /\
    scores g' = (score (player0 g), wrap_int (score (player1 g) + 1)))).
Proof.
  intros H.
  destruct (both_active g) eqn:Ha.
  2:{ rewrite (spinOnce_inactive _ _ Ha) in H. injection H as <- <-.
      repeat split; auto. }
  apply spinOnce_inv in H; [| exact Ha].
  destruct H as (k1 & w & k2 & b & g2 & pt & pose & H1 & H2 & H3 & -> & ->).
  pose proof (bounce_walls_move _ _ _ H1) as Hm. cbv zeta in Hm.
  destruct Hm as (P0 & P1 & _).
  pose proof (bounce_paddles_players _ _ _ _ H2) as (Q0 & Q1 & _).
  unfold scores. rewrite <- P0, <- P1, <- Q0, <- Q1.
  apply score_or_update_inv in H3. cbv zeta in H3.
  destruct H3 as [(_ & -> & -> & _) | (_ & -> & hit & t1 & _ & _ & Hr)].
  - cbn. repeat split; auto.
  - rewrite reset_eq in Hr. injection Hr as <-.
    unfold player_of. destruct (gt _ _); cbn; repeat split; auto.
Qed.

Lemma spinOnce_speed r g g' ev :
  spinOnce r g = Some (g', ev) ->
  both_active g = true ->
  speed_ g' = match point ev with
              | None => speed_ g
              | Some _ => 5 * UPDATE_RATE
              end + SPEED_STEP.
Proof.
  intros H Ha. apply spinOnce_inv in H; [| exact Ha].
  destruct H as (k1 & w & k2 & b & g2 & pt & pose & H1 & H2 & H3 & -> & ->).
  pose proof (bounce_walls_move _ _ _ H1) as Hm. cbv zeta in Hm.
  destruct Hm as (_ & _ & _ & _ & _ & _ & _ & Es & _).
  pose proof (bounce_paddles_keeps _ _ _ _ H2) as (_ & _ & Es2).
  apply score_or_update_inv in H3. cbv zeta in H3.
  destruct H3 as [(_ & -> & -> & _) | (_ & -> & hit & t1 & _ & _ & Hr)].
  - cbn. rewrite Es2, Es. reflexivity.
  - rewrite reset_eq in Hr. injection Hr as <-. reflexivity.
Qed.

(** ** Sequences of calls *)

(** While the scores have room for the ticks of a sequence of calls,
    each grows by at most the number of ticks. *)
Lemma run_scores ops :
  forall g g',
    run ops g = Some g' ->
    is_int (score (player0 g)) ->
    is_int (score (player1 g)) ->
    (score (player0 g) + Z.of_nat (count_spins ops) <= INT_MAX)%Z ->
    (score (player1 g) + Z.of_nat (count_spins ops) <= INT_MAX)%Z ->
    (score (player0 g) <= score (player0 g')
       <= score (player0 g) + Z.of_nat (count_spins ops))%Z /\
    (score (player1 g) <= score (player1 g')
       <= score (player1 g) + Z.of_nat (count_spins ops))%Z /\
    (total_score g' <= total_score g + Z.of_nat (count_spins ops))%Z.
Proof.
  induction ops as [| op ops IH]; intros g g' H I0 I1 B0 B1.
  - injection H as <-. unfold total_score. cbn. lia.
  - destruct op as [r | player fb]; cbn [run count_spins] in *.
    + unbind H a Ha. destruct a as [g1 ev].
      pose proof (spinOnce_players _ _ _ _ Ha) as (_ & _ & _ & _ & Hs).
      assert (W0 : wrap_int (score (player0 g) + 1) = (score (player0 g) + 1)%Z)
        by (apply wrap_int_succ; [exact I0 | lia]).
      assert (W1 : wrap_int (score (player1 g) + 1) = (score (player1 g) + 1)%Z)
        by (apply wrap_int_succ; [exact I1 | lia]).
      rewrite W0, W1 in Hs. clear W0 W1.
      specialize (IH _ _ H).
      unfold total_score, scores, is_int, INT_MIN in *.
      destruct Hs as [(_ & E) | [(_ & E) | (_ & E)]];
        injection E as E0 E1; rewrite E0, E1 in IH;
        destruct IH as (J0 & J1 & Jt); lia.
    + specialize (IH _ _ H).
      pose proof (processPaddleFeedback_scores player fb g) as E.
      unfold total_score, scores in *. injection E as E0 E1.
      rewrite E0, E1 in IH. destruct IH as (J0 & J1 & Jt); auto.
Qed.

(** X6: over any sequence of ticks and paddle callbacks on a game whose
    scores are [int]s with room for the ticks (each score plus the number
    of ticks is at most [INT_MAX], so that no [score++] wraps), no score
    goes down, and the two scores together go up by at most the number of
    ticks. *)
Theorem scores_only_grow (ops : list Op) (g g' : PongGame) :
  run ops g = Some g' ->
  is_int (score (player0 g)) ->
  is_int (score (player1 g)) ->
  (score (player0 g) + Z.of_nat (count_spins ops) <= INT_MAX)%Z ->
  (score (player1 g) + Z.of_nat (count_spins ops) <= INT_MAX)%Z ->
  (score (player0 g) <= score (player0 g'))%Z /\
  (score (player1 g) <= score (player1 g'))%Z /\
  (total_score g' <= total_score g + Z.of_nat (count_spins ops))%Z.
Proof.
  intros H I0 I1 B0 B1.
  destruct (run_scores _ _ _ H I0 I1 B0 B1) as (J0 & J1 & Jt).
  repeat split; [apply J0 | apply J1 | exact Jt].
Qed.

(** X6, on the tick in which the right player misses. *)
Lemma scores_only_grow_example :
  exists g',
    run [Spin 1] game_before_point = Some g' /\
    (score (player0 game_before_point) <= score (player0 g'))%Z /\
    (total_score g' <= total_score game_before_point + 1)%Z.
Proof.
  destruct spinOnce_game_before_point as (g' & ev & H & _).
  assert (Hr : run [Spin 1] game_before_point = Some g').
  { cbn [run]. rewrite H. reflexivity. }
  assert (Hi : is_int 0) by (unfold is_int, INT_MIN, INT_MAX; lia).
  assert (Hb : (0 + Z.of_nat (count_spins [Spin 1]) <= INT_MAX)%Z)
    by (unfold INT_MAX; cbn; lia).
  destruct (scores_only_grow _ _ _ Hr Hi Hi Hb Hb) as (H0 & _ & Ht).
  exists g'. auto.
Defined.

(** ** The paddle callback, in full *)

Lemma processPaddleFeedback_eq player fb g :
  (player <= 1)%nat ->
  processPaddleFeedback player fb g =
  set_player player
    (mkPlayer (clamp_paddle (pose_position_y fb))
       (next_active (event_type fb) (active (player_contexts_ g player)))
       (score (player_contexts_ g player))) g.
Proof.
  intros Hp. unfold processPaddleFeedback.
  assert (E : Nat.ltb 1 player = false) by (apply Nat.ltb_ge; exact Hp).
  rewrite E. cbv zeta. destruct (event_type fb); reflexivity.
Qed.

Lemma processPaddleFeedback_out_of_range player fb g :
  (1 < player)%nat -> processPaddleFeedback player fb g = g.
Proof.
  intros Hp. unfold processPaddleFeedback.
  assert (E : Nat.ltb 1 player = true) by (apply Nat.ltb_lt; exact Hp).
  rewrite E. reflexivity.
Qed.

(** ** No play before both players have released *)

(** X7: while one of the two players is inactive and sends no MOUSE_UP,
    every sequence of ticks and paddle callbacks is defined and leaves
    the ball (positions, direction, speed) and the scores as they were;
    that player is still inactive afterwards. *)
Theorem no_play_before_release (p : nat) (ops : list Op) (g : PongGame) :
  (p <= 1)%nat ->
  active (player_contexts_ g p) = false ->
  forallb (fun op => negb (is_release p op)) ops = true ->
  exists g',
    run ops g = Some g' /\
    ball g' = ball g /\
    scores g' = scores g /\
    active (player_contexts_ g' p) = false.
Proof.
  intros Hp. revert g. induction ops as [| op ops IH]; intros g Ha Hops.
  - exists g. cbn. auto.
  - cbn [forallb] in Hops. apply andb_prop in Hops as [Hop Hops].
    destruct op as [r | q fb]; cbn [run].
    + assert (Hb : both_active g = false).
      { unfold both_active.
        assert (Hc : p = 0%nat \/ p = 1%nat) by lia.
        destruct Hc as [-> | ->]; rewrite Ha;
          [reflexivity | apply andb_false_r]. }
      rewrite (spinOnce_inactive _ _ Hb). cbn [bind].
      apply IH; assumption.
    + destruct (IH (processPaddleFeedback q fb g)) as (g' & Hr & Hball & Hsc & Hact).
      * destruct (Nat.ltb 1 q) eqn:Hq.
        { apply Nat.ltb_lt in Hq.
          rewrite processPaddleFeedback_out_of_range by exact Hq. exact Ha. }
        apply Nat.ltb_ge in Hq.
        rewrite processPaddleFeedback_eq by exact Hq.
        cbn [is_release] in Hop.
        assert (Hc : p = 0%nat \/ p = 1%nat) by lia.
        assert (Hd : q = 0%nat \/ q = 1%nat) by lia.
        destruct Hc as [-> | ->]; destruct Hd as [-> | ->]; cbn in Hop |- *;
          try exact Ha; cbn in Ha; rewrite Ha;
          destruct (event_type fb); cbn in Hop |- *; auto; discriminate.
      * exact Hops.
      * exists g'. split; [exact Hr |].
        rewrite Hball, Hsc, processPaddleFeedback_ball, processPaddleFeedback_scores.
        auto.
Qed.

(** X7, on a game in which player 1 has not released yet: ticks and
    callbacks, among them a MOUSE_UP of player 0, move nothing. *)
Lemma no_play_before_release_example :
  exists g',
    run [Spin 0; PaddleFeedback 1 (mkFeedback 2 POSE_UPDATE); Spin 0;
         PaddleFeedback 0 (mkFeedback 0 MOUSE_UP); Spin 3] game_waiting
      = Some g' /\
    ball g' = ball game_waiting /\
    scores g' = scores game_waiting.
Proof.
  destruct (no_play_before_release 1
              [Spin 0; PaddleFeedback 1 (mkFeedback 2 POSE_UPDATE); Spin 0;
               PaddleFeedback 0 (mkFeedback 0 MOUSE_UP); Spin 3] game_waiting)
    as (g' & Hr & Hb & Hs & _); [lia | reflexivity | reflexivity |].
  exists g'. auto.
Defined.

(** X8: [processPaddleFeedback] with a player above 1 changes nothing.
    For player 0 or 1 it stores the y of the feedback pose saturated to
    [-(H - PADDLE) / 2, (H - PADDLE) / 2] when y is a number (y itself
    when it is in the range), the nearer end of the range when y is an
    infinity, and the NaN when y is a NaN; it clears the active flag on
    MOUSE_DOWN, sets it on MOUSE_UP and keeps it on every other event,
    and leaves the score of that player and the whole context of the
    other player alone. *)
Theorem paddle_callback_effect (player : nat) (fb : Feedback) (g : PongGame) :
  let g' := processPaddleFeedback player fb g in
  let y := pose_position_y fb in
  ((1 < player)%nat -> g' = g) /\
  ((player <= 1)%nat ->
   pos (player_contexts_ g' player)
     = match y with
       | Finite r => Finite (Rmax (- PADDLE_LIMIT) (Rmin PADDLE_LIMIT r))
       | PlusInfinity => Finite PADDLE_LIMIT
       | MinusInfinity => Finite (- PADDLE_LIMIT)
       | NaN => NaN
       end /\
   (forall r, y = Finite r -> - PADDLE_LIMIT <= r <= PADDLE_LIMIT ->
              pos (player_contexts_ g' player) = y) /\
   (event_type fb = MOUSE_DOWN -> active (player_contexts_ g' player) = false) /\
   (event_type fb = MOUSE_UP -> active (player_contexts_ g' player) = true) /\
   (event_type fb <> MOUSE_DOWN -> event_type fb <> MOUSE_UP ->
    active (player_contexts_ g' player) = active (player_contexts_ g player)) /\
   score (player_contexts_ g' player) = score (player_contexts_ g player) /\
   player_contexts_ g' (1 - player) = player_contexts_ g (1 - player)).
Proof.
  intros g' y. subst g'. split.
  - apply processPaddleFeedback_out_of_range.
  - intros Hp. rewrite processPaddleFeedback_eq by exact Hp. fold y.
    assert (Hc : player = 0%nat \/ player = 1%nat) by lia.
    assert (HL : 0 < PADDLE_LIMIT)
      by (unfold PADDLE_LIMIT, FIELD_HEIGHT, PADDLE_SIZE; lra).
    assert (Hclamp :
      clamp_paddle y
        = match y with
          | Finite r => Finite (Rmax (- PADDLE_LIMIT) (Rmin PADDLE_LIMIT r))
          | PlusInfinity => Finite PADDLE_LIMIT
          | MinusInfinity => Finite (- PADDLE_LIMIT)
          | NaN => NaN
          end).
    { destruct (clamp_paddle_cases y)
        as [(E & C) | [(Hy & C) | [(Hy & C) | (r & E & Hr & C)]]]; rewrite C.
      - rewrite E. reflexivity.
      - destruct y as [r | | |]; cbn [fgt] in Hy; try discriminate; [| reflexivity].
        apply gt_iff in Hy. f_equal. unfold Rmax, Rmin.
        destruct (Rle_dec PADDLE_LIMIT r); destruct (Rle_dec _ _); lra.
      - destruct y as [r | | |]; cbn [flt] in Hy; try discriminate; [| reflexivity].
        apply lt_iff in Hy. f_equal. unfold Rmax, Rmin.
        destruct (Rle_dec PADDLE_LIMIT r); destruct (Rle_dec _ _); lra.
      - rewrite E. f_equal. unfold Rmax, Rmin.
        destruct (Rle_dec PADDLE_LIMIT r); destruct (Rle_dec _ _); lra. }
    destruct Hc as [-> | ->]; cbn;
      (split; [exact Hclamp |]);
      (split; [intros r E Hr; rewrite E; apply clamp_paddle_fixed; exact Hr |]);
      repeat split; auto;
      try (intros ->; reflexivity);
      intros Hd Hu; destruct (event_type fb); try reflexivity; contradiction.
Qed.

(** X9: a paddle callback repeated with the same feedback changes
    nothing more, and feeding a stored paddle position back in (as the
    display echo does) stores the same position. *)
Theorem paddle_callback_idempotent (player : nat) (fb : Feedback) (g : PongGame) :
  processPaddleFeedback player fb (processPaddleFeedback player fb g)
    = processPaddleFeedback player fb g /\
  clamp_paddle (clamp_paddle (pose_position_y fb)) = clamp_paddle (pose_position_y fb).
Proof.
  split.
  - destruct (Nat.ltb 1 player) eqn:Hq.
    + apply Nat.ltb_lt in Hq.
      rewrite !processPaddleFeedback_out_of_range by exact Hq. reflexivity.
    + apply Nat.ltb_ge in Hq.
      rewrite !processPaddleFeedback_eq by exact Hq.
      assert (Hc : player = 0%nat \/ player = 1%nat) by lia.
      destruct Hc as [-> | ->]; cbn; destruct (event_type fb); reflexivity.
  - set (y := pose_position_y fb).
    assert (HL : 0 < PADDLE_LIMIT)
      by (unfold PADDLE_LIMIT, FIELD_HEIGHT, PADDLE_SIZE; lra).
    destruct (clamp_paddle_cases y)
      as [(E & C) | [(_ & C) | [(_ & C) | (r & _ & Hr & C)]]]; rewrite C.
    + reflexivity.
    + apply clamp_paddle_fixed. lra.
    + apply clamp_paddle_fixed. lra.
    + apply clamp_paddle_fixed. exact Hr.
Qed.

(** X10: callbacks of two different players commute. *)
Theorem paddle_callbacks_commute (p q : nat) (a b : Feedback) (g : PongGame) :
  p <> q ->
  processPaddleFeedback p a (processPaddleFeedback q b g)
    = processPaddleFeedback q b (processPaddleFeedback p a g).
Proof.
  intros Hpq.
  destruct (Nat.ltb 1 p) eqn:Hp.
  { apply Nat.ltb_lt in Hp.
    rewrite !(processPaddleFeedback_out_of_range p) by exact Hp. reflexivity. }
  destruct (Nat.ltb 1 q) eqn:Hq.
  { apply Nat.ltb_lt in Hq.
    rewrite !(processPaddleFeedback_out_of_range q) by exact Hq. reflexivity. }
  apply Nat.ltb_ge in Hp, Hq.
  rewrite !processPaddleFeedback_eq by assumption.
  assert (Hc : p = 0%nat \/ p = 1%nat) by lia.
  assert (Hd : q = 0%nat \/ q = 1%nat) by lia.
  destruct Hc as [-> | ->]; destruct Hd as [-> | ->];
    try contradiction; reflexivity.
Qed.

(** X10, on a drag of the left paddle and a release of the right one. *)
Lemma paddle_callbacks_commute_example :
  processPaddleFeedback 0 (mkFeedback 5 POSE_UPDATE)
    (processPaddleFeedback 1 (mkFeedback (-1) MOUSE_UP) game_waiting)
  = processPaddleFeedback 1 (mkFeedback (-1) MOUSE_UP)
      (processPaddleFeedback 0 (mkFeedback 5 POSE_UPDATE) game_waiting).
Proof.
  apply (paddle_callbacks_commute 0 1). discriminate.
Defined.

(** ** What holds between two calls *)

Lemma clamp_paddle_ok y : paddle_pos_ok (clamp_paddle y).
Proof.
  destruct (clamp_paddle_cases y)
    as [(_ & C) | [(_ & C) | [(_ & C) | (r & _ & Hr & C)]]]; rewrite C;
    [left; reflexivity | right .. ]; eexists; (split; [reflexivity |]);
    unfold PADDLE_LIMIT, FIELD_HEIGHT, PADDLE_SIZE in *;
    unfold Rabs; destruct (Rcase_abs _); lra.
Qed.

Lemma clamp_paddle_in_range y : y <> NaN -> paddle_in_range (clamp_paddle y).
Proof.
  intros Hy. destruct (clamp_paddle_ok y) as [E | H]; [| exact H].
  apply (proj1 (clamp_paddle_nan y)) in E. contradiction.
Qed.

Lemma reset_between_calls r g :
  paddle_pos_ok (pos (player0 g)) ->
  paddle_pos_ok (pos (player1 g)) ->
  is_int (score (player0 g)) -> is_int (score (player1 g)) ->
  last_ball_pos_x_ g = 0 -> last_ball_pos_y_ g = 0 ->
  forall g', reset r g = Some g' -> between_calls g'.
Proof.
  intros H0 H1 S0 S1 Lx Ly g' H. rewrite reset_eq in H. injection H as <-.
  unfold between_calls, synced. cbn. rewrite Rabs_R0.
  unfold FIELD_WIDTH, BORDER_SIZE.
  split; [split; assumption |]. split; [lra |]. split; [lra |]. auto.
Qed.

Lemma spinOnce_between_calls r g g' ev :
  spinOnce r g = Some (g', ev) -> between_calls g -> between_calls g'.
Proof.
  intros H (S & Hx & Hs & P0 & P1 & S0 & S1).
  pose proof (spinOnce_between_ticks _ _ _ _ H (conj S Hx)) as [S' Hx'].
  pose proof (spinOnce_players _ _ _ _ H) as (E0 & _ & E1 & _ & Hsc).
  unfold between_calls. rewrite E0, E1.
  split; [exact S' |]. split; [exact Hx' |].
  split.
  - destruct (both_active g) eqn:Ha.
    + rewrite (spinOnce_speed _ _ _ _ H Ha). unfold SPEED_STEP.
      destruct (point ev); lra.
    + rewrite (spinOnce_inactive _ _ Ha) in H. injection H as <- <-. exact Hs.
  - split; [exact P0 |]. split; [exact P1 |].
    unfold scores in Hsc.
    destruct Hsc as [(_ & E) | [(_ & E) | (_ & E)]];
      injection E as -> ->; auto using wrap_int_range.
Qed.

Lemma processPaddleFeedback_between_calls player fb g :
  between_calls g -> between_calls (processPaddleFeedback player fb g).
Proof.
  intros (S & Hx & Hs & P0 & P1 & S0 & S1).
  destruct (Nat.ltb 1 player) eqn:Hq.
  { apply Nat.ltb_lt in Hq.
    rewrite processPaddleFeedback_out_of_range by exact Hq.
    unfold between_calls. auto 10. }
  apply Nat.ltb_ge in Hq.
  pose proof (clamp_paddle_ok (pose_position_y fb)) as Hc.
  rewrite processPaddleFeedback_eq by exact Hq.
  assert (Hp : player = 0%nat \/ player = 1%nat) by lia.
  unfold between_calls, synced in *.
  destruct Hp as [-> | ->]; cbn; auto 10.
Qed.

Lemma run_between_calls ops :
  forall g g', run ops g = Some g' -> between_calls g -> between_calls g'.
Proof.
  induction ops as [| op ops IH]; intros g g' H I.
  - injection H as <-. exact I.
  - destruct op as [r | player fb]; cbn [run] in H.
    + unbind H a Ha. destruct a as [g1 ev].
      apply (IH _ _ H). exact (spinOnce_between_calls _ _ _ _ Ha I).
    + apply (IH _ _ H). apply processPaddleFeedback_between_calls. exact I.
Qed.

(** Without a NaN in a feedback pose the paddle positions stay numbers of
    the range. *)
Lemma run_paddles_in_range ops :
  forall g g',
    run ops g = Some g' ->
    forallb (fun op => negb (is_nan_feedback op)) ops = true ->
    paddle_in_range (pos (player0 g)) /\ paddle_in_range (pos (player1 g)) ->
    paddle_in_range (pos (player0 g')) /\ paddle_in_range (pos (player1 g')).
Proof.
  induction ops as [| op ops IH]; intros g g' H Hops I.
  - injection H as <-. exact I.
  - cbn [forallb] in Hops. apply andb_prop in Hops as [Hop Hops].
    destruct op as [r | player fb]; cbn [run] in H.
    + unbind H a Ha. destruct a as [g1 ev].
      apply (IH _ _ H Hops).
      pose proof (spinOnce_players _ _ _ _ Ha) as (E0 & _ & E1 & _).
      rewrite E0, E1. exact I.
    + apply (IH _ _ H Hops).
      destruct (Nat.ltb 1 player) eqn:Hq.
      { apply Nat.ltb_lt in Hq.
        rewrite processPaddleFeedback_out_of_range by exact Hq. exact I. }
      apply Nat.ltb_ge in Hq.
      assert (Hy : pose_position_y fb <> NaN).
      { cbn [is_nan_feedback] in Hop. intros E. rewrite E in Hop. discriminate. }
      pose proof (clamp_paddle_in_range _ Hy) as Hc.
      rewrite processPaddleFeedback_eq by exact Hq.
      assert (Hp : player = 0%nat \/ player = 1%nat) by lia.
      destruct I as [I0 I1].
      destruct Hp as [-> | ->]; cbn; auto.
Qed.

(** X11: in the game the constructor builds and after any sequence of
    ticks and paddle callbacks on it, [last_ball_pos] is the ball
    position, the ball is short of the outer border W/2 + 1.5 * BORDER,
    the speed is at least the serve speed 5 * dt, each paddle position
    is a number within [-(H - PADDLE) / 2, (H - PADDLE) / 2] or the NaN
    of a feedback pose (a number of the range if no feedback pose had a
    NaN), both scores are [int]s, and no score is negative or above the
    number of ticks if there were at most [INT_MAX] ticks. *)
Theorem game_between_calls (junk : R) (r : Z) (ops : list Op) (g0 g : PongGame) :
  PongGame_new junk r = Some g0 ->
  run ops g0 = Some g ->
  (last_ball_pos_x_ g = ball_pos_x_ g /\ last_ball_pos_y_ g = ball_pos_y_ g) /\
  Rabs (ball_pos_x_ g) < OUTER_LIMIT /\
  BASE_SPEED <= speed_ g /\
  paddle_pos_ok (pos (player0 g)) /\
  paddle_pos_ok (pos (player1 g)) /\
  (forallb (fun op => negb (is_nan_feedback op)) ops = true ->
   paddle_in_range (pos (player0 g)) /\ paddle_in_range (pos (player1 g))) /\
  is_int (score (player0 g)) /\
  is_int (score (player1 g)) /\
  ((Z.of_nat (count_spins ops) <= INT_MAX)%Z ->
   (0 <= score (player0 g) <= Z.of_nat (count_spins ops))%Z /\
   (0 <= score (player1 g) <= Z.of_nat (count_spins ops))%Z).
Proof.
  intros H0 H.
  assert (Hz : is_int 0) by (unfold is_int, INT_MIN, INT_MAX; lia).
  assert (Hin : paddle_in_range (Finite 0)).
  { exists 0. split; [reflexivity |].
    rewrite Rabs_R0. unfold FIELD_HEIGHT, PADDLE_SIZE. lra. }
  assert (I0 : between_calls g0).
  { unfold PongGame_new in H0.
    apply (reset_between_calls r _) with (g' := g0) in H0; auto;
      cbn; right; exact Hin. }
  assert (E0 : player0 g0 = new_player /\ player1 g0 = new_player).
  { unfold PongGame_new in H0. rewrite reset_eq in H0. injection H0 as <-.
    split; reflexivity. }
  destruct E0 as [E0 E1].
  destruct (run_between_calls _ _ _ H I0) as (S & Hx & Hs & P0 & P1 & S0 & S1).
  split; [exact S |]. split; [exact Hx |]. split; [exact Hs |].
  split; [exact P0 |]. split; [exact P1 |].
  split.
  { intros Hops. apply (run_paddles_in_range _ _ _ H Hops).
    rewrite E0, E1. split; exact Hin. }
  split; [exact S0 |]. split; [exact S1 |].
  intros Hn.
  assert (B : (score (player0 g0) + Z.of_nat (count_spins ops) <= INT_MAX)%Z /\
              (score (player1 g0) + Z.of_nat (count_spins ops) <= INT_MAX)%Z)
    by (rewrite E0, E1; cbn; lia).
  destruct B as [B0 B1].
  assert (J0 : is_int (score (player0 g0))) by (rewrite E0; exact Hz).
  assert (J1 : is_int (score (player1 g0))) by (rewrite E1; exact Hz).
  destruct (run_scores _ _ _ H J0 J1 B0 B1) as (K0 & K1 & _).
  rewrite E0 in K0. rewrite E1 in K1. cbn in K0, K1. lia.
Qed.

(** X11, on the new game after both players released their paddles and
    the timer ticked once. *)
Lemma game_between_calls_example :
  exists g0 g,
    PongGame_new 1 1 = Some g0 /\
    run [PaddleFeedback 0 (mkFeedback 0 MOUSE_UP);
         PaddleFeedback 1 (mkFeedback 5 MOUSE_UP);
         Spin 0] g0 = Some g /\
    Rabs (ball_pos_x_ g) < OUTER_LIMIT /\
    BASE_SPEED <= speed_ g /\
    paddle_in_range (pos (player1 g)) /\
    (0 <= score (player0 g) <= 1)%Z.
Proof.
  destruct run_from_new_game as (g0 & g & H0 & H & _).
  destruct (game_between_calls 1 1 _ g0 g H0 H)
    as (_ & Hx & Hs & _ & _ & Hp & _ & _ & Hsc).
  exists g0, g. split; [exact H0 |]. split; [exact H |].
  split; [exact Hx |]. split; [exact Hs |].
  split; [apply Hp; reflexivity |].
  apply Hsc. unfold INT_MAX. cbn. lia.
Defined.

(** X12: a tick with both players active and no point raises the speed
    by exactly 0.0002; a tick with a point leaves it at the serve speed
    plus 0.0002; a tick with an inactive player and a paddle callback
    leave it alone. *)
Theorem speed_after_call (r : Z) (g g' : PongGame) (ev : Events) :
  spinOnce r g = Some (g', ev) ->
  (both_active g = false -> speed_ g' = speed_ g) /\
  (both_active g = true -> point ev = None -> speed_ g' = speed_ g + SPEED_STEP) /\
  (forall p, point ev = Some p -> speed_ g' = BASE_SPEED + SPEED_STEP) /\
  (forall player fb, speed_ (processPaddleFeedback player fb g) = speed_ g).
Proof.
  intros H. split; [| split; [| split]].
  - intros Ha. rewrite (spinOnce_inactive _ _ Ha) in H. injection H as <- <-.
    reflexivity.
  - intros Ha Hp. rewrite (spinOnce_speed _ _ _ _ H Ha), Hp. reflexivity.
  - intros p Hp. destruct (both_active g) eqn:Ha.
    + rewrite (spinOnce_speed _ _ _ _ H Ha), Hp. reflexivity.
    + rewrite (spinOnce_inactive _ _ Ha) in H. injection H as <- <-. discriminate.
  - intros player fb. pose proof (processPaddleFeedback_ball player fb g) as E.
    unfold ball in E. injection E as _ _ _ _ _ _ Es. exact Es.
Qed.

(** X12, on the ball that bounces off the top wall. *)
Lemma speed_after_call_example :
  exists g' ev,
    spinOnce 0 game_below_top_wall = Some (g', ev) /\
    speed_ g' = 0.4 + SPEED_STEP.
Proof.
  destruct spinOnce_game_below_top_wall as (g' & ev & H & _ & _ & Hp & _).
  destruct (speed_after_call 0 _ g' ev H) as (_ & Hs & _).
  exists g', ev. split; [exact H |]. exact (Hs eq_refl Hp).
Defined.

(** X13: a tick that starts between two ticks (with [last_ball_pos] at
    the ball and the ball short of the outer border) divides by no zero,
    unless the ball is beyond a wall and has no vertical motion; the game
    it returns is again between two ticks. *)
Theorem tick_defined (r : Z) (g : PongGame) :
  synced g ->
  Rabs (ball_pos_x_ g) < OUTER_LIMIT ->
  Rabs (ball_pos_y_ g) <= FIELD_HEIGHT * 0.5 \/ speed_ g * ball_dir_y_ g <> 0 ->
  exists g' ev,
    spinOnce r g = Some (g', ev) /\
    synced g' /\ Rabs (ball_pos_x_ g') < OUTER_LIMIT.
Proof.
  intros S Hx Hy.
  destruct (spinOnce_defined r g S Hx Hy) as (g' & ev & H).
  exists g', ev. split; [exact H |].
  exact (spinOnce_between_ticks _ _ _ _ H (conj S Hx)).
Qed.

(** X13, on the ball that flies into the upper right corner. *)
Lemma tick_defined_example :
  exists g' ev,
    spinOnce 0 game_in_corner = Some (g', ev) /\
    synced g' /\ Rabs (ball_pos_x_ g') < OUTER_LIMIT.
Proof.
  apply tick_defined.
  - split; reflexivity.
  - unfold game_in_corner, OUTER_LIMIT, FIELD_WIDTH, BORDER_SIZE. cbn.
    rewrite Rabs_pos_eq; lra.
  - left. unfold game_in_corner, FIELD_HEIGHT. cbn. rewrite Rabs_pos_eq; lra.
Defined.

(** ** The poses the paddle callback sends back *)

(** X14: for player 0 or 1 the paddle callback always ends by sending
    the display marker (the marker name with [_display] appended) the
    feedback pose with its y as the clamp leaves it, which is the paddle
    position it stores: saturated to the paddle range, or the NaN of the
    feedback.  It first sends the same pose to the control marker exactly
    when the y of the feedback was a number outside the range or an
    infinity; on a NaN it sends the display marker the pose unchanged and
    the control marker nothing.  For a player above 1 it sends nothing. *)
Theorem paddle_callback_echo (player : nat) (name : String.string)
  (pose : Pose) (e : EventType) (g : PongGame) :
  let y := position_y pose in
  let pose' := set_position_y (clamp_paddle y) pose in
  let calls := processPaddleFeedback_calls player name pose in
  ((1 < player)%nat -> calls = []) /\
  ((player <= 1)%nat ->
   pos (player_contexts_ (processPaddleFeedback player (mkFeedback y e) g) player)
     = position_y pose' /\
   (forall r, y = Finite r -> - PADDLE_LIMIT <= r <= PADDLE_LIMIT ->
    pose' = pose /\
    calls = [SetPose (String.append name "_display"%string) pose]) /\
   (y = NaN ->
    pose' = pose /\
    calls = [SetPose (String.append name "_display"%string) pose]) /\
   ((exists r, y = Finite r /\ (r < - PADDLE_LIMIT \/ PADDLE_LIMIT < r)) \/
    y = PlusInfinity \/ y = MinusInfinity ->
    position_y pose' <> y /\
    calls = [SetPose name pose';
             SetPose (String.append name "_display"%string) pose'])).
Proof.
  intros y pose' calls. subst calls pose'. unfold processPaddleFeedback_calls.
  split.
  - intros Hp. assert (E : Nat.ltb 1 player = true) by (apply Nat.ltb_lt; exact Hp).
    rewrite E. reflexivity.
  - intros Hp. assert (E : Nat.ltb 1 player = false) by (apply Nat.ltb_ge; exact Hp).
    rewrite E. rewrite processPaddleFeedback_eq by exact Hp.
    split.
    { assert (Hc : player = 0%nat \/ player = 1%nat) by lia.
      destruct Hc as [-> | ->]; reflexivity. }
    cbv zeta. fold y.
    unfold PADDLE_LIMIT, clamp_paddle, FIELD_HEIGHT, PADDLE_SIZE. cbv zeta.
    destruct pose as [px py pz ox oy oz ow]. cbn in y. subst y.
    unfold set_position_y. cbn [position_x position_y position_z orientation_x
                                orientation_y orientation_z orientation_w].
    split; [| split].
    + intros r -> Hy. cbn [fgt flt]. rewrite gt_false by lra. cbn [position_y flt].
      rewrite lt_false by lra. auto.
    + intros ->. cbn [fgt flt position_y]. auto.
    + intros [(r & -> & [Hy | Hy]) | [-> | ->]]; cbn [fgt flt].
      * rewrite gt_false by lra. cbn [position_y flt]. rewrite lt_true by lra.
        split; [| reflexivity]. intros F. injection F as F. lra.
      * rewrite gt_true by lra. cbn [position_y flt]. rewrite lt_false by lra.
        split; [| reflexivity]. intros F. injection F as F. lra.
      * cbn [position_y flt]. rewrite lt_false by lra.
        split; [discriminate | reflexivity].
      * cbn [position_y flt]. split; [discriminate | reflexivity].
Qed.

(** ** The spin a paddle gives *)

Lemma limit_angle_sign_y g g' :
  limit_angle g = Some g' ->
  (0 < ball_dir_y_ g -> 0 < ball_dir_y_ g') /\
  (ball_dir_y_ g < 0 -> ball_dir_y_ g' < 0) /\
  (ball_dir_y_ g = 0 -> ball_dir_y_ g' = 0).
Proof.
  intros H. apply limit_angle_inv in H.
  destruct H as [(_ & ->) | (Hy & ->)]; [auto |]. cbn.
  pose proof sqrt2_pos as Hs.
  assert (Hi : 0 < / sqrt 2) by (apply Rinv_0_lt_compat; exact Hs).
  unfold ANGLE_LIMIT in Hy. unfold Rdiv.
  destruct (sign_or_minus_cases (ball_dir_y_ g)) as [[Hc ->] | [Hc ->]];
    repeat split; intros; try lra.
  rewrite H, Rabs_R0 in Hy. lra.
Qed.

(** X15: in a tick that starts with [last_ball_pos] at the ball and in
    which the paddle block runs, but neither the wall block nor the
    scoring block, the paddle position of the side the ball is on is a
    number, the ball is taken back to the goal line, at some
    fraction [t1] in [0, 1] of the displacement, and direction.y takes
    the sign of the old direction.y plus the height of that point above
    the paddle centre: a ball hit above the centre is deflected upwards,
    one hit below it downwards. *)
Theorem paddle_spin (r : Z) (g g' : PongGame) (ev : Events) :
  synced g ->
  spinOnce r g = Some (g', ev) ->
  wall_bounce ev = false ->
  paddle_bounce ev = true ->
  point ev = None ->
  let dx := speed_ g * ball_dir_x_ g in
  let dy := speed_ g * ball_dir_y_ g in
  let x := ball_pos_x_ g + dx in
  let y := ball_pos_y_ g + dy in
  exists t1 paddle,
    pos (player_contexts_ g (if gt x 0 then 1%nat else 0%nat)) = Finite paddle /\
    0 <= t1 <= 1 /\
    Rabs (x - t1 * dx) = FIELD_WIDTH * 0.5 /\
    let v := ball_dir_y_ g + (y - t1 * dy - paddle) in
    (0 < v -> 0 < ball_dir_y_ g') /\
    (v < 0 -> ball_dir_y_ g' < 0) /\
    (v = 0 -> ball_dir_y_ g' = 0).
Proof.
  intros [Sx _] H Hw Hb Hp dx dy x y.
  destruct (both_active g) eqn:Ha.
  2:{ rewrite (spinOnce_inactive _ _ Ha) in H. injection H as <- <-. discriminate. }
  apply spinOnce_inv in H; [| exact Ha].
  destruct H as (k1 & w & k2 & b & g2 & pt & pose & H1 & H2 & H3 & -> & ->).
  cbn in Hw, Hb, Hp. subst w b pt.
  pose proof (bounce_walls_move _ _ _ H1) as Hm. cbv zeta in Hm.
  destruct Hm as (_ & _ & _ & _ & _ & _ & _ & _ & _ & _ & Hk).
  rewrite (Hk eq_refl) in *. clear Hk H1.
  apply score_or_update_inv in H3. cbv zeta in H3.
  destruct H3 as [(_ & _ & -> & _) | (_ & F & _)]; [| discriminate].
  apply bounce_paddles_inv in H2. cbv zeta in H2.
  destruct H2 as [(F & _) | (_ & Hc & _ & paddle & Epd0 & hit & t1 & g1 & g3 & Hr & Hn & Hl & ->)];
    [discriminate |].
  unfold crossed_goal_line, player_of in *. cbn in Hc, Hr, Hn, Epd0 |- *.
  fold dx dy x y in Hc, Hr, Hn, Epd0.
  apply andb_prop in Hc as [Hlast Hx]. apply lt_iff in Hlast. apply ge_iff in Hx.
  apply Rabs_lt_inv in Hlast. apply Rabs_ge_inv in Hx.
  assert (Hdx : x - last_ball_pos_x_ g = dx) by (unfold x; lra).
  exists t1, paddle.
  split.
  { rewrite <- Epd0. destruct (gt x 0); reflexivity. }
  assert (Ht : 0 <= t1 <= 1 /\ Rabs (x - t1 * dx) = FIELD_WIDTH * 0.5).
  { unfold FIELD_WIDTH in *. apply reflect_inv in Hr.
    destruct Hr as [(Hy & _ & Hne & Et) | [(Hy' & Hy & _ & Hne & Et) | (Hy' & Hy & _ & Et)]].
    - assert (E : t1 * dx = x - 12 * 0.5)
        by (rewrite <- Hdx, Et; apply div_mul_cancel; exact Hne).
      assert (Hd : 0 < dx) by lra.
      split; [split; nra |]. rewrite E. rewrite Rabs_pos_eq; lra.
    - assert (E0 : t1 * (last_ball_pos_x_ g - x) = - x - 12 * 0.5)
        by (rewrite Et; apply div_mul_cancel; exact Hne).
      assert (E : t1 * dx = x + 12 * 0.5) by (rewrite <- Hdx; nra).
      assert (Hd : dx < 0) by lra.
      split; [split; nra |]. rewrite E. rewrite Rabs_left; lra.
    - subst t1. split; [lra |]. rewrite Rmult_0_l, Rminus_0_r.
      unfold Rabs. destruct (Rcase_abs x); lra. }
  destruct Ht as [Ht Hgoal]. split; [exact Ht |]. split; [exact Hgoal |].
  cbv zeta.
  apply normalizeVel_scales in Hn. destruct Hn as (c & Hc & _ & Ey & _).
  cbn in Ey. unfold PADDLE_SIZE in Ey.
  set (v := ball_dir_y_ g + (y - t1 * dy - paddle)) in *.
  assert (Ev : ball_dir_y_ g1 = c * v) by (rewrite Ey; unfold v; f_equal; lra).
  pose proof (limit_angle_sign_y _ _ Hl) as (Lp & Ln & Lz).
  repeat split; intros Hv.
  - apply Lp. rewrite Ev. nra.
  - apply Ln. rewrite Ev. nra.
  - apply Lz. rewrite Ev, Hv. ring.
Qed.

(** X15, on the ball that hits the right paddle one unit above its
    middle: it leaves upwards. *)
Lemma paddle_spin_example :
  exists g' ev,
    spinOnce 0 game_at_paddle_edge = Some (g', ev) /\
    paddle_bounce ev = true /\
    0 < ball_dir_y_ g'.
Proof.
  destruct spinOnce_game_at_paddle_edge as (g' & ev & H & Hb & Hp & _ & Ey).
  assert (S : synced game_at_paddle_edge) by (split; reflexivity).
  assert (Hw : wall_bounce ev = false).
  { destruct (wall_bounce ev) eqn:E; [| reflexivity]. exfalso.
    apply spinOnce_inv in H; [| reflexivity].
    destruct H as (k1 & w & k2 & b & g2 & pt & pose & H1 & _ & _ & _ & ->).
    cbn in E. subst w.
    apply bounce_walls_inv in H1. cbv zeta in H1. destruct H1 as (t1 & Hr & _).
    apply reflect_inv in Hr. revert Hr.
    unfold game_at_paddle_edge, FIELD_HEIGHT. cbn.
    intros [(F & _) | [(_ & F & _) | (_ & _ & F & _)]]; try lra; discriminate. }
  destruct (paddle_spin 0 _ g' ev S H Hw Hb Hp) as (t1 & paddle & Epd & _ & _ & Hup & _).
  exists g', ev. split; [exact H |]. split; [exact Hb |].
  apply Hup. revert Epd. unfold game_at_paddle_edge. cbn.
  rewrite gt_true by lra. cbn. intros Epd. injection Epd as <-. lra.
Defined.

(** ** The drawn field and the limits of the simulation *)

(** X16: the markers the constructor inserts fit the limits the tick
    tests.  With the ball drawn as a cylinder of diameter BORDER, the
    ball's rim touches the inner face of the top and bottom borders when
    its centre is at ±H/2, the inner face of the side borders when its
    centre is at ±(W/2 + 1.5 * BORDER), and the face of a paddle display
    when its centre is at the goal line ±W/2; half a paddle's drawn
    length plus the ball's radius is the extent PADDLE/2 + BORDER/2 of
    the paddle test; and the display markers the paddle callbacks of
    "paddle0" and "paddle1" send poses to are among the inserted ones. *)
Theorem drawn_field_matches_limits :
  let inserted := makeFieldMarker ++ makePaddleMarkers ++ makeBallMarker in
  exists ball top bottom left right pad0 pad1 x0 x1,
    drawn "ball"%string inserted = [(0, ball)] /\
    drawn "field"%string inserted
      = [(0, top); (0, bottom); (0, left); (0, right)] /\
    drawn (String.append "paddle0" "_display")%string inserted = [(x0, pad0)] /\
    drawn (String.append "paddle1" "_display")%string inserted = [(x1, pad1)] /\
    let radius := scale_x ball / 2 in
    scale_y ball = scale_x ball /\
    marker_y top - scale_y top / 2 = FIELD_HEIGHT * 0.5 + radius /\
    marker_y bottom + scale_y bottom / 2 = - (FIELD_HEIGHT * 0.5) - radius /\
    marker_x left - scale_x left / 2 = OUTER_LIMIT + radius /\
    marker_x right + scale_x right / 2 = - OUTER_LIMIT - radius /\
    x1 + marker_x pad1 - scale_x pad1 / 2 = FIELD_WIDTH * 0.5 + radius /\
    x0 + marker_x pad0 + scale_x pad0 / 2 = - (FIELD_WIDTH * 0.5) - radius /\
    scale_y pad0 / 2 + radius = PADDLE_SIZE * 0.5 + 0.5 * BORDER_SIZE /\
    scale_y pad1 / 2 + radius = PADDLE_SIZE * 0.5 + 0.5 * BORDER_SIZE.
Proof.
  cbv zeta. unfold drawn, makeFieldMarker, makePaddleMarkers, makeBallMarker.
  cbn [app find_marker marker_name String.eqb Ascii.eqb Bool.eqb String.append
       map concat controls markers pose_x andb].
  do 9 eexists.
  split; [reflexivity |]. split; [reflexivity |].
  split; [reflexivity |]. split; [reflexivity |].
  cbn [set_type set_scale set_color set_marker_x set_marker_y set_marker_z
       new_marker scale_x scale_y scale_z marker_x marker_y marker_z
       color_r color_g color_b color_a marker_type].
  unfold OUTER_LIMIT, FIELD_WIDTH, FIELD_HEIGHT, BORDER_SIZE, PADDLE_SIZE.
  repeat split; lra.
Qed.

(** ** The pose given to updateBall *)

(** X17: a tick with an inactive player shows no ball pose; a tick with
    both players active and no point shows the position the ball ends
    the tick with; a tick that starts between two ticks and scores a
    point with neither bounce block running shows the ball on the outer
    border it passed, at x = ±(W/2 + 1.5 * BORDER), and leaves the ball
    itself at the centre. *)
Theorem shown_ball (r : Z) (g g' : PongGame) (ev : Events) :
  spinOnce r g = Some (g', ev) ->
  (both_active g = false -> shown ev = None) /\
  (both_active g = true -> point ev = None ->
   shown ev = Some (ball_pos_x_ g', ball_pos_y_ g')) /\
  (synced g -> Rabs (ball_pos_x_ g) < OUTER_LIMIT ->
   wall_bounce ev = false -> paddle_bounce ev = false ->
   forall p, point ev = Some p ->
   exists px py,
     shown ev = Some (px, py) /\ Rabs px = OUTER_LIMIT /\
     ball_pos_x_ g' = 0 /\ ball_pos_y_ g' = 0).
Proof.
  intros H. split; [| split].
  - intros Ha. rewrite (spinOnce_inactive _ _ Ha) in H. injection H as <- <-.
    reflexivity.
  - intros Ha Hp. apply spinOnce_inv in H; [| exact Ha].
    destruct H as (k1 & w & k2 & b & g2 & pt & pose & H1 & H2 & H3 & -> & ->).
    cbn in Hp. subst pt.
    apply score_or_update_inv in H3. cbv zeta in H3.
    destruct H3 as [(_ & _ & -> & ->) | (_ & F & _)]; [| discriminate].
    reflexivity.
  - intros [Sx _] Hx0 Hw Hb p Hp.
    destruct (both_active g) eqn:Ha.
    2:{ rewrite (spinOnce_inactive _ _ Ha) in H. injection H as <- <-. discriminate. }
    apply spinOnce_inv in H; [| exact Ha].
    destruct H as (k1 & w & k2 & b & g2 & pt & pose & H1 & H2 & H3 & -> & ->).
    cbn in Hw, Hb, Hp. subst w b pt.
    pose proof (bounce_walls_move _ _ _ H1) as Hm. cbv zeta in Hm.
    destruct Hm as (_ & _ & _ & _ & _ & _ & _ & _ & _ & _ & Hk).
    rewrite (Hk eq_refl) in *. clear Hk H1.
    pose proof (bounce_paddles_players _ _ _ _ H2) as (_ & _ & Hk).
    rewrite (Hk eq_refl) in *. clear Hk H2.
    apply score_or_update_inv in H3. cbv zeta in H3.
    destruct H3 as [(_ & F & _) | (Hge & _ & hit & t1 & Hr & -> & Hreset)];
      [discriminate |].
    rewrite reset_eq in Hreset. injection Hreset as <-.
    cbn in Hge, Hr |- *. fold OUTER_LIMIT in Hge, Hr.
    set (dx := speed_ g * ball_dir_x_ g) in *.
    set (x := ball_pos_x_ g + dx) in *.
    eexists. eexists. split; [reflexivity |]. split; [| auto].
    apply Rabs_lt_inv in Hx0. apply Rabs_ge_inv in Hge.
    assert (HO : 0 < OUTER_LIMIT)
      by (unfold OUTER_LIMIT, FIELD_WIDTH, BORDER_SIZE; lra).
    assert (Hdx : x - last_ball_pos_x_ g = dx) by (unfold x; lra).
    apply reflect_inv in Hr.
    destruct Hr as [(Hy & _ & Hne & Et) | [(Hy' & Hy & _ & Hne & Et) | (Hy' & Hy & _ & Et)]].
    + assert (E : t1 * dx = x - OUTER_LIMIT)
        by (rewrite <- Hdx, Et; apply div_mul_cancel; exact Hne).
      rewrite E. rewrite Rabs_pos_eq; lra.
    + assert (E0 : t1 * (last_ball_pos_x_ g - x) = - x - OUTER_LIMIT)
        by (rewrite Et; apply div_mul_cancel; exact Hne).
      assert (E : t1 * dx = x + OUTER_LIMIT) by (rewrite <- Hdx; nra).
      rewrite E. rewrite Rabs_left; lra.
    + subst t1. rewrite Rmult_0_l, Rminus_0_r.
      unfold Rabs. destruct (Rcase_abs x); lra.
Qed.

Lemma spinOnce_game_before_point_flags :
  exists g' ev,
    spinOnce 1 game_before_point = Some (g', ev) /\
    wall_bounce ev = false /\ paddle_bounce ev = false /\
    point ev = Some 0%nat.
Proof.
  unfold game_before_point. evaluate. rewrite reset_eq. expose.
  eexists. eexists. split; [reflexivity |]. cbn. auto.
Qed.

(** X17, on the tick in which the right player misses: the ball is shown
    on an outer border and served from the centre. *)
Lemma shown_ball_example :
  exists g' ev px py,
    spinOnce 1 game_before_point = Some (g', ev) /\
    shown ev = Some (px, py) /\ Rabs px = OUTER_LIMIT /\
    ball_pos_x_ g' = 0 /\ ball_pos_y_ g' = 0.
Proof.
  destruct spinOnce_game_before_point_flags as (g' & ev & H & Hw & Hb & Hp).
  assert (S : synced game_before_point) by (split; reflexivity).
  assert (Hx : Rabs (ball_pos_x_ game_before_point) < OUTER_LIMIT).
  { unfold game_before_point, OUTER_LIMIT, FIELD_WIDTH, BORDER_SIZE. cbn.
    rewrite Rabs_pos_eq; lra. }
  destruct (shown_ball 1 _ g' ev H) as (_ & _ & Hs).
  destruct (Hs S Hx Hw Hb 0%nat Hp) as (px & py & E & Hpx & Ex & Ey).
  exists g', ev, px, py. auto.
Defined.

(** ** Both walls alike *)

(** X18: for a limit that is not negative, [reflect] treats the two
    sides alike: mirroring the position and the previous position gives
    the same flag and the same fraction. *)
Theorem reflect_mirror (pos last_pos limit t0 : R) :
  0 <= limit ->
  reflect (- pos) (- last_pos) limit t0 = reflect pos last_pos limit t0.
Proof.
  intros Hl. unfold reflect, gt.
  destruct (Rgt_dec (- pos) limit) as [Hn | Hn];
    destruct (Rgt_dec pos limit) as [Hp | Hp]; try lra.
  - destruct (Rgt_dec (- pos) limit); [| contradiction].
    replace (- pos - - last_pos) with (last_pos - pos) by ring. reflexivity.
  - rewrite Ropp_involutive.
    destruct (Rgt_dec pos limit); [| contradiction].
    replace (- last_pos - - pos) with (pos - last_pos) by ring. reflexivity.
  - rewrite Ropp_involutive.
    destruct (Rgt_dec pos limit); [contradiction |].
    destruct (Rgt_dec (- pos) limit); [contradiction | reflexivity].
Qed.

(** X18, on the top and the bottom wall. *)
Lemma reflect_mirror_example :
  reflect (Ropp 4.3) (Ropp 3.9) 4 0 = reflect 4.3 3.9 4 0.
Proof. apply reflect_mirror. lra. Defined.

(** ** The paddle callback on concrete feedback *)

(** X8, on a release of the right paddle far above the field: the
    paddle is stored at the upper limit and the player is active; and on
    a drag of the left paddle with a NaN: the NaN is stored. *)
Lemma paddle_callback_effect_example :
  let g' := processPaddleFeedback 1 (mkFeedback (Finite 5) MOUSE_UP) game_waiting in
  let g'' := processPaddleFeedback 0 (mkFeedback NaN POSE_UPDATE) game_waiting in
  pos (player_contexts_ g' 1) = Finite (Rmax (- PADDLE_LIMIT) (Rmin PADDLE_LIMIT 5)) /\
  active (player_contexts_ g' 1) = true /\
  player_contexts_ g' 0 = player_contexts_ game_waiting 0 /\
  pos (player_contexts_ g'' 0) = NaN.
Proof.
  destruct (paddle_callback_effect 1 (mkFeedback (Finite 5) MOUSE_UP) game_waiting)
    as [_ H].
  destruct (H (le_n 1)) as (Hpos & _ & _ & Hup & _ & _ & Hother).
  destruct (paddle_callback_effect 0 (mkFeedback NaN POSE_UPDATE) game_waiting)
    as [_ H'].
  destruct (H' (le_S _ _ (le_n 0))) as (Hnan & _).
  split; [exact Hpos |]. split; [exact (Hup eq_refl) |].
  split; [exact Hother | exact Hnan].
Defined.

(** X14, on a drag of the left paddle far below the field: the control
    marker and the display marker are both sent the pose at the lower
    limit; and on a drag with a NaN: the display marker alone is sent the
    pose as it came. *)
Lemma paddle_callback_echo_example :
  let pose := mkPose (-6.5) (Finite (-7)) 0 0 0 0 1 in
  let pose' := set_position_y (clamp_paddle (Finite (-7))) pose in
  let nan_pose := mkPose (-6.5) NaN 0 0 0 0 1 in
  processPaddleFeedback_calls 0 "paddle0"%string pose
    = [SetPose "paddle0"%string pose';
       SetPose (String.append "paddle0" "_display")%string pose'] /\
  processPaddleFeedback_calls 0 "paddle0"%string nan_pose
    = [SetPose (String.append "paddle0" "_display")%string nan_pose].
Proof.
  destruct (paddle_callback_echo 0 "paddle0"%string
              (mkPose (-6.5) (Finite (-7)) 0 0 0 0 1) POSE_UPDATE game_waiting)
    as [_ H].
  destruct (H (le_S _ _ (le_n 0))) as (_ & _ & _ & Hout).
  destruct (paddle_callback_echo 0 "paddle0"%string
              (mkPose (-6.5) NaN 0 0 0 0 1) POSE_UPDATE game_waiting)
    as [_ H'].
  destruct (H' (le_S _ _ (le_n 0))) as (_ & _ & Hnan & _).
  split.
  - apply Hout. left. exists (-7). split; [reflexivity |].
    left. unfold PADDLE_LIMIT, FIELD_HEIGHT, PADDLE_SIZE. lra.
  - apply Hnan. reflexivity.
Defined.
